(** * no-OS core utilities: the circular buffer and the doubly linked list

    A shallow embedding of [util/circular_buffer.c] and [util/list.c].
    Fixed-width C integers are integers of [Z] with the wrap-around written
    out; pointers are addresses of [Z] with [0] for [NULL]; the heap of list
    nodes is a finite map from addresses to records. *)

From Stdlib Require Import ZArith Lia List Bool Sorted Permutation.
From stdpp Require Import base option list gmap.

Open Scope Z_scope.

(** ** Machine integers and return codes *)

(** [uint32_t] arithmetic: every result is reduced modulo [2^32]. *)
Definition u32 (x : Z) : Z := x mod 4294967296.

(** Conversion to [int32_t]: the two's complement reading of the low 32 bits. *)
Definition s32 (x : Z) : Z :=
  let r := u32 x in if r <? 2147483648 then r else r - 4294967296.

Definition INT32_MIN : Z := -2147483648.
Definition INT32_MAX : Z := 2147483647.

(** Modelled from the spec: [error.h] is not among the sources; the spec only
    says that every operation reports success or one generic failure. The
    values are the customary ones of the platform drivers. *)
Definition SUCCESS : Z := 0.
Definition FAILURE : Z := -1.

(** ** The circular buffer ([util/circular_buffer.c]) *)

Module CircularBuffer.

(** [struct circular_buffer]. The three pointers [buff], [read_ptr] and
    [write_ptr] point into one region: [buff] is the region itself, a list of
    bytes, and the two cursors are kept as byte offsets from its start. *)
Record circular_buffer : Type := mk_cb {
  size : Z;
  nb_elem : Z;
  elem_size : Z;
  buff : list Z;
  read_ptr : Z;
  write_ptr : Z;
  full : bool
}.

Definition set_buff (b : circular_buffer) (v : list Z) : circular_buffer :=
  mk_cb (size b) (nb_elem b) (elem_size b) v (read_ptr b) (write_ptr b) (full b).
Definition set_read_ptr (b : circular_buffer) (v : Z) : circular_buffer :=
  mk_cb (size b) (nb_elem b) (elem_size b) (buff b) v (write_ptr b) (full b).
Definition set_write_ptr (b : circular_buffer) (v : Z) : circular_buffer :=
  mk_cb (size b) (nb_elem b) (elem_size b) (buff b) (read_ptr b) v (full b).
Definition set_full (b : circular_buffer) (v : bool) : circular_buffer :=
  mk_cb (size b) (nb_elem b) (elem_size b) (buff b) (read_ptr b) (write_ptr b) v.

(** What the two [calloc] calls of [circular_buffer_init] answer. *)
Record calloc_oracle : Type := {
  grants_desc : bool;
  grants_buff : bool
}.

Definition all_granted : calloc_oracle :=
  {| grants_desc := true; grants_buff := true |}.

(** [memcpy(region + off, src, n)]: bytes [off .. off+n) of the region are
    replaced by the first [n] bytes of [src]. *)
Definition memcpy_to (region : list Z) (off : Z) (src : list Z) (n : Z) : list Z :=
  take (Z.to_nat off) region ++ take (Z.to_nat n) src
    ++ drop (Z.to_nat (off + n)) region.

(** [memcpy(dst, region + off, n)]: the [n] bytes delivered to the caller. *)
Definition memcpy_from (region : list Z) (off : Z) (n : Z) : list Z :=
  take (Z.to_nat n) (drop (Z.to_nat off) region).

(** [desc_ptr] tells whether the out-parameter [desc] is non-null. [calloc]
    zeroes the descriptor, so [full] starts false, and zeroes the region of
    [nb_elements * element_size] bytes (the product is [calloc]'s own, not the
    32-bit [size]). *)
Definition circular_buffer_init (desc_ptr : bool) (mem : calloc_oracle)
    (nb_elements element_size : Z) : Z * option circular_buffer :=
  if negb desc_ptr || (element_size =? 0) || (nb_elements =? 0)
  then (FAILURE, None)
  else
    let size := u32 (nb_elements * element_size) in
    if (size <? nb_elements) || (size <? element_size)
    then (FAILURE, None)
    else if negb (grants_desc mem) then (FAILURE, None)
    else if negb (grants_buff mem) then (FAILURE, None)
    else
      (SUCCESS,
       Some {| size := size;
               nb_elem := nb_elements;
               elem_size := element_size;
               buff := repeat 0 (Z.to_nat (nb_elements * element_size));
               read_ptr := 0;
               write_ptr := 0;
               full := false |}).

(** After the call the descriptor and its region are released. *)
Definition circular_buffer_remove (desc : option circular_buffer)
    : Z * option circular_buffer :=
  match desc with
  | None => (FAILURE, None)
  | Some _ => (SUCCESS, None)
  end.

(** Offsets stand for the pointers, so the difference [ptr - desc->buff] is
    the offset itself, as an [uint32_t]. *)
Definition ptr_to_offset (desc : circular_buffer) (ptr : Z) : Z := u32 ptr.

Definition elements_to_size (desc : circular_buffer) (elems : Z) : Z :=
  u32 (elems * elem_size desc).

(** Division by a zero [elem_size] cannot happen after a successful init;
    [Z.div] gives 0 there. *)
Definition size_to_elements (desc : circular_buffer) (sz : Z) : Z :=
  sz / elem_size desc.

Definition get_unread_size (desc : circular_buffer) : Z :=
  if full desc then size desc
  else if write_ptr desc <? read_ptr desc then
    let sz := u32 (size desc - ptr_to_offset desc (read_ptr desc)) in
    u32 (sz + write_ptr desc)
  else u32 (write_ptr desc - read_ptr desc).

Definition circular_buffer_size (desc : option circular_buffer)
    : Z * option Z :=
  match desc with
  | None => (FAILURE, None)
  | Some ldesc => (SUCCESS, Some (size_to_elements ldesc (get_unread_size ldesc)))
  end.

(** [data] holds the bytes found at the caller's pointer. *)
Definition circular_buffer_write (desc : option circular_buffer)
    (data : list Z) (nb_elements : Z) : Z * option circular_buffer :=
  match desc with
  | None => (FAILURE, desc)
  | Some ldesc =>
    if full ldesc then (FAILURE, desc)
    else
      let to_write_size := elements_to_size ldesc nb_elements in
      if to_write_size >? u32 (size ldesc - get_unread_size ldesc)
      then (FAILURE, desc)
      else
        let size_to_end :=
          u32 (size ldesc - ptr_to_offset ldesc (write_ptr ldesc)) in
        let ldesc1 :=
          if to_write_size >? size_to_end then
            let b1 := memcpy_to (buff ldesc) (write_ptr ldesc) data size_to_end in
            let to_write_size' := u32 (to_write_size - size_to_end) in
            let b2 := memcpy_to b1 0 (drop (Z.to_nat size_to_end) data)
                        to_write_size' in
            set_write_ptr (set_buff ldesc b2) to_write_size'
          else
            let b1 := memcpy_to (buff ldesc) (write_ptr ldesc) data to_write_size in
            set_write_ptr (set_buff ldesc b1) (write_ptr ldesc + to_write_size) in
        let ldesc2 :=
          if write_ptr ldesc1 =? read_ptr ldesc1 then set_full ldesc1 true
          else ldesc1 in
        (SUCCESS, Some ldesc2)
  end.

(** The second component is what the call copied into the caller's [data]. *)
Definition circular_buffer_read (desc : option circular_buffer)
    (nb_elements : Z) : Z * list Z * option circular_buffer :=
  match desc with
  | None => (FAILURE, [], desc)
  | Some ldesc =>
    let to_read_size := elements_to_size ldesc nb_elements in
    if to_read_size >? get_unread_size ldesc then (FAILURE, [], desc)
    else
      let size_to_end :=
        u32 (size ldesc - ptr_to_offset ldesc (read_ptr ldesc)) in
      let '(out, ldesc1) :=
        if to_read_size >? size_to_end then
          let o1 := memcpy_from (buff ldesc) (read_ptr ldesc) size_to_end in
          let to_read_size' := u32 (to_read_size - size_to_end) in
          let o2 := memcpy_from (buff ldesc) 0 to_read_size' in
          (o1 ++ o2, set_read_ptr ldesc to_read_size')
        else
          (memcpy_from (buff ldesc) (read_ptr ldesc) to_read_size,
           set_read_ptr ldesc (read_ptr ldesc + to_read_size)) in
      let ldesc2 := if full ldesc1 then set_full ldesc1 false else ldesc1 in
      (SUCCESS, out, Some ldesc2)
  end.

(** *** The invariant of the specification *)

(** [occupied] is the number of bytes written and not yet read. *)
Definition ring_invariant (occupied : Z) (b : circular_buffer) : Prop :=
  (full b = true <-> occupied = size b) /\
  (full b = false ->
   occupied = (write_ptr b - read_ptr b) mod size b).

(** A caller's trace of calls; [run] replays it and keeps count of the bytes
    accepted by successful writes and handed out by successful reads. *)
Inductive call : Type :=
  | Write (data : list Z) (nb_elements : Z)
  | Read (nb_elements : Z).

Definition step (c : call) (st : option circular_buffer * Z)
    : option circular_buffer * Z :=
  let '(desc, occupied) := st in
  match c with
  | Write data n =>
    let '(rc, desc') := circular_buffer_write desc data n in
    if rc =? SUCCESS
    then (desc', occupied + n * from_option elem_size 0 desc)
    else (desc', occupied)
  | Read n =>
    let '(rc, _, desc') := circular_buffer_read desc n in
    if rc =? SUCCESS
    then (desc', occupied - n * from_option elem_size 0 desc)
    else (desc', occupied)
  end.

Definition run (cs : list call) (st : option circular_buffer * Z)
    : option circular_buffer * Z :=
  fold_left (fun st c => step c st) cs st.

(** States in which the descriptor is consistent with its region: what
    [circular_buffer_init] establishes and the calls maintain. The cursors
    may rest on the one-past-the-end offset. *)
Record consistent (b : circular_buffer) : Prop := {
  c_elem : 0 < elem_size b;
  c_size : 0 < size b < 4294967296;
  c_buff : Z.of_nat (length (buff b)) = size b;
  c_read : 0 <= read_ptr b <= size b;
  c_write : 0 <= write_ptr b <= size b
}.

(** *** The unread bytes

    What follows is not in [circular_buffer.c]: it is the vocabulary in
    which the first-in, first-out behaviour of the calls is stated. *)

(** The byte at offset [p] of a region. *)
Definition byte_at (region : list Z) (p : Z) : Z := nth (Z.to_nat p) region 0.

(** The unread bytes, oldest first: the [i]-th one lies [i] bytes after the
    read cursor, counted around the end of the region. *)
Definition unread (b : circular_buffer) : list Z :=
  map (fun i => byte_at (buff b) ((read_ptr b + Z.of_nat i) mod size b))
    (seq 0 (Z.to_nat (get_unread_size b))).

(** A consistent descriptor whose [full] flag is only set with the cursors
    on the same offset. *)
Record coherent (b : circular_buffer) : Prop := {
  coh_consistent : consistent b;
  coh_full : full b = true -> write_ptr b = read_ptr b
}.

(** The descriptor a successful write leaves. *)
Definition written (b : circular_buffer) (data : list Z) (t : Z)
    : circular_buffer :=
  let e := size b - write_ptr b in
  if t >? e then
    mk_cb (size b) (nb_elem b) (elem_size b)
      (memcpy_to (memcpy_to (buff b) (write_ptr b) data e) 0
         (drop (Z.to_nat e) data) (t - e))
      (read_ptr b) (t - e) (t - e =? read_ptr b)
  else
    mk_cb (size b) (nb_elem b) (elem_size b)
      (memcpy_to (buff b) (write_ptr b) data t)
      (read_ptr b) (write_ptr b + t) (write_ptr b + t =? read_ptr b).

(** The descriptor a successful read leaves. *)
Definition consumed (b : circular_buffer) (t : Z) : circular_buffer :=
  let e := size b - read_ptr b in
  mk_cb (size b) (nb_elem b) (elem_size b) (buff b)
    (if t >? e then t - e else read_ptr b + t) (write_ptr b) false.

(** The bytes a successful read hands out. *)
Definition delivered (b : circular_buffer) (t : Z) : list Z :=
  let e := size b - read_ptr b in
  if t >? e then
    memcpy_from (buff b) (read_ptr b) e ++ memcpy_from (buff b) 0 (t - e)
  else memcpy_from (buff b) (read_ptr b) t.

End CircularBuffer.

(** ** The doubly linked list ([util/list.c]) *)

Module LinkedList.

(** [struct list_elem]: the payload reference and the two neighbours. *)
Record list_elem : Type := mk_elem {
  data : Z;
  prev : Z;
  next : Z
}.

(** [struct list_iterator]; the field [list] is [list_ref] here. *)
Record list_iterator : Type := mk_it {
  list_ref : Z;
  elem : Z
}.

Inductive adapter_type : Type :=
  | LIST_DEFAULT
  | LIST_QUEUE
  | LIST_STACK
  | LIST_PRIORITY_LIST.

(** The function pointers an adapter can hold, by the name of the function
    they point to. *)
Inductive f_add : Type := Ptr_list_add_find | Ptr_list_add_last.
Inductive f_get : Type := Ptr_list_get_first | Ptr_list_get_last.
Inductive f_read : Type := Ptr_list_read_first | Ptr_list_read_last.
Inductive f_edit : Type := Ptr_list_edit_first | Ptr_list_edit_last.

(** [struct list_adapter]; the field [list] is [ad_list] here. *)
Record list_adapter : Type := mk_adapter {
  push : f_add;
  pop : f_get;
  top_next : f_read;
  back : f_read;
  swap : f_edit;
  ad_list : Z
}.

(** A comparator is a function of the two payload references. *)
Definition f_cmp : Type := Z -> Z -> Z.

(** [struct list_desc]. *)
Record list_desc : Type := mk_desc {
  first : Z;
  last : Z;
  nb_elements : Z;
  comparator : f_cmp;
  nb_iterators : Z;
  l_it : list_iterator;
  adapter : list_adapter
}.

Definition set_first (d : list_desc) (v : Z) : list_desc :=
  mk_desc v (last d) (nb_elements d) (comparator d) (nb_iterators d) (l_it d)
    (adapter d).
Definition set_last (d : list_desc) (v : Z) : list_desc :=
  mk_desc (first d) v (nb_elements d) (comparator d) (nb_iterators d) (l_it d)
    (adapter d).
Definition set_nb_elements (d : list_desc) (v : Z) : list_desc :=
  mk_desc (first d) (last d) v (comparator d) (nb_iterators d) (l_it d)
    (adapter d).
Definition set_nb_iterators (d : list_desc) (v : Z) : list_desc :=
  mk_desc (first d) (last d) (nb_elements d) (comparator d) v (l_it d)
    (adapter d).
Definition set_l_it (d : list_desc) (v : list_iterator) : list_desc :=
  mk_desc (first d) (last d) (nb_elements d) (comparator d) (nb_iterators d) v
    (adapter d).

(** *** The heap

    Three typed stores, one per kind of object the library allocates, over a
    common address space. [calloc] hands out the addresses from [brk] upwards
    and gives up (returns [NULL]) once [avail] allocations were granted. *)
Record heap : Type := mk_heap {
  elems : gmap Z list_elem;
  descs : gmap Z list_desc;
  iters : gmap Z list_iterator;
  brk : Z;
  avail : nat
}.

Definition empty_heap (budget : nat) : heap :=
  mk_heap ∅ ∅ ∅ 1 budget.

(** Outcome of a call: a returned value and the heap after it, a fault (a
    null or dangling pointer was dereferenced), or a loop that outlived the
    fuel it was given. *)
Inductive result (A : Type) : Type :=
  | Ok (a : A) (h : heap)
  | Fault
  | Timeout.
Arguments Ok {A} a h.
Arguments Fault {A}.
Arguments Timeout {A}.

Definition M (A : Type) : Type := heap -> result A.

Definition ret {A : Type} (a : A) : M A := fun h => Ok a h.

Definition bind {A B : Type} (m : M A) (k : A -> M B) : M B :=
  fun h =>
    match m h with
    | Ok a h' => k a h'
    | Fault => Fault
    | Timeout => Timeout
    end.

Definition fault {A : Type} : M A := fun _ => Fault.
Definition timeout {A : Type} : M A := fun _ => Timeout.

Notation "'let!' x ':=' m 'in' k" := (bind m (fun x => k))
  (at level 10, x pattern, m at level 100, k at level 200).

Definition calloc : M Z :=
  fun h =>
    match avail h with
    | O => Ok 0 h
    | S n => Ok (brk h)
               (mk_heap (elems h) (descs h) (iters h) (brk h + 1) n)
    end.

Definition get_elem (a : Z) : M list_elem :=
  fun h =>
    if a =? 0 then Fault
    else match elems h !! a with
         | Some e => Ok e h
         | None => Fault
         end.

Definition write_elem (a : Z) (e : list_elem) : M unit :=
  fun h => Ok tt (mk_heap (<[a := e]> (elems h)) (descs h) (iters h)
                    (brk h) (avail h)).

Definition put_elem (a : Z) (e : list_elem) : M unit :=
  let! _ := get_elem a in write_elem a e.

Definition free_elem (a : Z) : M unit :=
  if a =? 0 then ret tt
  else
    let! _ := get_elem a in
    fun h => Ok tt (mk_heap (delete a (elems h)) (descs h) (iters h)
                      (brk h) (avail h)).

Definition get_desc (l : Z) : M list_desc :=
  fun h =>
    if l =? 0 then Fault
    else match descs h !! l with
         | Some d => Ok d h
         | None => Fault
         end.

Definition write_desc (l : Z) (d : list_desc) : M unit :=
  fun h => Ok tt (mk_heap (elems h) (<[l := d]> (descs h)) (iters h)
                    (brk h) (avail h)).

Definition put_desc (l : Z) (d : list_desc) : M unit :=
  let! _ := get_desc l in write_desc l d.

Definition free_desc (l : Z) : M unit :=
  if l =? 0 then ret tt
  else
    let! _ := get_desc l in
    fun h => Ok tt (mk_heap (elems h) (delete l (descs h)) (iters h)
                      (brk h) (avail h)).

(** An [Iterator] handle: null, an iterator of its own on the heap, or the
    address [&list->l_it] of the iterator embedded in descriptor [l]. *)
Inductive Iterator : Type :=
  | Iter_null
  | Iter_heap (a : Z)
  | Iter_l_it (l : Z).

Definition is_null (it : Iterator) : bool :=
  match it with
  | Iter_null => true
  | Iter_heap a => a =? 0
  | Iter_l_it l => l =? 0
  end.

Definition get_it (it : Iterator) : M list_iterator :=
  match it with
  | Iter_null => fault
  | Iter_heap a =>
    fun h =>
      if a =? 0 then Fault
      else match iters h !! a with
           | Some i => Ok i h
           | None => Fault
           end
  | Iter_l_it l => let! d := get_desc l in ret (l_it d)
  end.

Definition write_it (a : Z) (i : list_iterator) : M unit :=
  fun h => Ok tt (mk_heap (elems h) (descs h) (<[a := i]> (iters h))
                    (brk h) (avail h)).

Definition put_it (it : Iterator) (i : list_iterator) : M unit :=
  match it with
  | Iter_null => fault
  | Iter_heap a => let! _ := get_it it in write_it a i
  | Iter_l_it l => let! d := get_desc l in write_desc l (set_l_it d i)
  end.

Definition free_it (a : Z) : M unit :=
  if a =? 0 then ret tt
  else
    let! _ := get_it (Iter_heap a) in
    fun h => Ok tt (mk_heap (elems h) (descs h) (delete a (iters h))
                      (brk h) (avail h)).

(** Field assignments through a pointer. *)
Definition set_data (a : Z) (v : Z) : M unit :=
  let! e := get_elem a in write_elem a (mk_elem v (prev e) (next e)).
Definition set_prev (a : Z) (v : Z) : M unit :=
  let! e := get_elem a in write_elem a (mk_elem (data e) v (next e)).
Definition set_next (a : Z) (v : Z) : M unit :=
  let! e := get_elem a in write_elem a (mk_elem (data e) (prev e) v).
Definition set_it_elem (it : Iterator) (v : Z) : M unit :=
  let! i := get_it it in put_it it (mk_it (list_ref i) v).

(** *** The functions of [list.c] *)

(** The pointer difference of the two references, converted to [int32_t]. *)
Definition default_comparator (data1 data2 : Z) : Z := s32 (data1 - data2).

Definition create_element (data prev next : Z) : M Z :=
  let! elem := calloc in
  if elem =? 0 then ret 0
  else
    let! _ := write_elem elem (mk_elem data prev next) in
    ret elem.

Definition update_links (prev elem next : Z) : M unit :=
  let! _ := (if prev =? 0 then ret tt
             else set_next prev (if elem =? 0 then next else elem)) in
  let! _ := (if elem =? 0 then ret tt
             else let! _ := set_prev elem prev in set_next elem next) in
  if next =? 0 then ret tt
  else set_prev next (if elem =? 0 then prev else elem).

Definition update_desc (l : Z) (new_first new_last : Z) : M unit :=
  let! d := get_desc l in
  if new_first =? first d then
    let d1 := set_last d new_last in
    write_desc l (if (new_first =? 0) || (new_last =? 0)
                  then set_first d1 new_last else d1)
  else
    let d1 := set_first d new_first in
    write_desc l (if (new_last =? 0) || (new_first =? 0)
                  then set_last d1 new_first else d1).

Definition set_adapter (type : adapter_type) : list_adapter :=
  match type with
  | LIST_PRIORITY_LIST =>
    {| push := Ptr_list_add_find; pop := Ptr_list_get_first;
       top_next := Ptr_list_read_first; back := Ptr_list_read_last;
       swap := Ptr_list_edit_first; ad_list := 0 |}
  | LIST_QUEUE =>
    {| push := Ptr_list_add_last; pop := Ptr_list_get_first;
       top_next := Ptr_list_read_first; back := Ptr_list_read_last;
       swap := Ptr_list_edit_first; ad_list := 0 |}
  | LIST_DEFAULT | LIST_STACK =>
    {| push := Ptr_list_add_last; pop := Ptr_list_get_last;
       top_next := Ptr_list_read_last; back := Ptr_list_read_first;
       swap := Ptr_list_edit_last; ad_list := 0 |}
  end.

(** [list_desc_ptr] tells whether the out-parameter [list_desc] is non-null;
    the second component of the result is what is stored through it. The
    adapter lives inside the descriptor, so [*adapter] is that descriptor's
    [adapter] field. A null [comparator] is [None]. *)
Definition list_init (list_desc_ptr : bool) (comparator : option f_cmp)
    (type : adapter_type) : M (Z * Z) :=
  if negb list_desc_ptr then ret (FAILURE, 0)
  else
    let! l := calloc in
    if l =? 0 then ret (FAILURE, 0)
    else
      let ad := set_adapter type in
      let! _ := write_desc l
        {| first := 0; last := 0; nb_elements := 0;
           comparator := match comparator with
                         | Some c => c
                         | None => default_comparator
                         end;
           nb_iterators := 0;
           l_it := mk_it l 0;
           adapter := mk_adapter (push ad) (pop ad) (top_next ad) (back ad)
                        (swap ad) l |} in
      ret (SUCCESS, l).

Definition list_get_size (list_desc : Z) (out_size : bool) : M (Z * Z) :=
  if (list_desc =? 0) || negb out_size then ret (FAILURE, 0)
  else
    let! d := get_desc list_desc in
    ret (SUCCESS, nb_elements d).

Definition incr_nb_elements (l : Z) : M unit :=
  let! d := get_desc l in
  write_desc l (set_nb_elements d (u32 (nb_elements d + 1))).

Definition decr_nb_elements (l : Z) : M unit :=
  let! d := get_desc l in
  write_desc l (set_nb_elements d (u32 (nb_elements d - 1))).

Definition list_add_first (list_desc : Z) (data : Z) : M Z :=
  if list_desc =? 0 then ret FAILURE
  else
    let! d := get_desc list_desc in
    let prev := 0 in
    let next := first d in
    let! elem := create_element data prev next in
    if elem =? 0 then ret FAILURE
    else
      let! _ := update_links prev elem next in
      let! d := get_desc list_desc in
      let! _ := update_desc list_desc elem (last d) in
      let! _ := incr_nb_elements list_desc in
      ret SUCCESS.

Definition list_add_last (list_desc : Z) (data : Z) : M Z :=
  if list_desc =? 0 then ret FAILURE
  else
    let! d := get_desc list_desc in
    let prev := last d in
    let next := 0 in
    let! elem := create_element data prev next in
    if elem =? 0 then ret FAILURE
    else
      let! _ := update_links prev elem next in
      let! d := get_desc list_desc in
      let! _ := update_desc list_desc (first d) elem in
      let! _ := incr_nb_elements list_desc in
      ret SUCCESS.

(** The loop of [iterator_move]: [idx] counts down from [n], and the walk
    stops early on a null [elem]. *)
Fixpoint move_loop (n : nat) (dir : Z) (elem : Z) : M Z :=
  match n with
  | O => ret elem
  | S n' =>
    if elem =? 0 then ret elem
    else
      let! e := get_elem elem in
      move_loop n' dir (if dir >? 0 then next e else prev e)
  end.

(** [abs] of [INT32_MIN] is taken as the two's complement machine gives it:
    the value wraps to [INT32_MIN] itself. *)
Definition abs (idx : Z) : Z := s32 (Z.abs idx).

Definition iterator_move (iter : Iterator) (idx : Z) : M Z :=
  let dir := if idx <? 0 then -1 else 1 in
  if is_null iter then ret FAILURE
  else
    let idx := abs idx in
    let! it := get_it iter in
    let! elem := move_loop (Z.to_nat idx) dir (elem it) in
    if elem =? 0 then ret FAILURE
    else
      let! _ := set_it_elem iter elem in
      ret SUCCESS.

(** The loop of [iterator_find]: the address of the first match from [elem]
    on, or null. *)
Fixpoint find_loop (fuel : nat) (cmp : f_cmp) (cmp_data : Z) (elem : Z) : M Z :=
  match fuel with
  | O => timeout
  | S fuel' =>
    if elem =? 0 then ret 0
    else
      let! e := get_elem elem in
      if 0 =? cmp (data e) cmp_data then ret elem
      else find_loop fuel' cmp cmp_data (next e)
  end.

Definition iterator_find (fuel : nat) (iter : Iterator) (cmp_data : Z) : M Z :=
  if is_null iter then ret FAILURE
  else
    let! it := get_it iter in
    let! d := get_desc (list_ref it) in
    let! found := find_loop fuel (comparator d) cmp_data (first d) in
    if found =? 0 then ret FAILURE
    else
      let! _ := set_it_elem iter found in
      ret SUCCESS.

Definition iterator_edit (iter : Iterator) (new_data : Z) : M Z :=
  if is_null iter then ret FAILURE
  else
    let! it := get_it iter in
    let! _ := set_data (elem it) new_data in
    ret SUCCESS.

(** Functions returning [void *] with an [int32_t *result] out-parameter give
    the pair of the returned reference and the value stored in [*result]. *)
Definition iterator_read (iter : Iterator) : M (Z * Z) :=
  if is_null iter then ret (0, FAILURE)
  else
    let! it := get_it iter in
    if elem it =? 0 then ret (0, FAILURE)
    else
      let! e := get_elem (elem it) in
      ret (data e, SUCCESS).

Definition iterator_get (iter : Iterator) : M (Z * Z) :=
  if is_null iter then ret (0, FAILURE)
  else
    let! it := get_it iter in
    if elem it =? 0 then ret (0, FAILURE)
    else
      let l := list_ref it in
      let! e := get_elem (elem it) in
      let! _ := update_links (prev e) 0 (next e) in
      let! e := get_elem (elem it) in
      let! d := get_desc l in
      let! _ := (if elem it =? first d then
                   update_desc l (next e) (last d)
                 else if elem it =? last d then
                   update_desc l (first d) (prev e)
                 else ret tt) in
      let! _ := decr_nb_elements l in
      let! e := get_elem (elem it) in
      let data := data e in
      let! d := get_desc l in
      let next := if elem it =? last d then prev e else next e in
      let! _ := free_elem (elem it) in
      let! _ := set_it_elem iter next in
      ret (data, SUCCESS).

Definition iterator_insert (iter : Iterator) (data : Z) (after : bool) : M Z :=
  if is_null iter then ret FAILURE
  else
    let! it := get_it iter in
    let! d := get_desc (list_ref it) in
    if after && (elem it =? last d) then list_add_last (list_ref it) data
    else if negb after && (elem it =? first d) then
      list_add_first (list_ref it) data
    else
      let! e := get_elem (elem it) in
      let! elem :=
        (if after then create_element data (elem it) (next e)
         else create_element data (prev e) (elem it)) in
      if elem =? 0 then ret FAILURE
      else
        let! n := get_elem elem in
        let! _ := update_links (prev n) elem (next n) in
        let! _ := incr_nb_elements (list_ref it) in
        ret SUCCESS.

(** The second component is the handle stored in [*iter]. *)
Definition iterator_init (list_desc : Z) (start : bool) : M (Z * Z) :=
  if list_desc =? 0 then ret (FAILURE, 0)
  else
    let! it := calloc in
    if it =? 0 then ret (FAILURE, 0)
    else
      let! d := get_desc list_desc in
      let! _ := write_desc list_desc
                  (set_nb_iterators d (u32 (nb_iterators d + 1))) in
      let! _ := write_it it
                  (mk_it list_desc (if start then first d else last d)) in
      ret (SUCCESS, it).

Definition iterator_remove (iter : Iterator) : M Z :=
  match iter with
  | Iter_heap a =>
    if a =? 0 then ret FAILURE
    else
      let! it := get_it iter in
      let! d := get_desc (list_ref it) in
      let! _ := write_desc (list_ref it)
                  (set_nb_iterators d (u32 (nb_iterators d - 1))) in
      let! _ := free_it a in
      ret SUCCESS
  | Iter_null => ret FAILURE
  | Iter_l_it _ => fault
  end.

Definition set_l_it_elem (l : Z) (v : Z) : M unit :=
  set_it_elem (Iter_l_it l) v.

(** An [uint32_t] index reaches [iterator_move] converted to [int32_t]. *)
Definition list_add_idx (list_desc : Z) (data : Z) (idx : Z) : M Z :=
  if list_desc =? 0 then ret FAILURE
  else
    let! d := get_desc list_desc in
    if (nb_elements d =? 0) || (idx =? 0) then list_add_first list_desc data
    else if nb_elements d =? idx then list_add_last list_desc data
    else
      let! _ := set_l_it_elem list_desc (first d) in
      let! rc := iterator_move (Iter_l_it list_desc) (s32 idx) in
      if negb (rc =? SUCCESS) then ret FAILURE
      else iterator_insert (Iter_l_it list_desc) data false.

(** The loop of [list_add_find]: the first element from [elem] on that the
    new [data] is strictly below, or null. *)
Fixpoint add_find_loop (fuel : nat) (cmp : f_cmp) (data : Z) (elem : Z) : M Z :=
  match fuel with
  | O => timeout
  | S fuel' =>
    if elem =? 0 then ret 0
    else
      let! e := get_elem elem in
      if 0 >? cmp data (LinkedList.data e) then ret elem
      else add_find_loop fuel' cmp data (next e)
  end.

Definition list_add_find (fuel : nat) (list_desc : Z) (data : Z) : M Z :=
  if list_desc =? 0 then ret FAILURE
  else
    let! d := get_desc list_desc in
    let! elem := add_find_loop fuel (comparator d) data (first d) in
    if elem =? 0 then
      let! d := get_desc list_desc in
      let! _ := set_l_it_elem list_desc (last d) in
      iterator_insert (Iter_l_it list_desc) data true
    else
      let! _ := set_l_it_elem list_desc elem in
      iterator_insert (Iter_l_it list_desc) data false.

Definition list_edit_first (list_desc : Z) (new_data : Z) : M Z :=
  if list_desc =? 0 then ret FAILURE
  else
    let! d := get_desc list_desc in
    let! _ := set_data (first d) new_data in
    ret SUCCESS.

Definition list_edit_last (list_desc : Z) (new_data : Z) : M Z :=
  if list_desc =? 0 then ret FAILURE
  else
    let! d := get_desc list_desc in
    let! _ := set_data (last d) new_data in
    ret SUCCESS.

Definition list_edit_idx (list_desc : Z) (new_data : Z) (idx : Z) : M Z :=
  if list_desc =? 0 then ret FAILURE
  else
    let! d := get_desc list_desc in
    let! _ := set_l_it_elem list_desc (first d) in
    let! rc := iterator_move (Iter_l_it list_desc) (s32 idx) in
    if negb (rc =? SUCCESS) then ret FAILURE
    else iterator_edit (Iter_l_it list_desc) new_data.

Definition list_edit_find (fuel : nat) (list_desc : Z) (new_data cmp_data : Z)
    : M Z :=
  if list_desc =? 0 then ret FAILURE
  else
    let! d := get_desc list_desc in
    let! _ := set_l_it_elem list_desc (first d) in
    let! rc := iterator_find fuel (Iter_l_it list_desc) cmp_data in
    if negb (rc =? SUCCESS) then ret FAILURE
    else iterator_edit (Iter_l_it list_desc) new_data.

Definition list_read_first (list_desc : Z) : M (Z * Z) :=
  if list_desc =? 0 then ret (0, FAILURE)
  else
    let! d := get_desc list_desc in
    if first d =? 0 then ret (0, FAILURE)
    else
      let! e := get_elem (first d) in
      ret (data e, SUCCESS).

Definition list_read_last (list_desc : Z) : M (Z * Z) :=
  if list_desc =? 0 then ret (0, FAILURE)
  else
    let! d := get_desc list_desc in
    if last d =? 0 then ret (0, FAILURE)
    else
      let! e := get_elem (last d) in
      ret (data e, SUCCESS).

Definition list_read_idx (list_desc : Z) (idx : Z) : M (Z * Z) :=
  if list_desc =? 0 then ret (0, FAILURE)
  else
    let! d := get_desc list_desc in
    if idx >=? nb_elements d then ret (0, FAILURE)
    else
      let! _ := set_l_it_elem list_desc (first d) in
      let! rc := iterator_move (Iter_l_it list_desc) (s32 idx) in
      if negb (rc =? SUCCESS) then ret (0, FAILURE)
      else iterator_read (Iter_l_it list_desc).

Definition list_read_find (fuel : nat) (list_desc : Z) (cmp_data : Z)
    : M (Z * Z) :=
  if list_desc =? 0 then ret (0, FAILURE)
  else
    let! d := get_desc list_desc in
    let! _ := set_l_it_elem list_desc (first d) in
    let! rc := iterator_find fuel (Iter_l_it list_desc) cmp_data in
    if negb (rc =? SUCCESS) then ret (0, FAILURE)
    else iterator_read (Iter_l_it list_desc).

Definition list_get_first (list_desc : Z) : M (Z * Z) :=
  if list_desc =? 0 then ret (0, FAILURE)
  else
    let! d := get_desc list_desc in
    if nb_elements d =? 0 then ret (0, FAILURE)
    else
      let elem := first d in
      let! e := get_elem elem in
      let! _ := update_links (prev e) 0 (next e) in
      let! d := get_desc list_desc in
      let! _ := update_desc list_desc (next e) (last d) in
      let! _ := decr_nb_elements list_desc in
      let! e := get_elem elem in
      let! _ := free_elem elem in
      ret (data e, SUCCESS).

Definition list_get_last (list_desc : Z) : M (Z * Z) :=
  if list_desc =? 0 then ret (0, FAILURE)
  else
    let! d := get_desc list_desc in
    if nb_elements d =? 0 then ret (0, FAILURE)
    else
      let elem := last d in
      let! e := get_elem elem in
      let! _ := update_links (prev e) 0 (next e) in
      let! d := get_desc list_desc in
      let! _ := update_desc list_desc (first d) (prev e) in
      let! _ := decr_nb_elements list_desc in
      let! e := get_elem elem in
      let! _ := free_elem elem in
      ret (data e, SUCCESS).

Definition list_get_idx (list_desc : Z) (idx : Z) : M (Z * Z) :=
  if list_desc =? 0 then ret (0, FAILURE)
  else
    let! d := get_desc list_desc in
    let! _ := set_l_it_elem list_desc (first d) in
    let! rc := iterator_move (Iter_l_it list_desc) (s32 idx) in
    if negb (rc =? SUCCESS) then ret (0, FAILURE)
    else iterator_get (Iter_l_it list_desc).

Definition list_get_find (fuel : nat) (list_desc : Z) (cmp_data : Z)
    : M (Z * Z) :=
  if list_desc =? 0 then ret (0, FAILURE)
  else
    let! d := get_desc list_desc in
    let! _ := set_l_it_elem list_desc (first d) in
    let! rc := iterator_find fuel (Iter_l_it list_desc) cmp_data in
    if negb (rc =? SUCCESS) then ret (0, FAILURE)
    else iterator_get (Iter_l_it list_desc).

(** The loop of [list_remove]: it goes on for as long as the reference last
    returned by [list_get_first] is not null. *)
Fixpoint remove_loop (fuel : nat) (list_desc : Z) (data : Z) : M unit :=
  match fuel with
  | O => timeout
  | S fuel' =>
    if data =? 0 then ret tt
    else
      let! (data', _) := list_get_first list_desc in
      remove_loop fuel' list_desc data'
  end.

Definition list_remove (fuel : nat) (list_desc : Z) : M Z :=
  if list_desc =? 0 then ret FAILURE
  else
    let! d := get_desc list_desc in
    if negb (nb_iterators d =? 0) then ret FAILURE
    else
      let! (data, _) := list_get_first list_desc in
      let! _ := remove_loop fuel list_desc data in
      let! _ := free_desc list_desc in
      ret SUCCESS.

(** *** Calls through the adapter *)

Definition call_add (f : f_add) (fuel : nat) (l : Z) (data : Z) : M Z :=
  match f with
  | Ptr_list_add_find => list_add_find fuel l data
  | Ptr_list_add_last => list_add_last l data
  end.

Definition call_get (f : f_get) (l : Z) : M (Z * Z) :=
  match f with
  | Ptr_list_get_first => list_get_first l
  | Ptr_list_get_last => list_get_last l
  end.

Definition call_read (f : f_read) (l : Z) : M (Z * Z) :=
  match f with
  | Ptr_list_read_first => list_read_first l
  | Ptr_list_read_last => list_read_last l
  end.

Definition call_edit (f : f_edit) (l : Z) (new_data : Z) : M Z :=
  match f with
  | Ptr_list_edit_first => list_edit_first l new_data
  | Ptr_list_edit_last => list_edit_last l new_data
  end.

(** [ad->push(ad->list, data)] and [ad->pop(ad->list, &result)], for the
    adapter of descriptor [l]. *)
Definition adapter_push (fuel : nat) (l : Z) (data : Z) : M Z :=
  let! d := get_desc l in
  call_add (push (adapter d)) fuel (ad_list (adapter d)) data.

Definition adapter_pop (l : Z) : M (Z * Z) :=
  let! d := get_desc l in
  call_get (pop (adapter d)) (ad_list (adapter d)).

(** A client that pushes the keys one after the other and stops at the first
    push that fails. *)
Fixpoint push_all (fuel : nat) (l : Z) (keys : list Z) : M Z :=
  match keys with
  | [] => ret SUCCESS
  | k :: keys' =>
    let! rc := adapter_push fuel l k in
    if negb (rc =? SUCCESS) then ret rc else push_all fuel l keys'
  end.

(** A client that pops until [*result] reports a failure, collecting the
    references popped; [bound] limits the number of pops. *)
Fixpoint pop_all (bound : nat) (l : Z) : M (list Z) :=
  match bound with
  | O => timeout
  | S bound' =>
    let! (data, rc) := adapter_pop l in
    if negb (rc =? SUCCESS) then ret []
    else
      let! rest := pop_all bound' l in
      ret (data :: rest)
  end.

(** *** The list as a sequence of nodes

    What follows is not in [list.c]: it is the vocabulary in which the
    behaviour of the functions above is stated. *)

(** A node of the abstract sequence: its address and its payload. *)
Abbreviation node := (Z * Z)%type (only parsing).

(** Address of the first node of [ns], or [dflt] when there is none. *)
Definition head_addr (ns : list node) (dflt : Z) : Z :=
  match ns with
  | [] => dflt
  | n :: _ => fst n
  end.

(** Address of the last node of [ns], or [dflt] when there is none. *)
Fixpoint last_addr (ns : list node) (dflt : Z) : Z :=
  match ns with
  | [] => dflt
  | n :: rest => last_addr rest (fst n)
  end.

(** The nodes [ns] are allocated in [m] and linked in that order; the first
    one has [p] for predecessor and the last one [q] for successor. *)
Fixpoint chain (m : gmap Z list_elem) (p : Z) (ns : list node) (q : Z) : Prop :=
  match ns with
  | [] => True
  | n :: rest =>
    m !! fst n = Some (mk_elem (snd n) p (head_addr rest q)) /\
    chain m (fst n) rest q
  end.

(** The descriptor at [l] and the nodes it reaches hold the sequence [ns];
    [cmp] and [ad] are its comparator and its adapter. *)
Record represents (h : heap) (l : Z) (cmp : f_cmp) (ad : list_adapter)
    (ns : list node) : Prop := {
  rep_handle : 0 < l;
  rep_desc : exists d,
    descs h !! l = Some d /\
    first d = head_addr ns 0 /\ last d = last_addr ns 0 /\
    nb_elements d = Z.of_nat (length ns) /\
    comparator d = cmp /\ adapter d = ad /\
    list_ref (l_it d) = l /\ ad_list ad = l;
  rep_chain : chain (elems h) 0 ns 0;
  rep_nodup : NoDup (map fst ns);
  rep_addrs : forall n, In n ns -> 0 < fst n < brk h;
  rep_count : Z.of_nat (length ns) < 4294967296;
  rep_brk : 0 < brk h
}.

(** [list_add_find] walks over [passed] and stops on the head of [reached],
    the first node whose payload the new one is strictly below. *)
Fixpoint passed (cmp : f_cmp) (x : Z) (ns : list node) : list node :=
  match ns with
  | [] => []
  | n :: rest =>
    if 0 >? cmp x (snd n) then [] else n :: passed cmp x rest
  end.

Fixpoint reached (cmp : f_cmp) (x : Z) (ns : list node) : list node :=
  match ns with
  | [] => []
  | n :: rest =>
    if 0 >? cmp x (snd n) then ns else reached cmp x rest
  end.

Definition sorted_insert (cmp : f_cmp) (n : node) (ns : list node) : list node :=
  passed cmp (snd n) ns ++ n :: reached cmp (snd n) ns.

(** The same insertion on the payloads alone: before the first key strictly
    greater than [x], behind the keys equal to it, at the end when no key is
    greater. *)
Fixpoint insert_key (cmp : f_cmp) (x : Z) (ks : list Z) : list Z :=
  match ks with
  | [] => [x]
  | k :: rest =>
    if 0 >? cmp x k then x :: k :: rest else k :: insert_key cmp x rest
  end.

(** The order in which keys pushed one by one into [start] are stored. *)
Definition priority_order (cmp : f_cmp) (keys : list Z) (start : list Z) : list Z :=
  fold_left (fun acc k => insert_key cmp k acc) keys start.

(** What "comparable keys" asks of a comparator: the sign flips with the
    arguments, and "not above" is transitive. *)
Record total_preorder (cmp : f_cmp) : Prop := {
  cmp_antisym : forall x y, cmp x y < 0 <-> 0 < cmp y x;
  cmp_trans : forall x y z, cmp x y <= 0 -> cmp y z <= 0 -> cmp x z <= 0
}.

(** [x] is not above [y]. *)
Definition cmp_le (cmp : f_cmp) (x y : Z) : Prop := cmp x y <= 0.

(** [y] compares equal to [c]. *)
Definition cmp_eqb (cmp : f_cmp) (c : Z) (y : Z) : bool := cmp y c =? 0.

(** The comparator a list is left with by [list_init]. *)
Definition installed (comparator : option f_cmp) : f_cmp :=
  match comparator with
  | Some c => c
  | None => default_comparator
  end.

(** The adapter [list_init] stores in the descriptor at [l]. *)
Definition adapter_of (ty : adapter_type) (l : Z) : list_adapter :=
  mk_adapter (push (set_adapter ty)) (pop (set_adapter ty))
    (top_next (set_adapter ty)) (back (set_adapter ty))
    (swap (set_adapter ty)) l.

(** The call returns, and its value and final heap satisfy [Q]. *)
Definition ok {A : Type} (r : result A) (Q : A -> heap -> Prop) : Prop :=
  match r with
  | Ok a h => Q a h
  | Fault => False
  | Timeout => False
  end.

(** Address of the node at position [j], null outside the sequence. *)
Definition addr_at (ns : list node) (j : nat) : Z :=
  match ns !! j with
  | Some n => fst n
  | None => 0
  end.

(** The heap in which the iterator at [it] is on [e]. *)
Definition with_position (h : heap) (it l e : Z) : heap :=
  mk_heap (elems h) (descs h) (<[it := mk_it l e]> (iters h)) (brk h) (avail h).

(** The list [10; 20] with an iterator on its last node. *)
Definition tail_scenario : M (Z * Z) :=
  let! (_, l) := list_init true None LIST_DEFAULT in
  let! _ := list_add_last l 10 in
  let! _ := list_add_last l 20 in
  let! (_, it) := iterator_init l false in
  ret (l, it).

(** The list [10] with an iterator on its only node. *)
Definition single_scenario : M (Z * Z) :=
  let! (_, l) := list_init true None LIST_DEFAULT in
  let! _ := list_add_last l 10 in
  let! (_, it) := iterator_init l true in
  ret (l, it).

(** The list holding a null reference and then the reference 5. *)
Definition null_payload_scenario : M Z :=
  let! (_, l) := list_init true None LIST_DEFAULT in
  let! _ := list_add_last l 0 in
  let! _ := list_add_last l 5 in
  ret l.

(** The fields of the descriptor at [l] that count and point: [first],
    [last], [nb_elements] and [nb_iterators]. *)
Definition desc_shape (h : heap) (l : Z) : option (Z * Z * Z * Z) :=
  match descs h !! l with
  | Some d => Some (first d, last d, nb_elements d, nb_iterators d)
  | None => None
  end.

(** *** Iterators, payloads and sample heaps

    More of the vocabulary in which the behaviour of the functions is
    stated. *)

(** The iterator behind [iter] belongs to list [l] and is on [e]. *)
Definition positioned (h : heap) (iter : Iterator) (l e : Z) : Prop :=
  match iter with
  | Iter_null => False
  | Iter_heap a => a <> 0 /\ iters h !! a = Some (mk_it l e)
  | Iter_l_it l' =>
    l' = l /\ l <> 0 /\ exists d, descs h !! l = Some d /\ l_it d = mk_it l e
  end.

(** The heap in which the iterator behind [iter] is moved to [e]. *)
Definition reposition (h : heap) (iter : Iterator) (e : Z) : heap :=
  match iter with
  | Iter_null => h
  | Iter_heap a =>
    match iters h !! a with
    | Some i => mk_heap (elems h) (descs h) (<[a := mk_it (list_ref i) e]> (iters h))
                  (brk h) (avail h)
    | None => h
    end
  | Iter_l_it l =>
    match descs h !! l with
    | Some d => mk_heap (elems h)
                  (<[l := set_l_it d (mk_it (list_ref (l_it d)) e)]> (descs h))
                  (iters h) (brk h) (avail h)
    | None => h
    end
  end.

(** The iterator behind [iter] is on the node at index [i] of [ns]. *)
Definition at_index (h : heap) (iter : Iterator) (l : Z) (ns : list node)
    (i : nat) : Prop :=
  exists n, ns !! i = Some n /\ positioned h iter l (fst n).

(** The part of [iterator_get] between reading the iterator and moving it:
    node [e] of list [l] is unlinked and released, and [k] goes on with its
    payload and with the node the iterator is to be left on. *)
Definition unlink_k {A : Type} (l e : Z) (k : Z -> Z -> M A) : M A :=
  let! el := get_elem e in
  let! _ := update_links (prev el) 0 (next el) in
  let! el := get_elem e in
  let! d := get_desc l in
  let! _ := (if e =? first d then
               update_desc l (next el) (last d)
             else if e =? last d then
               update_desc l (first d) (prev el)
             else ret tt) in
  let! _ := decr_nb_elements l in
  let! el := get_elem e in
  let data := data el in
  let! d := get_desc l in
  let next := if e =? last d then prev el else next el in
  let! _ := free_elem e in
  k data next.

(** The heap in which node [e] holds payload [v]. *)
Definition with_payload (h : heap) (e v : Z) : heap :=
  match elems h !! e with
  | Some el =>
    mk_heap (<[e := mk_elem v (prev el) (next el)]> (elems h)) (descs h)
      (iters h) (brk h) (avail h)
  | None => h
  end.

(** The order in which an adapter hands back what the list holds. *)
Definition pop_order (ad : list_adapter) (ks : list Z) : list Z :=
  match pop ad with
  | Ptr_list_get_first => ks
  | Ptr_list_get_last => rev ks
  end.

(** What the insertions at the ends leave alone: the iterators on the heap
    and the iterator inside the descriptor. *)
Definition same_iterators (h h' : heap) (l : Z) : Prop :=
  iters h' = iters h /\
  forall d, descs h !! l = Some d ->
            exists d', descs h' !! l = Some d' /\ l_it d' = l_it d /\
                       nb_iterators d' = nb_iterators d.

(** The heap after a successful [iterator_init]. *)
Definition with_iterator (h : heap) (l : Z) (d : list_desc) (e : Z) : heap :=
  mk_heap (elems h)
    (<[l := set_nb_iterators d (u32 (nb_iterators d + 1))]> (descs h))
    (<[brk h := mk_it l e]> (iters h))
    (brk h + 1) (Nat.pred (avail h)).

(** The list [10; 20; 30] ordered by subtraction, its nodes at the addresses
    2, 3 and 4, with no iterator of its own on the heap and [budget]
    allocations left. *)
Definition sample_list (budget : nat) : heap :=
  mk_heap {[ 2 := mk_elem 10 0 3; 3 := mk_elem 20 2 4; 4 := mk_elem 30 3 0 ]}
    {[ 1 := mk_desc 2 4 3 Z.sub 0 (mk_it 1 0) (adapter_of LIST_DEFAULT 1) ]}
    ∅ 5 budget.

(** The same list with an iterator, at address 5, on its middle node. *)
Definition sample_list_it (budget : nat) : heap :=
  mk_heap {[ 2 := mk_elem 10 0 3; 3 := mk_elem 20 2 4; 4 := mk_elem 30 3 0 ]}
    {[ 1 := mk_desc 2 4 3 Z.sub 1 (mk_it 1 0) (adapter_of LIST_DEFAULT 1) ]}
    {[ 5 := mk_it 1 3 ]} 6 budget.

End LinkedList.

(** * Facts *)

Lemma u32_small x : 0 <= x < 4294967296 -> u32 x = x.
Proof. intros H. unfold u32. apply Z.mod_small. exact H. Qed.

Lemma u32_range x : 0 <= u32 x < 4294967296.
Proof. unfold u32. apply Z.mod_pos_bound. lia. Qed.

Module CircularBufferFacts.
Import CircularBuffer.

(** *** Consistent descriptors *)

Ltac cb_simpl :=
  unfold set_buff, set_read_ptr, set_write_ptr, set_full;
  cbn [full size write_ptr read_ptr elem_size buff nb_elem].

Lemma unread_size_bounds (b : circular_buffer) :
  consistent b -> 0 <= get_unread_size b <= size b.
Proof.
  intros [He Hsz Hb Hr Hw]. unfold get_unread_size, ptr_to_offset.
  destruct (full b); [lia|].
  destruct (Z.ltb_spec (write_ptr b) (read_ptr b)).
  - rewrite (u32_small (read_ptr b)), (u32_small (size b - read_ptr b)) by lia.
    rewrite u32_small by lia. lia.
  - rewrite u32_small by lia. lia.
Qed.

Lemma length_memcpy_to region off src n :
  0 <= off -> 0 <= n -> off + n <= Z.of_nat (length region) ->
  n <= Z.of_nat (length src) ->
  length (memcpy_to region off src n) = length region.
Proof.
  intros Ho Hn Hr Hs. unfold memcpy_to.
  rewrite !length_app, !length_take, length_drop. lia.
Qed.

(** A successful write keeps the descriptor consistent, provided the caller's
    buffer holds the bytes it announces. *)
Lemma write_preserves_consistent (b b' : circular_buffer) data n :
  consistent b -> 0 <= n ->
  n * elem_size b <= Z.of_nat (length data) ->
  circular_buffer_write (Some b) data n = (SUCCESS, Some b') ->
  consistent b'.
Proof.
  intros Hc Hn Hdata. pose proof (unread_size_bounds b Hc) as Hu.
  destruct Hc as [He Hsz Hb Hr Hw].
  unfold circular_buffer_write, elements_to_size, ptr_to_offset.
  destruct (full b); [discriminate|].
  rewrite (u32_small (size b - get_unread_size b)) by lia.
  rewrite (u32_small (write_ptr b)), (u32_small (size b - write_ptr b)) by lia.
  pose proof (u32_range (n * elem_size b)) as Hrange.
  assert (Hle : u32 (n * elem_size b) <= n * elem_size b).
  { unfold u32. apply Z.mod_le; nia. }
  set (t := u32 (n * elem_size b)) in *.
  destruct (Z.gtb_spec t (size b - get_unread_size b)); [discriminate|].
  destruct (Z.gtb_spec t (size b - write_ptr b)) as [Hsplit|Hfit].
  - rewrite (u32_small (t - (size b - write_ptr b))) by lia.
    set (b1 := memcpy_to (buff b) _ _ _).
    assert (Hb1 : length b1 = length (buff b)).
    { unfold b1. apply length_memcpy_to; lia. }
    set (b2 := memcpy_to b1 0 _ _).
    assert (Hb2 : length b2 = length (buff b)).
    { unfold b2. rewrite length_memcpy_to; [exact Hb1 | lia | lia | lia |].
      rewrite length_drop. lia. }
    cb_simpl. intros [= <-].
    destruct (_ =? _); constructor; cb_simpl; lia.
  - set (b1 := memcpy_to (buff b) _ _ _).
    assert (Hb1 : length b1 = length (buff b)).
    { unfold b1. apply length_memcpy_to; lia. }
    cb_simpl. intros [= <-].
    destruct (_ =? _); constructor; cb_simpl; lia.
Qed.

(** A successful read keeps the descriptor consistent. *)
Lemma read_preserves_consistent (b b' : circular_buffer) n out :
  consistent b ->
  circular_buffer_read (Some b) n = (SUCCESS, out, Some b') ->
  consistent b'.
Proof.
  intros Hc. pose proof (unread_size_bounds b Hc) as Hu.
  destruct Hc as [He Hsz Hb Hr Hw].
  unfold circular_buffer_read, elements_to_size, ptr_to_offset.
  pose proof (u32_range (n * elem_size b)) as Hrange.
  set (t := u32 (n * elem_size b)) in *.
  destruct (Z.gtb_spec t (get_unread_size b)); [discriminate|].
  rewrite (u32_small (read_ptr b)), (u32_small (size b - read_ptr b)) by lia.
  destruct (Z.gtb_spec t (size b - read_ptr b)) as [Hsplit|Hfit].
  - rewrite (u32_small (t - (size b - read_ptr b))) by lia.
    cb_simpl. intros [= _ <-].
    destruct (full b); constructor; cb_simpl; lia.
  - cb_simpl. intros [= _ <-].
    destruct (full b); constructor; cb_simpl; lia.
Qed.

(** *** Writing, then reading back *)

Section Splice.
Variables (region src : list Z).

Lemma copy_out_of_copy_in (w n : nat) :
  (w <= length region)%nat -> length src = n ->
  take n (drop w (take w region ++ take n src ++ drop (w + n) region)) = src.
Proof.
  intros Hw Hn.
  rewrite drop_app_length' by (rewrite length_take_le; lia).
  rewrite (take_ge src) by lia.
  apply take_app_length'. lia.
Qed.

Lemma length_copy_in (w n : nat) :
  (w + n <= length region)%nat -> (n <= length src)%nat ->
  length (take w region ++ take n src ++ drop (w + n) region) = length region.
Proof.
  intros Hw Hn. rewrite !length_app, !length_take, length_drop. lia.
Qed.
End Splice.

Lemma memcpy_roundtrip region w src n :
  0 <= w -> 0 <= n -> w <= Z.of_nat (length region) ->
  Z.of_nat (length src) = n ->
  memcpy_from (memcpy_to region w src n) w n = src.
Proof.
  intros Hw Hn Hl Hs. unfold memcpy_from, memcpy_to.
  replace (Z.to_nat (w + n)) with (Z.to_nat w + Z.to_nat n)%nat by lia.
  apply copy_out_of_copy_in; lia.
Qed.

(** The split copy: [e] bytes go to the end of the region, the remaining
    [n - e] to its start. *)
Lemma wrapped_roundtrip (region src : list Z) (w e n' : nat) :
  length region = (w + e)%nat -> length src = (e + n')%nat -> (n' <= w)%nat ->
  let b1 := take w region ++ take e src ++ drop (w + e) region in
  let b2 := take 0 b1 ++ take n' (drop e src) ++ drop (0 + n') b1 in
  take e (drop w b2) ++ take n' (drop 0 b2) = src.
Proof.
  intros Hr Hs Hn b1 b2.
  assert (Hb1 : b1 = take w region ++ take e src).
  { unfold b1. rewrite (drop_ge region) by lia. now rewrite app_nil_r. }
  assert (Hd : length (drop e src) = n') by (rewrite length_drop; lia).
  assert (Hb2 : b2 = drop e src ++ drop n' b1).
  { unfold b2. rewrite take_0. simpl. now rewrite (take_ge (drop e src)) by lia. }
  rewrite drop_0, Hb2.
  rewrite (take_app_length' (drop e src)) by lia.
  rewrite drop_app_ge by lia.
  rewrite drop_drop, Hd.
  replace (n' + (w - n'))%nat with w by lia.
  rewrite Hb1, drop_app_length' by (rewrite length_take_le; lia).
  rewrite take_take. replace (e `min` e)%nat with e by lia.
  apply take_drop.
Qed.

(** C7. From any state without unread data (the cursors on a common offset,
    [full] clear), writing [k] elements that fit the capacity succeeds, and
    reading [k] elements back succeeds and delivers exactly the bytes written,
    whether or not the copy wraps around the end of the region; the buffer is
    then again without unread data. *)
Theorem write_then_read_roundtrip (b : circular_buffer) (k : Z) (data : list Z) :
  consistent b -> full b = false -> read_ptr b = write_ptr b ->
  0 <= k -> k * elem_size b <= size b ->
  Z.of_nat (length data) = k * elem_size b ->
  exists b1 b2,
    circular_buffer_write (Some b) data k = (SUCCESS, Some b1) /\
    circular_buffer_read (Some b1) k = (SUCCESS, data, Some b2) /\
    full b2 = false /\ read_ptr b2 = write_ptr b2 /\ consistent b2.
Proof.
  intros [He Hsz Hb Hr Hw] Hf Heq Hk Hn Hd.
  destruct b as [sz nb es bf r w f]. simpl in *. subst f r.
  set (n := k * es) in *.
  assert (Hn0 : 0 <= n) by (unfold n; nia).
  unfold circular_buffer_write, elements_to_size, get_unread_size, ptr_to_offset.
  cb_simpl.
  fold n.
  rewrite Z.ltb_irrefl, Z.sub_diag.
  rewrite (u32_small 0), Z.sub_0_r, (u32_small sz), (u32_small n), (u32_small w),
    (u32_small (sz - w)) by lia.
  replace (n >? sz) with false by lia.
  destruct (Z.gtb_spec n (sz - w)) as [Hsplit|Hfit].
  - (* the copy wraps around the end of the region *)
    rewrite (u32_small (n - (sz - w))) by lia.
    set (bf2 := memcpy_to _ 0 _ _).
    assert (Hout : memcpy_from bf2 w (sz - w) ++ memcpy_from bf2 0 (n - (sz - w)) = data).
    { unfold bf2, memcpy_from, memcpy_to.
      replace (Z.to_nat (w + (sz - w))) with (Z.to_nat w + Z.to_nat (sz - w))%nat by lia.
      replace (Z.to_nat (0 + (n - (sz - w)))) with (0 + Z.to_nat (n - (sz - w)))%nat by lia.
      change (Z.to_nat 0) with 0%nat.
      apply wrapped_roundtrip; lia. }
    assert (Hlen : Z.of_nat (length bf2) = sz).
    { unfold bf2, memcpy_to. rewrite !length_app, !length_take, !length_drop.
      rewrite !length_app, !length_take, !length_drop. lia. }
    cb_simpl.
    destruct (Z.eqb_spec (n - (sz - w)) w) as [Hfull|Hpart].
    + eexists _, _. split; [reflexivity|].
      unfold circular_buffer_read, elements_to_size, get_unread_size, ptr_to_offset.
      cb_simpl.
      fold n. rewrite (u32_small n), (u32_small w), (u32_small (sz - w)) by lia.
      replace (n >? sz) with false by lia.
      replace (n >? sz - w) with true by lia.
      rewrite (u32_small (n - (sz - w))) by lia.
      cb_simpl.
      rewrite Hout. repeat split; cbn; lia.
    + eexists _, _. split; [reflexivity|].
      unfold circular_buffer_read, elements_to_size, get_unread_size, ptr_to_offset.
      cb_simpl.
      fold n. rewrite (u32_small w), (u32_small (sz - w)), (u32_small n) by lia.
      replace (n - (sz - w) <? w) with true by lia.
      rewrite (u32_small (sz - w + (n - (sz - w)))) by lia.
      replace (n >? sz - w + (n - (sz - w))) with false by lia.
      replace (n >? sz - w) with true by lia.
      rewrite (u32_small (n - (sz - w))) by lia.
      cb_simpl.
      rewrite Hout. repeat split; cbn; lia.
  - (* the copy fits before the end of the region *)
    set (bf1 := memcpy_to _ w _ _).
    assert (Hout : memcpy_from bf1 w n = data).
    { unfold bf1. apply memcpy_roundtrip; lia. }
    assert (Hlen : Z.of_nat (length bf1) = sz).
    { unfold bf1, memcpy_to. rewrite !length_app, !length_take, !length_drop. lia. }
    cb_simpl.
    destruct (Z.eqb_spec (w + n) w) as [Hnone|Hsome].
    + eexists _, _. split; [reflexivity|].
      unfold circular_buffer_read, elements_to_size, get_unread_size, ptr_to_offset.
      cb_simpl.
      fold n. rewrite (u32_small w), (u32_small (sz - w)), (u32_small n) by lia.
      replace (n >? sz) with false by lia.
      replace (n >? sz - w) with false by lia.
      cb_simpl.
      rewrite Hout. repeat split; cbn; lia.
    + eexists _, _. split; [reflexivity|].
      unfold circular_buffer_read, elements_to_size, get_unread_size, ptr_to_offset.
      cb_simpl.
      fold n. rewrite (u32_small w), (u32_small (sz - w)), (u32_small n) by lia.
      replace (w + n <? w) with false by lia.
      rewrite (u32_small (w + n - w)) by lia.
      replace (n >? w + n - w) with false by lia.
      replace (n >? sz - w) with false by lia.
      cb_simpl.
      rewrite Hout. repeat split; cbn; lia.
Qed.
Lemma write_then_read_roundtrip_witness :
  exists b1 b2,
    circular_buffer_write
      (Some (mk_cb 4 4 1 [0; 0; 0; 0] 3 3 false)) [7; 8; 9] 3
      = (SUCCESS, Some b1) /\
    circular_buffer_read (Some b1) 3 = (SUCCESS, [7; 8; 9], Some b2) /\
    full b2 = false /\ read_ptr b2 = write_ptr b2 /\ consistent b2.
Proof.
  apply (write_then_read_roundtrip (mk_cb 4 4 1 [0; 0; 0; 0] 3 3 false) 3
           [7; 8; 9]).
  - constructor; simpl; lia.
  - reflexivity.
  - reflexivity.
  - lia.
  - simpl; lia.
  - reflexivity.
Defined.

(** *** Construction *)

Lemma init_rejects_zero desc_ptr mem nb es :
  nb = 0 \/ es = 0 ->
  circular_buffer_init desc_ptr mem nb es = (FAILURE, None).
Proof.
  intros [-> | ->]; unfold circular_buffer_init; simpl;
    now rewrite ?orb_true_r.
Qed.

Lemma init_passes mem nb es :
  nb <> 0 -> es <> 0 ->
  nb <= u32 (nb * es) -> es <= u32 (nb * es) ->
  grants_desc mem = true -> grants_buff mem = true ->
  circular_buffer_init true mem nb es =
    (SUCCESS,
     Some (mk_cb (u32 (nb * es)) nb es (repeat 0 (Z.to_nat (nb * es))) 0 0 false)).
Proof.
  intros Hn He H1 H2 Hd Hb. unfold circular_buffer_init.
  rewrite Hd, Hb.
  replace (es =? 0) with false by lia.
  replace (nb =? 0) with false by lia.
  replace (u32 (nb * es) <? nb) with false by lia.
  replace (u32 (nb * es) <? es) with false by lia.
  reflexivity.
Qed.

Lemma init_success_state desc_ptr mem nb es b :
  circular_buffer_init desc_ptr mem nb es = (SUCCESS, Some b) ->
  buff b = repeat 0 (Z.to_nat (nb * es)) /\
  read_ptr b = 0 /\ write_ptr b = 0 /\ full b = false /\
  size b = u32 (nb * es) /\ nb <> 0 /\ es <> 0.
Proof.
  unfold circular_buffer_init.
  destruct desc_ptr, (Z.eqb_spec es 0), (Z.eqb_spec nb 0); simpl;
    try discriminate.
  destruct (_ || _); [discriminate|].
  destruct (grants_desc mem); [|discriminate].
  destruct (grants_buff mem); [|discriminate].
  simpl. intros [= <-]. simpl. repeat split; assumption.
Qed.

Lemma init_consistent desc_ptr mem nb es b :
  0 < nb -> 0 < es -> nb * es < 4294967296 ->
  circular_buffer_init desc_ptr mem nb es = (SUCCESS, Some b) ->
  consistent b.
Proof.
  intros Hnb Hes Hprod Hi.
  destruct (init_success_state _ _ _ _ _ Hi)
    as (Hbuf & Hr & Hw & _ & Hsz & _ & _).
  revert Hi. unfold circular_buffer_init.
  destruct desc_ptr, (Z.eqb_spec es 0), (Z.eqb_spec nb 0); simpl;
    try discriminate.
  destruct (_ || _); [discriminate|].
  destruct (grants_desc mem); [|discriminate].
  destruct (grants_buff mem); [|discriminate].
  simpl. intros [= <-].
  constructor; cbn [size elem_size buff read_ptr write_ptr];
    rewrite ?u32_small by nia; rewrite ?repeat_length; nia.
Qed.

Lemma init_establishes_invariant desc_ptr mem nb es b :
  0 < nb < 4294967296 -> 0 < es < 4294967296 ->
  circular_buffer_init desc_ptr mem nb es = (SUCCESS, Some b) ->
  ring_invariant 0 b.
Proof.
  intros Hnb Hes Hi.
  assert (Hg : 0 < size b).
  { revert Hi. unfold circular_buffer_init.
    destruct desc_ptr, (Z.eqb_spec es 0), (Z.eqb_spec nb 0); simpl;
      try discriminate.
    destruct (Z.ltb_spec (u32 (nb * es)) nb); [discriminate|].
    simpl. destruct (_ <? _); [discriminate|].
    destruct (grants_desc mem); [|discriminate].
    destruct (grants_buff mem); [|discriminate].
    simpl. intros [= <-]. simpl. lia. }
  destruct (init_success_state _ _ _ _ _ Hi) as (_ & Hr & Hw & Hf & _).
  unfold ring_invariant. rewrite Hf, Hr, Hw. split.
  - split; [discriminate | lia].
  - intros _. now rewrite Z.mod_0_l by lia.
Qed.

(** C3. The guard [size < nb_elements || size < element_size] lets a product
    that overflows 32 bits through: for 3 elements of [2^31] bytes the
    wrapped size is [2^31], neither argument exceeds it, and the call
    succeeds with [size = 2^31] whenever [calloc] grants the region. *)
Theorem init_accepts_overflowing_product :
  4294967296 <= 3 * 2147483648 /\
  exists b,
    circular_buffer_init true all_granted 3 2147483648 = (SUCCESS, Some b) /\
    size b = 2147483648 /\ read_ptr b = 0 /\ write_ptr b = 0 /\
    full b = false.
Proof.
  split; [lia|].
  eexists. split.
  - apply init_passes; try reflexivity; try lia;
      change (u32 (3 * 2147483648)) with 2147483648; lia.
  - cbn [size read_ptr write_ptr full]. repeat split; reflexivity.
Qed.

(** *** Rejected writes *)

Lemma write_without_room_fails (b : circular_buffer) data n :
  full b = true \/
  elements_to_size b n > u32 (size b - get_unread_size b) ->
  circular_buffer_write (Some b) data n = (FAILURE, Some b).
Proof.
  intros H. unfold circular_buffer_write.
  destruct (full b) eqn:Hf; [reflexivity|].
  destruct H as [H|H]; [discriminate|].
  now replace (_ >? _) with true by lia.
Qed.

(** For a request whose byte count is representable, the test of the code is
    the one on the free space. *)
Lemma write_beyond_free_space_fails (b : circular_buffer) data n :
  consistent b -> get_unread_size b <= size b ->
  0 <= n * elem_size b < 4294967296 ->
  full b = true \/ n * elem_size b > size b - get_unread_size b ->
  circular_buffer_write (Some b) data n = (FAILURE, Some b).
Proof.
  intros [He Hsz Hb Hr Hw] Hu Hn [Hf|Hx].
  - apply write_without_room_fails. now left.
  - apply write_without_room_fails. right.
    assert (Hu0 : 0 <= get_unread_size b).
    { unfold get_unread_size. destruct (full b); [lia|].
      destruct (_ <? _); apply u32_range. }
    unfold elements_to_size. rewrite !u32_small by lia. lia.
Qed.

(** C8. The byte count of a request is computed modulo [2^32]: on a buffer of
    4 elements of 4 bytes, a write of [2^30 + 1] elements, far beyond the 16
    free bytes, is taken for a write of one element: it returns success,
    stores 4 bytes and advances the write cursor. *)
Theorem write_accepts_wrapped_byte_count :
  exists b b',
    circular_buffer_init true all_granted 4 4 = (SUCCESS, Some b) /\
    1073741825 * elem_size b > size b - get_unread_size b /\
    circular_buffer_write (Some b) [1; 2; 3; 4] 1073741825
      = (SUCCESS, Some b') /\
    write_ptr b = 0 /\ write_ptr b' = 4 /\
    buff b = repeat 0 16 /\
    buff b' = [1; 2; 3; 4] ++ repeat 0 12.
Proof.
  eexists _, _. split; [reflexivity|].
  split; [vm_compute; reflexivity|].
  split; [vm_compute; reflexivity|].
  repeat split.
Qed.

(** *** The invariant on the full flag *)

(** C2. The invariant holds after construction, and three calls break it. A
    write that ends exactly at the end of the region leaves the write cursor
    one past the end, so the cursors differ and [full] stays clear although
    every byte is occupied. A write of zero elements into an empty buffer
    finds the cursors equal and sets [full]. A read of zero elements from a
    full buffer clears [full] although no byte was taken out. *)
Theorem ring_invariant_not_maintained :
  let fresh := (snd (circular_buffer_init true all_granted 4 1), 0) in
  (exists b0, fresh = (Some b0, 0) /\ ring_invariant 0 b0) /\
  (exists b,
     run [Write [1; 2; 3; 4] 4] fresh = (Some b, 4) /\
     full b = false /\ write_ptr b = size b /\ get_unread_size b = size b /\
     ~ ring_invariant 4 b) /\
  (exists b,
     run [Write [] 0] fresh = (Some b, 0) /\
     full b = true /\ get_unread_size b = size b /\
     ~ ring_invariant 0 b) /\
  (exists b b',
     run [Write [1; 2] 2; Read 2; Write [3; 4; 5; 6] 4] fresh = (Some b, 4) /\
     ring_invariant 4 b /\
     run [Read 0] (Some b, 4) = (Some b', 4) /\
     full b' = false /\ get_unread_size b' = 0 /\
     ~ ring_invariant 4 b').
Proof.
  cbv zeta. repeat split.
  - eexists. split; [reflexivity|]. unfold ring_invariant. vm_compute.
    split; [split; intros H; discriminate H | reflexivity].
  - eexists. split; [vm_compute; reflexivity|]. repeat split.
    unfold ring_invariant. vm_compute. intros [[_ H] _].
    specialize (H eq_refl). discriminate H.
  - eexists. split; [vm_compute; reflexivity|]. repeat split.
    unfold ring_invariant. vm_compute. intros [[H _] _].
    specialize (H eq_refl). discriminate H.
  - eexists _, _. split; [vm_compute; reflexivity|].
    split.
    { unfold ring_invariant. vm_compute.
      split; [split; reflexivity | intros H; discriminate H]. }
    split; [vm_compute; reflexivity|]. repeat split.
    unfold ring_invariant. vm_compute. intros [[_ H] _].
    specialize (H eq_refl). discriminate H.
Qed.

(** *** First in, first out

    The bytes written and not yet read, in the order in which they were
    written, and what the calls do to them. *)

(** Proves that a descriptor given by its fields is coherent. *)
Ltac sample_coherent :=
  constructor; [constructor; simpl; lia | simpl; intros; first [discriminate | reflexivity]].

Lemma mod_wrap x s :
  0 < s -> 0 <= x < 2 * s -> x mod s = if x <? s then x else x - s.
Proof.
  intros Hs Hx. destruct (Z.ltb_spec x s).
  - apply Z.mod_small. lia.
  - symmetry. apply (Z.mod_unique x s 1). lia. lia.
Qed.

Lemma byte_at_memcpy_to region off src n p :
  0 <= off -> 0 <= n -> off + n <= Z.of_nat (length region) ->
  n <= Z.of_nat (length src) -> 0 <= p ->
  byte_at (memcpy_to region off src n) p =
    if (off <=? p) && (p <? off + n) then byte_at src (p - off)
    else byte_at region p.
Proof.
  intros Hoff Hn Hreg Hsrc Hp. unfold byte_at, memcpy_to.
  destruct (Z.leb_spec off p) as [Hle|Hlt]; cbn [andb].
  - rewrite app_nth2 by (rewrite length_take; lia).
    rewrite length_take.
    replace (Z.to_nat p - Z.to_nat off `min` length region)%nat
      with (Z.to_nat (p - off)) by lia.
    destruct (Z.ltb_spec p (off + n)) as [Hin|Hout].
    + rewrite app_nth1 by (rewrite length_take; lia).
      rewrite nth_firstn. match goal with |- context [(?a <? ?b)%nat] => destruct (Nat.ltb_spec a b); [reflexivity | lia] end.
    + rewrite app_nth2 by (rewrite length_take; lia).
      rewrite length_take, nth_skipn. f_equal. lia.
  - rewrite app_nth1 by (rewrite length_take; lia).
    rewrite nth_firstn. match goal with |- context [(?a <? ?b)%nat] => destruct (Nat.ltb_spec a b); [reflexivity | lia] end.
Qed.

Lemma length_unread b : Z.of_nat (length (unread b)) = Z.max 0 (get_unread_size b).
Proof. unfold unread. rewrite length_map, length_seq. lia. Qed.

Lemma nth_unread b i :
  (i < Z.to_nat (get_unread_size b))%nat ->
  nth i (unread b) 0
    = byte_at (buff b) ((read_ptr b + Z.of_nat i) mod size b).
Proof.
  intros Hi. unfold unread.
  rewrite (nth_indep _ 0 ((fun i => byte_at (buff b)
             ((read_ptr b + Z.of_nat i) mod size b)) 0%nat))
    by (rewrite length_map, length_seq; lia).
  rewrite (map_nth (fun i => byte_at (buff b)
             ((read_ptr b + Z.of_nat i) mod size b))).
  now rewrite seq_nth by lia.
Qed.

Lemma unread_size_cases (b : circular_buffer) :
  coherent b ->
  (full b = true /\ get_unread_size b = size b /\ write_ptr b = read_ptr b) \/
  (full b = false /\ write_ptr b < read_ptr b /\
   get_unread_size b = size b - read_ptr b + write_ptr b) \/
  (full b = false /\ read_ptr b <= write_ptr b /\
   get_unread_size b = write_ptr b - read_ptr b).
Proof.
  intros [[He Hsz Hb Hr Hw] Hf]. unfold get_unread_size, ptr_to_offset.
  destruct (full b); [left; auto|right].
  destruct (Z.ltb_spec (write_ptr b) (read_ptr b)); [left|right].
  - rewrite (u32_small (read_ptr b)), (u32_small (size b - read_ptr b)) by lia.
    rewrite u32_small by lia. auto.
  - rewrite u32_small by lia. auto.
Qed.

Lemma write_result (b : circular_buffer) data n :
  coherent b -> full b = false ->
  elements_to_size b n <= size b - get_unread_size b ->
  circular_buffer_write (Some b) data n
    = (SUCCESS, Some (written b data (elements_to_size b n))).
Proof.
  intros Hc Hf Hroom. pose proof (unread_size_cases b Hc) as Hu.
  destruct Hc as [[He Hsz Hb Hr Hw] _].
  unfold circular_buffer_write, written, ptr_to_offset. rewrite Hf.
  pose proof (u32_range (n * elem_size b)) as Hrange.
  fold (elements_to_size b n) in Hrange.
  set (t := elements_to_size b n) in *.
  rewrite (u32_small (size b - get_unread_size b)) by lia.
  replace (t >? size b - get_unread_size b) with false by lia.
  rewrite (u32_small (write_ptr b)), (u32_small (size b - write_ptr b)) by lia.
  destruct (Z.gtb_spec t (size b - write_ptr b)).
  - rewrite (u32_small (t - (size b - write_ptr b))) by lia.
    cb_simpl. rewrite Hf. now destruct (_ =? _).
  - cb_simpl. rewrite Hf. now destruct (_ =? _).
Qed.

Lemma written_coherent (b : circular_buffer) data t :
  coherent b -> full b = false -> 0 <= t ->
  t <= size b - get_unread_size b -> t <= Z.of_nat (length data) ->
  coherent (written b data t).
Proof.
  intros Hc Hf Ht Hroom Hdata. pose proof (unread_size_cases b Hc) as Hu.
  destruct Hc as [[He Hsz Hb Hr Hw] _]. unfold written.
  destruct (Z.gtb_spec t (size b - write_ptr b)).
  - assert (H1 : length (memcpy_to (buff b) (write_ptr b) data
                            (size b - write_ptr b)) = length (buff b)).
    { apply length_memcpy_to; lia. }
    constructor; [constructor|]; cbn [size elem_size buff read_ptr write_ptr full];
      try lia.
    rewrite length_memcpy_to; rewrite ?H1, ?length_drop; lia.
  - constructor; [constructor|]; cbn [size elem_size buff read_ptr write_ptr full];
      try lia.
    rewrite !length_memcpy_to; lia.
Qed.

Lemma written_unread_size (b : circular_buffer) data t :
  coherent b -> full b = false -> 0 < t ->
  t <= size b - get_unread_size b -> t <= Z.of_nat (length data) ->
  get_unread_size (written b data t) = get_unread_size b + t.
Proof.
  intros Hc Hf Ht Hroom Hdata.
  pose proof (written_coherent b data t Hc Hf ltac:(lia) Hroom Hdata) as Hc'.
  pose proof (unread_size_cases _ Hc') as Hu'.
  pose proof (unread_size_cases b Hc) as Hu.
  destruct Hc as [[He Hsz Hb Hr Hw] _]. revert Hu'. unfold written.
  destruct (Z.gtb_spec t (size b - write_ptr b));
    cbn [size elem_size buff read_ptr write_ptr full]; lia.
Qed.

Lemma byte_at_drop l k p : 0 <= p -> byte_at (drop k l) p = byte_at l (Z.of_nat k + p).
Proof.
  intros Hp. unfold byte_at. rewrite nth_skipn. f_equal. lia.
Qed.

(** The bytes of the region after a write: byte [j] of the data lies [j]
    bytes after the old write cursor, around the end; the rest is as it was. *)
Lemma written_bytes (b : circular_buffer) data t p :
  coherent b -> 0 <= t <= size b -> t <= Z.of_nat (length data) ->
  0 <= p < size b ->
  byte_at (buff (written b data t)) p =
    let j := if write_ptr b <=? p then p - write_ptr b
             else p + size b - write_ptr b in
    if j <? t then byte_at data j else byte_at (buff b) p.
Proof.
  intros [[He Hsz Hb Hr Hw] _] Ht Hdata Hp. unfold written. cbv zeta.
  destruct (Z.gtb_spec t (size b - write_ptr b)); cbn [buff].
  - assert (H1 : length (memcpy_to (buff b) (write_ptr b) data
                            (size b - write_ptr b)) = length (buff b)).
    { apply length_memcpy_to; lia. }
    rewrite byte_at_memcpy_to by (rewrite ?H1, ?length_drop; lia).
    rewrite byte_at_memcpy_to by lia.
    rewrite byte_at_drop by lia.
    destruct (Z.leb_spec 0 p), (Z.ltb_spec p (0 + (t - (size b - write_ptr b))));
      destruct (Z.leb_spec (write_ptr b) p),
               (Z.ltb_spec p (write_ptr b + (size b - write_ptr b)));
      cbn [andb]; try lia.
    + replace (p + size b - write_ptr b <? t) with true by lia.
      f_equal. lia.
    + replace (p - write_ptr b <? t) with true by lia. reflexivity.
    + replace (p + size b - write_ptr b <? t) with false by lia. reflexivity.
  - rewrite byte_at_memcpy_to by lia.
    destruct (Z.leb_spec (write_ptr b) p), (Z.ltb_spec p (write_ptr b + t));
      cbn [andb].
    + replace (p - write_ptr b <? t) with true by lia. reflexivity.
    + replace (p - write_ptr b <? t) with false by lia. reflexivity.
    + replace (p + size b - write_ptr b <? t) with false by lia. reflexivity.
    + replace (p + size b - write_ptr b <? t) with false by lia. reflexivity.
Qed.

(** X2. A write that succeeds appends: on a buffer that is not full, with
    room for the bytes of [nb_elements] elements, [circular_buffer_write]
    copies that many bytes of [data] behind the bytes written before and not
    yet read, whether or not the copy wraps around the end of the region;
    the unread bytes keep their order. The byte count is the one the code
    computes, [elements_to_size], and it is not zero. *)
Theorem write_appends (b : circular_buffer) (data : list Z) (n : Z) :
  coherent b -> full b = false ->
  0 < elements_to_size b n ->
  elements_to_size b n <= size b - get_unread_size b ->
  elements_to_size b n <= Z.of_nat (length data) ->
  exists b',
    circular_buffer_write (Some b) data n = (SUCCESS, Some b') /\
    unread b' = unread b ++ take (Z.to_nat (elements_to_size b n)) data /\
    coherent b'.
Proof.
  intros Hc Hf Ht Hroom Hdata. set (t := elements_to_size b n) in *.
  exists (written b data t).
  split; [now apply write_result|].
  split; [|apply written_coherent; auto; lia].
  pose proof (unread_size_cases b Hc) as Hu.
  pose proof (written_unread_size b data t Hc Hf Ht Hroom Hdata) as Hsize.
  pose proof Hc as [[He Hsz Hb Hr Hw] _].
  assert (Hrd : read_ptr (written b data t) = read_ptr b).
  { unfold written. now destruct (_ >? _). }
  assert (Hsz' : size (written b data t) = size b).
  { unfold written. now destruct (_ >? _). }
  apply (nth_ext _ _ 0 0).
  - rewrite length_app, length_take. apply Nat2Z.inj.
    rewrite Nat2Z.inj_add, !length_unread, Hsize. lia.
  - intros i Hi.
    assert (Hi' : (i < Z.to_nat (get_unread_size b + t))%nat).
    { apply Nat2Z.inj_lt in Hi. rewrite length_unread, Hsize in Hi. lia. }
    rewrite nth_unread by (rewrite Hsize; exact Hi').
    rewrite Hrd, Hsz'.
    rewrite mod_wrap by lia.
    set (p := if _ <? _ then _ else _).
    assert (Hp : 0 <= p < size b) by (unfold p; destruct (_ <? _) eqn:E; lia).
    rewrite (written_bytes b data t p Hc ltac:(lia) Hdata Hp). cbv zeta.
    destruct (Nat.lt_ge_cases i (Z.to_nat (get_unread_size b))) as [Hold|Hnew].
    + rewrite app_nth1 by (apply Nat2Z.inj_lt; rewrite length_unread; lia).
      rewrite nth_unread by exact Hold. rewrite mod_wrap by lia. fold p.
      destruct (Z.leb_spec (write_ptr b) p);
        match goal with |- context [?a <? t] =>
          replace (a <? t) with false
            by (unfold p in *; destruct (_ <? size b) eqn:E; lia) end;
        reflexivity.
    + rewrite app_nth2 by (apply Nat2Z.inj_ge; rewrite length_unread; lia).
      assert (Hlen : length (unread b) = Z.to_nat (get_unread_size b)).
      { apply Nat2Z.inj. rewrite length_unread. lia. }
      rewrite Hlen, nth_firstn.
      match goal with |- context [(?a <? ?c)%nat] =>
        destruct (Nat.ltb_spec a c); [|lia] end.
      unfold byte_at.
      destruct (Z.leb_spec (write_ptr b) p);
        match goal with |- context [?a <? t] =>
          replace (a <? t) with true
            by (unfold p in *; destruct (_ <? size b) eqn:E; lia) end;
        f_equal; unfold p in *; destruct (_ <? size b) eqn:E; lia.
Qed.

Lemma write_appends_witness :
  exists b',
    circular_buffer_write (Some (mk_cb 4 4 1 [0; 0; 0; 0] 3 3 false)) [7; 8; 9] 3
      = (SUCCESS, Some b') /\
    unread b' =
      unread (mk_cb 4 4 1 [0; 0; 0; 0] 3 3 false)
        ++ take (Z.to_nat (elements_to_size (mk_cb 4 4 1 [0; 0; 0; 0] 3 3 false) 3))
             [7; 8; 9] /\
    coherent b'.
Proof.
  apply (write_appends (mk_cb 4 4 1 [0; 0; 0; 0] 3 3 false) [7; 8; 9] 3).
  - sample_coherent.
  - reflexivity.
  - vm_compute. reflexivity.
  - vm_compute. discriminate.
  - vm_compute. discriminate.
Defined.

Lemma read_result (b : circular_buffer) n :
  coherent b -> elements_to_size b n <= get_unread_size b ->
  circular_buffer_read (Some b) n
    = (SUCCESS, delivered b (elements_to_size b n),
       Some (consumed b (elements_to_size b n))).
Proof.
  intros Hc Hroom. pose proof (unread_size_cases b Hc) as Hu.
  destruct Hc as [[He Hsz Hb Hr Hw] _].
  unfold circular_buffer_read, consumed, delivered, ptr_to_offset.
  pose proof (u32_range (n * elem_size b)) as Hrange.
  fold (elements_to_size b n) in Hrange.
  set (t := elements_to_size b n) in *.
  replace (t >? get_unread_size b) with false by lia.
  rewrite (u32_small (read_ptr b)), (u32_small (size b - read_ptr b)) by lia.
  destruct (Z.gtb_spec t (size b - read_ptr b)).
  - rewrite (u32_small (t - (size b - read_ptr b))) by lia.
    cb_simpl. now destruct (full b).
  - cb_simpl. now destruct (full b).
Qed.

Lemma consumed_coherent (b : circular_buffer) t :
  coherent b -> 0 <= t <= get_unread_size b -> coherent (consumed b t).
Proof.
  intros Hc Ht. pose proof (unread_size_cases b Hc) as Hu.
  destruct Hc as [[He Hsz Hb Hr Hw] _]. unfold consumed.
  constructor; [constructor|];
    cbn [size elem_size buff read_ptr write_ptr full]; try lia;
    try discriminate;
    destruct (Z.gtb_spec t (size b - read_ptr b)); lia.
Qed.

Lemma consumed_unread_size (b : circular_buffer) t :
  coherent b -> 0 < t <= get_unread_size b ->
  get_unread_size (consumed b t) = get_unread_size b - t.
Proof.
  intros Hc Ht.
  pose proof (consumed_coherent b t Hc ltac:(lia)) as Hc'.
  pose proof (unread_size_cases _ Hc') as Hu'.
  pose proof (unread_size_cases b Hc) as Hu.
  destruct Hc as [[He Hsz Hb Hr Hw] _]. revert Hu'. unfold consumed.
  cbn [size elem_size buff read_ptr write_ptr full].
  destruct (Z.gtb_spec t (size b - read_ptr b)); lia.
Qed.

Lemma nth_memcpy_from region off n j :
  0 <= off -> (j < Z.to_nat n)%nat ->
  nth j (memcpy_from region off n) 0 = byte_at region (off + Z.of_nat j).
Proof.
  intros Hoff Hj. unfold memcpy_from, byte_at.
  rewrite nth_firstn.
  match goal with |- context [(?a <? ?c)%nat] =>
    destruct (Nat.ltb_spec a c); [|lia] end.
  rewrite nth_skipn. f_equal. lia.
Qed.

Lemma length_memcpy_from region off n :
  0 <= off -> 0 <= n -> off + n <= Z.of_nat (length region) ->
  length (memcpy_from region off n) = Z.to_nat n.
Proof.
  intros Hoff Hn Hlen. unfold memcpy_from.
  rewrite length_take, length_drop. lia.
Qed.

(** X3. A read that succeeds hands out the oldest bytes: when the buffer
    holds at least the bytes of [nb_elements] elements,
    [circular_buffer_read] returns that many unread bytes, oldest first,
    whether or not they wrap around the end of the region, and the bytes
    behind them stay unread in their order. *)
Theorem read_delivers_oldest (b : circular_buffer) (n : Z) :
  coherent b ->
  0 < elements_to_size b n -> elements_to_size b n <= get_unread_size b ->
  exists b',
    circular_buffer_read (Some b) n
      = (SUCCESS, take (Z.to_nat (elements_to_size b n)) (unread b), Some b') /\
    unread b' = drop (Z.to_nat (elements_to_size b n)) (unread b) /\
    coherent b'.
Proof.
  intros Hc Ht Hroom. set (t := elements_to_size b n) in *.
  exists (consumed b t).
  pose proof (unread_size_cases b Hc) as Hu.
  pose proof (consumed_unread_size b t Hc ltac:(lia)) as Hsize.
  pose proof Hc as [[He Hsz Hb Hr Hw] _].
  assert (Hlen : length (unread b) = Z.to_nat (get_unread_size b)).
  { apply Nat2Z.inj. rewrite length_unread. lia. }
  split; [|split; [|apply consumed_coherent; auto; lia]].
  - rewrite (read_result b n Hc Hroom). fold t. f_equal. f_equal.
    unfold delivered. cbv zeta.
    destruct (Z.gtb_spec t (size b - read_ptr b)) as [Hsplit|Hfit].
    + apply (nth_ext _ _ 0 0).
      * rewrite length_app, !length_memcpy_from, length_take by lia. lia.
      * intros i Hi.
        rewrite length_app, !length_memcpy_from in Hi by lia.
        rewrite nth_firstn.
        match goal with |- context [(?a <? ?c)%nat] =>
          destruct (Nat.ltb_spec a c); [|lia] end.
        rewrite nth_unread by lia. rewrite mod_wrap by lia.
        destruct (Nat.lt_ge_cases i (Z.to_nat (size b - read_ptr b))).
        -- rewrite app_nth1 by (rewrite length_memcpy_from; lia).
           rewrite nth_memcpy_from by lia.
           now replace (_ <? size b) with true by lia.
        -- rewrite app_nth2 by (rewrite length_memcpy_from; lia).
           rewrite length_memcpy_from, nth_memcpy_from by lia.
           replace (_ <? size b) with false by lia. f_equal. lia.
    + apply (nth_ext _ _ 0 0).
      * rewrite length_memcpy_from, length_take by lia. lia.
      * intros i Hi. rewrite length_memcpy_from in Hi by lia.
        rewrite nth_firstn.
        match goal with |- context [(?a <? ?c)%nat] =>
          destruct (Nat.ltb_spec a c); [|lia] end.
        rewrite nth_unread, nth_memcpy_from by lia. rewrite mod_wrap by lia.
        now replace (_ <? size b) with true by lia.
  - apply (nth_ext _ _ 0 0).
    + rewrite length_drop, Hlen. apply Nat2Z.inj.
      rewrite length_unread, Hsize. lia.
    + intros i Hi.
      assert (Hi' : (i < Z.to_nat (get_unread_size b - t))%nat).
      { apply Nat2Z.inj_lt in Hi. rewrite length_unread, Hsize in Hi. lia. }
      rewrite nth_unread by (rewrite Hsize; exact Hi').
      rewrite nth_skipn, nth_unread by lia.
      unfold consumed. cbn [size buff read_ptr].
      f_equal.
      rewrite (mod_wrap (read_ptr b + _)) by lia.
      destruct (Z.gtb_spec t (size b - read_ptr b)).
      * rewrite mod_wrap by lia.
        destruct (Z.ltb_spec (t - (size b - read_ptr b) + Z.of_nat i) (size b)),
          (Z.ltb_spec (read_ptr b + Z.of_nat (Z.to_nat t + i)) (size b)); lia.
      * rewrite mod_wrap by lia.
        destruct (Z.ltb_spec (read_ptr b + t + Z.of_nat i) (size b)),
          (Z.ltb_spec (read_ptr b + Z.of_nat (Z.to_nat t + i)) (size b)); lia.
Qed.

Lemma read_delivers_oldest_witness :
  exists b',
    circular_buffer_read (Some (mk_cb 4 4 1 [8; 9; 0; 7] 3 2 false)) 2
      = (SUCCESS,
         take (Z.to_nat (elements_to_size (mk_cb 4 4 1 [8; 9; 0; 7] 3 2 false) 2))
           (unread (mk_cb 4 4 1 [8; 9; 0; 7] 3 2 false)),
         Some b') /\
    unread b' =
      drop (Z.to_nat (elements_to_size (mk_cb 4 4 1 [8; 9; 0; 7] 3 2 false) 2))
        (unread (mk_cb 4 4 1 [8; 9; 0; 7] 3 2 false)) /\
    coherent b'.
Proof.
  apply (read_delivers_oldest (mk_cb 4 4 1 [8; 9; 0; 7] 3 2 false) 2).
  - sample_coherent.
  - vm_compute. reflexivity.
  - vm_compute. discriminate.
Defined.

(** X1. With sizes whose product fits 32 bits and a [calloc] that grants
    both requests, [circular_buffer_init] succeeds with exactly this
    descriptor: size [nb_elements * element_size], a region of that many
    zero bytes, both cursors at offset 0 and the full flag clear. That
    descriptor is coherent, nothing is unread in it and its element count
    is 0. *)
Theorem init_gives_empty_buffer (mem : calloc_oracle) (nb es : Z) :
  0 < nb -> 0 < es -> nb * es < 4294967296 ->
  grants_desc mem = true -> grants_buff mem = true ->
  exists b,
    circular_buffer_init true mem nb es = (SUCCESS, Some b) /\
    b = mk_cb (nb * es) nb es (repeat 0 (Z.to_nat (nb * es))) 0 0 false /\
    coherent b /\ unread b = [] /\
    circular_buffer_size (Some b) = (SUCCESS, Some 0).
Proof.
  intros Hnb Hes Hprod Hd Hb.
  assert (Hu : u32 (nb * es) = nb * es) by (apply u32_small; nia).
  pose proof (init_passes mem nb es ltac:(lia) ltac:(lia)
                ltac:(rewrite Hu; nia) ltac:(rewrite Hu; nia) Hd Hb) as Hinit.
  rewrite Hu in Hinit.
  eexists. split; [exact Hinit|]. split; [reflexivity|].
  assert (Hun : get_unread_size
            (mk_cb (nb * es) nb es (repeat 0 (Z.to_nat (nb * es))) 0 0 false)
          = 0).
  { unfold get_unread_size. cbn [full write_ptr read_ptr]. reflexivity. }
  split; [|split].
  - constructor; [|discriminate].
    apply (init_consistent true mem nb es _ Hnb Hes Hprod Hinit).
  - unfold unread. now rewrite Hun.
  - unfold circular_buffer_size, size_to_elements. rewrite Hun.
    cbn [elem_size]. now rewrite Z.div_0_l by lia.
Qed.

Lemma init_gives_empty_buffer_witness :
  exists b,
    circular_buffer_init true all_granted 4 2 = (SUCCESS, Some b) /\
    b = mk_cb (4 * 2) 4 2 (repeat 0 (Z.to_nat (4 * 2))) 0 0 false /\
    coherent b /\ unread b = [] /\
    circular_buffer_size (Some b) = (SUCCESS, Some 0).
Proof.
  apply (init_gives_empty_buffer all_granted 4 2).
  - lia.
  - lia.
  - lia.
  - reflexivity.
  - reflexivity.
Defined.

(** X4. [circular_buffer_size] counts whole elements. On any coherent
    buffer whose unread bytes make [m] elements, empty and full buffers
    included, it reports [m]. From there, every write of [k > 0] elements
    that fit succeeds and leaves a buffer reporting [m + k], and every read
    of [j] elements, [0 < j <= m], succeeds and leaves a buffer reporting
    [m - j]. *)
Theorem size_follows_writes_and_reads (b : circular_buffer) (m : Z) :
  coherent b -> get_unread_size b = m * elem_size b ->
  circular_buffer_size (Some b) = (SUCCESS, Some m) /\
  (forall (data : list Z) (k : Z),
     0 < k -> (m + k) * elem_size b <= size b ->
     k * elem_size b <= Z.of_nat (length data) ->
     exists b1,
       circular_buffer_write (Some b) data k = (SUCCESS, Some b1) /\
       circular_buffer_size (Some b1) = (SUCCESS, Some (m + k))) /\
  (forall j : Z,
     0 < j <= m ->
     exists out b2,
       circular_buffer_read (Some b) j = (SUCCESS, out, Some b2) /\
       circular_buffer_size (Some b2) = (SUCCESS, Some (m - j))).
Proof.
  intros Hcoh Hun.
  pose proof Hcoh as [[He Hsz Hbuf Hr Hw] Hfull].
  pose proof (unread_size_bounds b ltac:(apply Hcoh)) as Hbound.
  split; [|split].
  - unfold circular_buffer_size, size_to_elements.
    now rewrite Hun, Z.div_mul by lia.
  - intros data k Hk Hroom Hdata.
    assert (Hnf : full b = false).
    { destruct (full b) eqn:Hf; [|reflexivity].
      unfold get_unread_size in Hun. rewrite Hf in Hun. nia. }
    assert (Htk : elements_to_size b k = k * elem_size b).
    { unfold elements_to_size. apply u32_small. nia. }
    exists (written b data (elements_to_size b k)).
    split; [apply write_result; [exact Hcoh | exact Hnf | rewrite Htk; nia]|].
    unfold circular_buffer_size, size_to_elements.
    rewrite written_unread_size by (auto; rewrite Htk; nia).
    rewrite Hun, Htk.
    replace (elem_size (written b data (k * elem_size b))) with (elem_size b)
      by (unfold written; now destruct (_ >? _)).
    rewrite <- Z.mul_add_distr_r. now rewrite Z.div_mul by lia.
  - intros j Hj.
    assert (Htj : elements_to_size b j = j * elem_size b).
    { unfold elements_to_size. apply u32_small. nia. }
    exists (delivered b (elements_to_size b j)),
           (consumed b (elements_to_size b j)).
    split; [apply read_result; [exact Hcoh | rewrite Htj; nia]|].
    unfold circular_buffer_size, size_to_elements.
    rewrite consumed_unread_size by (auto; rewrite Htj; nia).
    rewrite Hun, Htj. cbn [consumed elem_size].
    rewrite <- Z.mul_sub_distr_r. now rewrite Z.div_mul by lia.
Qed.

Lemma size_follows_writes_and_reads_witness :
  circular_buffer_size (Some (mk_cb 8 4 2 [1; 2; 3; 4; 0; 0; 0; 0] 0 4 false))
    = (SUCCESS, Some 2) /\
  (forall (data : list Z) (k : Z),
     0 < k ->
     (2 + k) * elem_size (mk_cb 8 4 2 [1; 2; 3; 4; 0; 0; 0; 0] 0 4 false)
       <= size (mk_cb 8 4 2 [1; 2; 3; 4; 0; 0; 0; 0] 0 4 false) ->
     k * elem_size (mk_cb 8 4 2 [1; 2; 3; 4; 0; 0; 0; 0] 0 4 false)
       <= Z.of_nat (length data) ->
     exists b1,
       circular_buffer_write
         (Some (mk_cb 8 4 2 [1; 2; 3; 4; 0; 0; 0; 0] 0 4 false)) data k
         = (SUCCESS, Some b1) /\
       circular_buffer_size (Some b1) = (SUCCESS, Some (2 + k))) /\
  (forall j : Z,
     0 < j <= 2 ->
     exists out b2,
       circular_buffer_read
         (Some (mk_cb 8 4 2 [1; 2; 3; 4; 0; 0; 0; 0] 0 4 false)) j
         = (SUCCESS, out, Some b2) /\
       circular_buffer_size (Some b2) = (SUCCESS, Some (2 - j))).
Proof.
  apply (size_follows_writes_and_reads
           (mk_cb 8 4 2 [1; 2; 3; 4; 0; 0; 0; 0] 0 4 false) 2).
  - sample_coherent.
  - reflexivity.
Defined.

End CircularBufferFacts.

(** ** Facts about the list *)

Module LinkedListFacts.
Import LinkedList.

(** *** Sequences of nodes *)

Lemma head_addr_app l1 l2 q :
  head_addr (l1 ++ l2) q = head_addr l1 (head_addr l2 q).
Proof. now destruct l1. Qed.

Lemma last_addr_app l1 l2 p :
  last_addr (l1 ++ l2) p = last_addr l2 (last_addr l1 p).
Proof. revert p. induction l1 as [|n l1 IH]; intros p; simpl; auto. Qed.

Lemma head_addr_bounds ns b q :
  ns <> [] -> (forall n : node, In n ns -> 0 < fst n < b) ->
  0 < head_addr ns q < b.
Proof.
  destruct ns as [|n ns]; [congruence|]. intros _ H. apply H. now left.
Qed.

Lemma last_addr_bounds ns b q :
  ns <> [] -> (forall n : node, In n ns -> 0 < fst n < b) ->
  0 < last_addr ns q < b.
Proof.
  destruct ns as [|n ns _] using rev_ind; [congruence|]. intros _ H.
  rewrite last_addr_app. simpl. apply H. apply in_or_app. right. now left.
Qed.

Lemma chain_app m p l1 l2 q :
  chain m p (l1 ++ l2) q <->
  chain m p l1 (head_addr l2 q) /\ chain m (last_addr l1 p) l2 q.
Proof.
  revert p. induction l1 as [|n l1 IH]; intros p; simpl.
  - tauto.
  - rewrite IH, head_addr_app. tauto.
Qed.

Lemma chain_ext m m' p ns q :
  (forall n, In n ns -> m' !! fst n = m !! fst n) ->
  chain m p ns q -> chain m' p ns q.
Proof.
  revert p. induction ns as [|n ns IH]; intros p Hm; simpl; [tauto|].
  intros [Hn Hc]. split.
  - rewrite Hm; [exact Hn | now left].
  - apply IH; [|exact Hc]. intros k Hk. apply Hm. now right.
Qed.

Lemma chain_lookup m ns : forall p j n,
  chain m p ns 0 -> ns !! j = Some n ->
  m !! fst n =
    Some (mk_elem (snd n)
            (match j with O => p | S j' => addr_at ns j' end)
            (addr_at ns (S j))).
Proof.
  induction ns as [|n0 ns IH]; intros p j n Hch Hj; [discriminate|].
  destruct Hch as [Hn0 Hch]. destruct j as [|j].
  - injection Hj as <-. rewrite Hn0. unfold addr_at. simpl.
    now destruct ns.
  - simpl in Hj. rewrite (IH (fst n0) j n Hch Hj).
    unfold addr_at. simpl. destruct j as [|j']; reflexivity.
Qed.

Lemma NoDup_snoc_fresh (ns : list node) (a : Z) :
  NoDup (map fst ns) -> (forall n, In n ns -> fst n <> a) ->
  forall x, NoDup (map fst (ns ++ [(a, x)])).
Proof.
  intros Hnd Hfr x. rewrite map_app. simpl.
  apply NoDup_app. split; [exact Hnd|]. split.
  - intros k Hk Hk'. apply list_elem_of_In, in_map_iff in Hk.
    destruct Hk as (n & <- & Hn). apply list_elem_of_In in Hk'.
    destruct Hk' as [Hk'|[]]. now apply (Hfr n Hn).
  - apply NoDup_singleton.
Qed.

Lemma nodup_split (l1 l2 : list node) (n : node) :
  NoDup (map fst (l1 ++ n :: l2)) ->
  (forall k, In k l1 -> fst k <> fst n) /\
  (forall k, In k l2 -> fst k <> fst n) /\
  (forall k k', In k l1 -> In k' l2 -> fst k <> fst k') /\
  NoDup (map fst l1) /\ NoDup (map fst l2).
Proof.
  rewrite map_app. simpl. intros H.
  apply NoDup_app in H. destruct H as (H1 & H12 & H2).
  apply NoDup_cons in H2. destruct H2 as [Hn H2].
  repeat split; auto.
  - intros k Hk Heq. apply (H12 (fst k)).
    + apply list_elem_of_In, in_map, Hk.
    + rewrite Heq. left.
  - intros k Hk Heq. apply Hn. rewrite <- Heq.
    apply list_elem_of_In, in_map, Hk.
  - intros k k' Hk Hk' Heq. apply (H12 (fst k)).
    + apply list_elem_of_In, in_map, Hk.
    + rewrite Heq. right. apply list_elem_of_In, in_map, Hk'.
Qed.

Lemma nodup_insert_fresh (l1 l2 : list node) (n : node) :
  NoDup (map fst (l1 ++ l2)) ->
  (forall k, In k (l1 ++ l2) -> fst k <> fst n) ->
  NoDup (map fst (l1 ++ n :: l2)).
Proof.
  rewrite !map_app. simpl. intros H Hfr.
  apply NoDup_app in H. destruct H as (H1 & H12 & H2).
  apply NoDup_app. split; [exact H1|]. split.
  - intros k Hk Hk'. apply elem_of_cons in Hk'. destruct Hk' as [->|Hk'].
    + apply list_elem_of_In, in_map_iff in Hk. destruct Hk as (k' & Heq & Hk).
      apply (Hfr k'); [apply in_or_app; now left | exact Heq].
    + now apply (H12 k).
  - apply NoDup_cons. split; [|exact H2].
    intros Hn. apply list_elem_of_In, in_map_iff in Hn.
    destruct Hn as (k' & Heq & Hk).
    apply (Hfr k'); [apply in_or_app; now right | exact Heq].
Qed.

Lemma passed_reached cmp x ns : passed cmp x ns ++ reached cmp x ns = ns.
Proof.
  induction ns as [|n ns IH]; simpl; [reflexivity|].
  destruct (0 >? cmp x (snd n)); simpl; [reflexivity | now rewrite IH].
Qed.

Lemma reached_head cmp x ns n rest :
  reached cmp x ns = n :: rest -> cmp x (snd n) < 0.
Proof.
  induction ns as [|k ns IH]; simpl; [discriminate|].
  destruct (Z.gtb_spec 0 (cmp x (snd k))); [|exact IH].
  intros [= -> _]. lia.
Qed.

(** Where a key goes: behind the keys it is not strictly below, in front of
    the first key it is strictly below. *)
Lemma insert_key_position cmp x ks :
  exists l1 l2,
    ks = l1 ++ l2 /\ insert_key cmp x ks = l1 ++ x :: l2 /\
    Forall (fun k => 0 <= cmp x k) l1 /\
    match l2 with
    | [] => True
    | k :: _ => cmp x k < 0
    end.
Proof.
  induction ks as [|k ks (l1 & l2 & Hks & Hins & Hall & Hhd)]; simpl.
  - exists [], []. repeat split. constructor.
  - destruct (Z.gtb_spec 0 (cmp x k)) as [Hlt|Hge].
    + exists [], (k :: ks). repeat split; [constructor | lia].
    + exists (k :: l1), l2. rewrite Hins, Hks. repeat split; [|exact Hhd].
      constructor; [lia | exact Hall].
Qed.

Lemma map_snd_sorted_insert cmp n ns :
  map snd (sorted_insert cmp n ns) = insert_key cmp (snd n) (map snd ns).
Proof.
  unfold sorted_insert.
  induction ns as [|k ns IH]; simpl; [reflexivity|].
  destruct (0 >? cmp (snd n) (snd k)); simpl; [reflexivity|].
  now rewrite IH.
Qed.

Lemma length_sorted_insert cmp n ns :
  length (sorted_insert cmp n ns) = S (length ns).
Proof.
  unfold sorted_insert. rewrite length_app. simpl.
  rewrite <- (passed_reached cmp (snd n) ns) at 3. rewrite length_app. lia.
Qed.

(** *** Reasoning about calls

    A call is followed statement by statement: [ok_bind] enters a sequence,
    the other rules run one primitive each, and [wp_step] picks the rule
    from the shape of the goal. *)

Arguments u32 : simpl never.

Ltac lk :=
  repeat first
    [ rewrite lookup_insert_eq
    | rewrite lookup_insert_ne by (try lia; congruence)
    | rewrite lookup_delete_eq
    | rewrite lookup_delete_ne by (try lia; congruence) ].

Lemma ok_elim {A : Type} (r : result A) (Q : A -> heap -> Prop) :
  ok r Q -> exists a h, r = Ok a h /\ Q a h.
Proof. destruct r; simpl; [eauto | tauto | tauto]. Qed.

Lemma ok_intro {A : Type} (r : result A) (Q : A -> heap -> Prop) a h :
  r = Ok a h -> Q a h -> ok r Q.
Proof. now intros ->. Qed.

Lemma ok_mono {A : Type} (r : result A) (P Q : A -> heap -> Prop) :
  ok r P -> (forall a h, P a h -> Q a h) -> ok r Q.
Proof. destruct r; simpl; auto. Qed.

Lemma ok_bind {A B : Type} (m : M A) (k : A -> M B) h Q :
  ok (m h) (fun a h' => ok (k a h') Q) -> ok (bind m k h) Q.
Proof. unfold bind. now destruct (m h). Qed.

Lemma ok_ret {A : Type} (a : A) h (Q : A -> heap -> Prop) :
  Q a h -> ok (ret a h) Q.
Proof. auto. Qed.

Lemma ok_if_true {A : Type} (c : bool) (m1 m2 : M A) h Q :
  c = true -> ok (m1 h) Q -> ok ((if c then m1 else m2) h) Q.
Proof. now intros ->. Qed.

Lemma ok_if_false {A : Type} (c : bool) (m1 m2 : M A) h Q :
  c = false -> ok (m2 h) Q -> ok ((if c then m1 else m2) h) Q.
Proof. now intros ->. Qed.

Lemma ok_get_desc l d h (Q : list_desc -> heap -> Prop) :
  l <> 0 -> descs h !! l = Some d -> Q d h -> ok (get_desc l h) Q.
Proof.
  intros Hl Hd HQ. unfold get_desc.
  replace (l =? 0) with false by lia. now rewrite Hd.
Qed.

Lemma ok_get_elem a e h (Q : list_elem -> heap -> Prop) :
  a <> 0 -> elems h !! a = Some e -> Q e h -> ok (get_elem a h) Q.
Proof.
  intros Ha He HQ. unfold get_elem.
  replace (a =? 0) with false by lia. now rewrite He.
Qed.

Lemma ok_get_it_heap a i h (Q : list_iterator -> heap -> Prop) :
  a <> 0 -> iters h !! a = Some i -> Q i h -> ok (get_it (Iter_heap a) h) Q.
Proof.
  intros Ha Hi HQ. unfold get_it.
  replace (a =? 0) with false by lia. now rewrite Hi.
Qed.

Lemma ok_calloc n h (Q : Z -> heap -> Prop) :
  avail h = S n ->
  Q (brk h) (mk_heap (elems h) (descs h) (iters h) (brk h + 1) n) ->
  ok (calloc h) Q.
Proof. intros Hn HQ. unfold calloc. now rewrite Hn. Qed.

Ltac heap_simpl :=
  cbn [elems descs iters brk avail first last nb_elements comparator
       nb_iterators l_it adapter data prev next list_ref elem
       push pop top_next back swap ad_list is_null].

Ltac heap_simpl_in :=
  cbn [elems descs iters brk avail first last nb_elements comparator
       nb_iterators l_it adapter data prev next list_ref elem
       push pop top_next back swap ad_list is_null] in *.

Ltac test_bool :=
  repeat match goal with
  | |- context [?a =? ?b] =>
      first [ replace (a =? b) with true by lia
            | replace (a =? b) with false by lia ]
  | |- context [?a >? ?b] =>
      first [ replace (a >? b) with true by lia
            | replace (a >? b) with false by lia ]
  end; reflexivity.

Ltac pure_tests :=
  repeat match goal with
  | |- context [?a =? ?b] =>
      first [ replace (a =? b) with true by lia
            | replace (a =? b) with false by lia ]
  end;
  cbn [orb andb negb].

Ltac desc_simpl :=
  unfold set_first, set_last, set_nb_elements, set_nb_iterators, set_l_it;
  heap_simpl.

Ltac wp_step :=
  heap_simpl;
  lazymatch goal with
  | |- ok (bind _ _ _) _ => apply ok_bind
  | |- ok (ret _ _) _ => apply ok_ret
  | |- ok ((if _ then _ else _) _) _ =>
      first [ apply ok_if_true; [test_bool|]
            | apply ok_if_false; [test_bool|] ]
  | |- ok (get_desc _ _) _ =>
      eapply ok_get_desc;
        [ lia | heap_simpl; lk; first [eassumption | reflexivity] | ]
  | |- ok (get_elem _ _) _ =>
      eapply ok_get_elem;
        [ lia | heap_simpl; lk; first [eassumption | reflexivity] | ]
  | |- ok (calloc _) _ => eapply ok_calloc; [heap_simpl; reflexivity|]
  | |- ok (write_elem _ _ _) _ =>
      unfold write_elem at 1; cbn [ok]; pure_tests
  | |- ok (write_desc _ _ _) _ =>
      unfold write_desc at 1; cbn [ok]; pure_tests; desc_simpl
  | |- ok (create_element _ _ _ _) _ => unfold create_element at 1
  | |- ok (update_links _ _ _ _) _ => unfold update_links at 1
  | |- ok (update_desc _ _ _ _) _ => unfold update_desc at 1
  | |- ok (incr_nb_elements _ _) _ => unfold incr_nb_elements at 1
  | |- ok (decr_nb_elements _ _) _ => unfold decr_nb_elements at 1
  | |- ok (set_next _ _ _) _ => unfold set_next at 1
  | |- ok (set_prev _ _ _) _ => unfold set_prev at 1
  | |- ok (set_data _ _ _) _ => unfold set_data at 1
  | |- ok (free_elem _ _) _ => unfold free_elem at 1
  | |- ok (set_l_it_elem _ _ _) _ => unfold set_l_it_elem at 1
  | |- ok (set_it_elem _ _ _) _ => unfold set_it_elem at 1
  | |- ok (get_it (Iter_heap _) _) _ =>
      eapply ok_get_it_heap;
        [ lia | heap_simpl; lk; first [eassumption | reflexivity] | ]
  | |- ok (get_it _ _) _ => unfold get_it at 1
  | |- ok (put_it _ _ _) _ => unfold put_it at 1
  | |- ok (write_it _ _ _) _ => unfold write_it at 1; cbn [ok]; pure_tests
  | |- ok (Ok _ _) _ => cbn [ok]
  | |- ok (?f _) _ => progress (cbv beta)
  end.

(** *** Creation and insertion at the ends *)

Lemma list_init_spec h comparator ty n :
  avail h = S n -> 0 < brk h ->
  ok (list_init true comparator ty h) (fun r h' =>
    r = (SUCCESS, brk h) /\
    represents h' (brk h) (installed comparator) (adapter_of ty (brk h)) [] /\
    avail h' = n).
Proof.
  intros Hav Hbrk. destruct h as [m ds its b av]. heap_simpl_in. subst av.
  unfold list_init. cbn [negb]. repeat wp_step.
  split; [reflexivity|]. split; [|reflexivity].
  constructor; heap_simpl;
    [ lia | | exact I | apply NoDup_nil_2 | intros k [] | simpl; lia | lia ].
  eexists. split; [lk; reflexivity|]. repeat split.
Qed.

Lemma list_add_last_spec h l cmp ad ns x n :
  represents h l cmp ad ns -> avail h = S n ->
  Z.of_nat (length ns) + 1 < 4294967296 ->
  ok (list_add_last l x h) (fun rc h' =>
    rc = SUCCESS /\
    represents h' l cmp ad (ns ++ [(brk h, x)]) /\
    brk h' = brk h + 1 /\ avail h' = n).
Proof.
  intros [Hl (d & Hd & Hf & Hla & Hnb & Hc & Ha & Hit & Hal) Hch Hnd Had Hct Hbrk] Hav Hlen.
  destruct h as [m ds its b av]. cbn [elems descs iters brk avail] in *. subst av.
  destruct d as [fd ld nbd cd nid [itl ite] add]. heap_simpl_in.
  unfold list_add_last.
  destruct ns as [|[a da] ns0 _] using rev_ind.
  - simpl in *. subst. repeat wp_step.
    split; [reflexivity|]. split; [|split; reflexivity].
    constructor; heap_simpl; try lia.
    + eexists. split; [lk; reflexivity|]. pure_tests. desc_simpl.
      repeat split; auto.
    + simpl. lk. auto.
    + apply NoDup_singleton.
    + intros k [<-|[]]. simpl. lia.
    + simpl. lia.
  - rewrite last_addr_app in Hla. simpl in Hla.
    rewrite head_addr_app in Hf.
    apply chain_app in Hch. destruct Hch as [Hc0 [Ha' _]]. simpl in Ha', Hc0.
    assert (Hab : 0 < a < b).
    { apply (Had (a, da)). apply in_or_app. right. now left. }
    assert (Hfb : 0 < fd < b).
    { rewrite Hf, <- head_addr_app. apply head_addr_bounds; [|exact Had].
      destruct ns0; discriminate. }
    rewrite length_app in *. cbn [length] in *. subst ld.
    repeat wp_step.
    split; [reflexivity|]. split; [|split; reflexivity].
    assert (Hfresh : forall k, In k ns0 -> 0 < fst k < b /\ fst k <> a).
    { intros k Hk. split; [apply Had, in_or_app; now left|].
      rewrite map_app in Hnd. apply NoDup_app in Hnd.
      destruct Hnd as (_ & Hnd & _). intros Heq.
      apply (Hnd (fst k)); [apply list_elem_of_In, in_map; exact Hk|].
      rewrite Heq. simpl. left. }
    constructor; heap_simpl; try lia.
    + eexists. split; [lk; reflexivity|].
      rewrite !length_app, !last_addr_app, !head_addr_app. simpl.
      rewrite u32_small by lia.
      repeat split; auto; lia.
    + rewrite <- app_assoc. apply chain_app. split; [|split; [|split]]; simpl; auto.
      * apply (chain_ext m); [|exact Hc0]. intros k Hk.
        destruct (Hfresh k Hk). lk. reflexivity.
      * lk. reflexivity.
      * lk. reflexivity.
    + apply NoDup_snoc_fresh; [exact Hnd|].
      intros k Hk. specialize (Had k Hk). lia.
    + intros k Hk. apply in_app_or in Hk. destruct Hk as [Hk|[<-|[]]].
      * specialize (Had k Hk). lia.
      * simpl. lia.
    + rewrite !length_app. cbn [length]. lia.
Qed.

Lemma list_add_first_spec h l cmp ad ns x n :
  represents h l cmp ad ns -> avail h = S n ->
  Z.of_nat (length ns) + 1 < 4294967296 ->
  ok (list_add_first l x h) (fun rc h' =>
    rc = SUCCESS /\
    represents h' l cmp ad ((brk h, x) :: ns) /\
    brk h' = brk h + 1 /\ avail h' = n).
Proof.
  intros [Hl (d & Hd & Hf & Hla & Hnb & Hc & Ha & Hit & Hal) Hch Hnd Had Hct Hbrk] Hav Hlen.
  destruct h as [m ds its b av]. cbn [elems descs iters brk avail] in *. subst av.
  destruct d as [fd ld nbd cd nid [itl ite] add]. heap_simpl_in.
  unfold list_add_first.
  destruct ns as [|[a da] ns0].
  - simpl in *. subst. repeat wp_step.
    split; [reflexivity|]. split; [|split; reflexivity].
    constructor; heap_simpl; try lia.
    + eexists. split; [lk; reflexivity|]. repeat split; auto.
    + simpl. lk. auto.
    + apply NoDup_singleton.
    + intros k [<-|[]]. simpl. lia.
    + simpl. lia.
  - simpl in Hf. destruct Hch as [Ha' Hc0]. cbn [fst snd] in *.
    assert (Hab : 0 < a < b) by (apply (Had (a, da)); now left).
    assert (Hlb : 0 < ld < b).
    { rewrite Hla. apply (last_addr_bounds ((a, da) :: ns0)); [discriminate|exact Had]. }
    cbn [length] in *. subst fd.
    repeat wp_step.
    split; [reflexivity|]. split; [|split; reflexivity].
    constructor; heap_simpl; try lia.
    + eexists. split; [lk; reflexivity|]. cbn [length head_addr last_addr fst] in *.
      rewrite u32_small by lia. heap_simpl.
      repeat split; auto; lia.
    + simpl. split; [lk; reflexivity|]. split; [lk; reflexivity|].
      apply (chain_ext m); [|exact Hc0]. intros k Hk.
      apply (nodup_split [] ns0 (a, da)) in Hnd. destruct Hnd as (_ & Hne & _).
      specialize (Hne k Hk). specialize (Had k (or_intror Hk)). simpl in Hne.
      lk. reflexivity.
    + apply (nodup_insert_fresh [] ((a, da) :: ns0) (b, x)); [exact Hnd|].
      intros k Hk. specialize (Had k Hk). simpl. lia.
    + intros k [<-|Hk]; [simpl; lia|]. specialize (Had k Hk). lia.
    + cbn [length] in *. lia.
Qed.

(** *** Sorted insertion *)

Lemma add_find_loop_ok fuel cmp x ns p h :
  chain (elems h) p ns 0 -> (forall k, In k ns -> 0 < fst k) ->
  (length ns < fuel)%nat ->
  add_find_loop fuel cmp x (head_addr ns 0) h
    = Ok (head_addr (reached cmp x ns) 0) h.
Proof.
  revert p fuel. induction ns as [|n ns IH]; intros p fuel Hch Hpos Hfuel;
    (destruct fuel as [|fuel]; [simpl in Hfuel; lia|]).
  - reflexivity.
  - destruct Hch as [Hn Hch]. simpl.
    assert (0 < fst n) by (apply Hpos; now left).
    replace (fst n =? 0) with false by lia.
    unfold bind, get_elem. replace (fst n =? 0) with false by lia.
    rewrite Hn. cbn [data next].
    destruct (0 >? cmp x (snd n)); [reflexivity|].
    apply (IH (fst n)); [exact Hch | | simpl in Hfuel; lia].
    intros k Hk. apply Hpos. now right.
Qed.

Lemma represents_set_l_it m ds its b av l cmp ad ns d v :
  represents (mk_heap m ds its b av) l cmp ad ns ->
  ds !! l = Some d ->
  represents
    (mk_heap m (<[l := set_l_it d (mk_it (list_ref (l_it d)) v)]> ds) its b av)
    l cmp ad ns.
Proof.
  intros [Hl (d' & Hd & Hrest) Hch Hnd Had Hct Hbrk] Hd'.
  heap_simpl_in. rewrite Hd' in Hd. injection Hd as <-.
  constructor; heap_simpl; auto.
  eexists. split; [lk; reflexivity|]. desc_simpl. exact Hrest.
Qed.

Lemma list_add_find_spec h l cmp ad ns x n fuel :
  represents h l cmp ad ns -> avail h = S n ->
  Z.of_nat (length ns) + 1 < 4294967296 ->
  (length ns < fuel)%nat ->
  ok (list_add_find fuel l x h) (fun rc h' =>
    rc = SUCCESS /\
    represents h' l cmp ad (sorted_insert cmp (brk h, x) ns) /\
    brk h' = brk h + 1 /\ avail h' = n).
Proof.
  intros Hrep Hav Hlen Hfuel.
  pose proof Hrep as [Hl (d & Hd & Hf & Hla & Hnb & Hc & Ha & Hit & Hal) Hch Hnd Had Hct Hbrk].
  destruct h as [m ds its b av]. cbn [elems descs iters brk avail] in *. subst av.
  destruct d as [fd ld nbd cd nid [itl ite] add]. heap_simpl_in. subst cd add itl.
  unfold list_add_find, sorted_insert. cbn [snd].
  repeat wp_step.
  eapply ok_intro.
  { rewrite Hf. apply (add_find_loop_ok fuel cmp x ns 0); [exact Hch| |exact Hfuel].
    intros k Hk. apply Had. exact Hk. }
  pose proof (passed_reached cmp x ns) as Hsplit.
  destruct (reached cmp x ns) as [|[e de] l2] eqn:Hre.
  - (* no element is above the new one: append *)
    rewrite app_nil_r in Hsplit. rewrite Hsplit. cbn [head_addr].
    repeat wp_step. unfold iterator_insert. repeat wp_step.
    apply list_add_last_spec; [|reflexivity|exact Hlen].
    apply (represents_set_l_it _ _ _ _ _ _ _ _ _ _ ld Hrep Hd).
  - cbn [head_addr fst].
    assert (Hin : In (e, de) ns).
    { rewrite <- Hsplit. apply in_or_app. right. now left. }
    assert (Heb : 0 < e < b) by (apply (Had _ Hin)).
    repeat wp_step. unfold iterator_insert. repeat wp_step.
    destruct (passed cmp x ns) as [|p0 l1] eqn:Hpa.
    + (* the first element is above the new one: prepend *)
      simpl in Hsplit. subst ns. cbn [head_addr fst] in Hf. subst fd.
      repeat wp_step.
      apply list_add_first_spec; [|reflexivity|exact Hlen].
      apply (represents_set_l_it _ _ _ _ _ _ _ _ _ _ e Hrep Hd).
    + (* insertion between two elements *)
      destruct (exists_last (l := p0 :: l1)) as (l1' & [p dp] & Hl1); [discriminate|].
      rewrite Hl1 in *. clear Hpa p0 l1 Hl1.
      rewrite <- app_assoc in Hsplit. simpl in Hsplit. subst ns.
      pose proof Hnd as Hnd0.
      apply nodup_split in Hnd. destruct Hnd as (Hp1 & Hp2 & Hp12 & Hnd1 & Hnd2).
      apply (nodup_split [] l2 (e, de)) in Hnd2.
      destruct Hnd2 as (_ & He2 & _ & _ & Hnd2).
      cbn [fst] in *.
      assert (Hep : e <> p) by (apply (Hp2 (e, de)); now left).
      assert (Hpb : 0 < p < b).
      { apply (Had (p, dp)), in_or_app. right. now left. }
      assert (Hfe : fd <> e).
      { rewrite Hf. destruct l1' as [|k l1'']; cbn [head_addr app fst]; [lia|].
        apply (Hp12 k (e, de)); now left. }
      apply chain_app in Hch. destruct Hch as [Hc1 Hch].
      cbn [chain head_addr fst snd] in Hch, Hc1.
      destruct Hch as (Hmp & Hme & Hc2).
      repeat wp_step.
      split; [reflexivity|]. split; [|split; reflexivity].
      constructor; heap_simpl; [ lia | | | | | | lia].
      * eexists. split; [lk; reflexivity|].
        rewrite !length_app, !last_addr_app, !head_addr_app in *.
        cbn [length last_addr head_addr fst] in *.
        rewrite u32_small by lia. heap_simpl.
        repeat split; auto; lia.
      * rewrite <- app_assoc. apply chain_app. split.
        { apply (chain_ext m); [|exact Hc1]. intros k Hk.
          assert (0 < fst k < b) by (apply Had, in_or_app; now left).
          assert (fst k <> p) by (now apply Hp1).
          assert (fst k <> e) by (apply (Hp12 k (e, de)); [exact Hk | now left]).
          lk. reflexivity. }
        cbn [app chain head_addr fst snd].
        split; [lk; reflexivity|]. split; [lk; reflexivity|].
        split; [lk; reflexivity|].
        apply (chain_ext m); [|exact Hc2]. intros k Hk.
        assert (0 < fst k < b).
        { apply Had, in_or_app. right. right. right; exact Hk. }
        assert (fst k <> p) by (apply Hp2; now right).
        assert (fst k <> e) by (now apply He2).
        lk. reflexivity.
      * apply (nodup_insert_fresh (l1' ++ [(p, dp)]) ((e, de) :: l2) (b, x)).
        { rewrite <- app_assoc. exact Hnd0. }
        intros k Hk. rewrite <- app_assoc in Hk. specialize (Had k Hk).
        cbn [fst]. lia.
      * intros k Hk. rewrite <- app_assoc in Hk. cbn [app] in Hk.
        apply in_app_or in Hk. destruct Hk as [Hk|[<-|[<-|Hk]]].
        { assert (0 < fst k < b) by (apply Had, in_or_app; now left). lia. }
        { cbn [fst]. lia. }
        { cbn [fst]. lia. }
        { assert (0 < fst k < b).
          { apply Had, in_or_app. right. right. exact Hk. } lia. }
      * rewrite !length_app in *. cbn [length] in *. lia.
Qed.

(** *** Removal at the front *)

Lemma list_get_first_spec h l cmp ad a da ns :
  represents h l cmp ad ((a, da) :: ns) ->
  ok (list_get_first l h) (fun r h' =>
    r = (da, SUCCESS) /\ represents h' l cmp ad ns /\
    brk h' = brk h /\ avail h' = avail h /\
    elems h' !! a = None /\
    forall k, elems h !! k = None -> elems h' !! k = None).
Proof.
  intros [Hl (d & Hd & Hf & Hla & Hnb & Hc & Ha & Hit & Hal) Hch Hnd Had Hct Hbrk].
  destruct h as [m ds its b av]. cbn [elems descs iters brk avail] in *.
  destruct d as [fd ld nbd cd nid [itl ite] add]. heap_simpl_in.
  unfold list_get_first.
  destruct Hch as [Ha' Hc0]. cbn [fst snd head_addr length] in *.
  assert (Hab : 0 < a < b) by (apply (Had (a, da)); now left).
  apply (nodup_split [] ns (a, da)) in Hnd.
  destruct Hnd as (_ & Hne & _ & _ & Hnd).
  subst fd.
  destruct ns as [|[a1 d1] ns1].
  - simpl in *. subst. repeat wp_step.
    split; [reflexivity|].
    split; [|split; [reflexivity|split; [reflexivity|split; [heap_simpl; lk; reflexivity|]]]];
      [|heap_simpl; intros k Hk; destruct (decide (k = a)) as [->|];
        [lk; reflexivity|]; lk; try exact Hk].
    constructor; heap_simpl;
      [ lia | | exact I | apply NoDup_nil_2 | intros k [] | simpl; lia | lia ].
    eexists. split; [lk; reflexivity|]. repeat split; auto.
  - destruct Hc0 as [Ha1 Hc1]. cbn [fst snd head_addr length] in *.
    assert (Hab1 : 0 < a1 < b) by (apply (Had (a1, d1)); right; now left).
    assert (Hne1 : a1 <> a) by (apply (Hne (a1, d1)); now left).
    assert (Hlb : 0 < ld < b).
    { rewrite Hla. apply (last_addr_bounds ((a1, d1) :: ns1) b a); [discriminate|].
      intros k Hk. apply Had. now right. }
    repeat wp_step.
    split; [reflexivity|].
    split; [|split; [reflexivity|split; [reflexivity|split; [heap_simpl; lk; reflexivity|]]]];
      [|heap_simpl; intros k Hk; destruct (decide (k = a)) as [->|];
        [lk; reflexivity|]; lk; try exact Hk].
    constructor; heap_simpl; try lia.
    + eexists. split; [lk; reflexivity|]. cbn [length head_addr last_addr fst] in *.
      rewrite u32_small by lia. heap_simpl.
      repeat split; auto; lia.
    + simpl. split; [lk; reflexivity|].
      apply (chain_ext m); [|exact Hc1]. intros k Hk.
      apply (nodup_split [] ns1 (a1, d1)) in Hnd. destruct Hnd as (_ & Hne' & _).
      specialize (Hne' k Hk). specialize (Hne k (or_intror Hk)). simpl in Hne, Hne'.
      lk. reflexivity.
    + exact Hnd.
    + intros k Hk. apply Had. now right.
    + cbn [length] in *. lia.
Qed.

Lemma list_get_first_empty h l cmp ad :
  represents h l cmp ad [] ->
  list_get_first l h = Ok (0, FAILURE) h.
Proof.
  intros [Hl (d & Hd & Hf & Hla & Hnb & _) _ _ _ _ _].
  unfold list_get_first, bind, get_desc.
  replace (l =? 0) with false by lia.
  rewrite Hd, Hnb. reflexivity.
Qed.

(** *** The order of a priority list *)

Section InsertionOrder.
Variable cmp : f_cmp.
Hypothesis Hcmp : total_preorder cmp.

Lemma cmp_ge_flip x y : 0 <= cmp x y -> cmp y x <= 0.
Proof.
  intros H. destruct (Z_lt_le_dec 0 (cmp y x)) as [Hlt|]; [|assumption].
  apply (cmp_antisym _ Hcmp) in Hlt. lia.
Qed.

Lemma cmp_lt_le_trans x y z : cmp x y < 0 -> cmp y z <= 0 -> cmp x z < 0.
Proof.
  intros Hxy Hyz.
  assert (Hxz : cmp x z <= 0) by (apply (cmp_trans _ Hcmp x y z); lia).
  destruct (Z.eq_dec (cmp x z) 0) as [Heq|]; [|lia].
  assert (Hzx : cmp z x <= 0) by (apply cmp_ge_flip; lia).
  assert (Hyx : cmp y x <= 0) by (apply (cmp_trans _ Hcmp y z x); assumption).
  apply (cmp_antisym _ Hcmp) in Hxy. lia.
Qed.

Lemma insert_key_perm x ks : Permutation (x :: ks) (insert_key cmp x ks).
Proof.
  induction ks as [|k ks IH]; simpl; [reflexivity|].
  destruct (0 >? cmp x k); [reflexivity|].
  rewrite perm_swap. now apply perm_skip.
Qed.

Lemma insert_key_sorted x ks :
  StronglySorted (cmp_le cmp) ks ->
  StronglySorted (cmp_le cmp) (insert_key cmp x ks).
Proof.
  induction 1 as [|k ks Hs IH Hall]; simpl.
  - repeat constructor.
  - destruct (Z.gtb_spec 0 (cmp x k)) as [Hlt|Hge].
    + constructor; [now constructor|].
      constructor; [unfold cmp_le; lia|].
      eapply Forall_impl; [exact Hall|].
      intros r Hr. unfold cmp_le in *.
      apply (cmp_trans _ Hcmp x k r); lia.
    + constructor; [exact IH|].
      eapply Permutation_Forall; [apply insert_key_perm|].
      constructor; [|exact Hall].
      unfold cmp_le. apply cmp_ge_flip. lia.
Qed.

Lemma priority_order_sorted keys start :
  StronglySorted (cmp_le cmp) start ->
  StronglySorted (cmp_le cmp) (priority_order cmp keys start).
Proof.
  revert start. induction keys as [|k keys IH]; intros start Hs; simpl.
  - exact Hs.
  - apply IH, insert_key_sorted, Hs.
Qed.

Lemma priority_order_perm keys start :
  Permutation (start ++ keys) (priority_order cmp keys start).
Proof.
  revert start. induction keys as [|k keys IH]; intros start; simpl.
  - now rewrite app_nil_r.
  - rewrite <- IH, <- insert_key_perm. simpl. symmetry.
    apply Permutation_middle.
Qed.

(** Equal keys keep their order of arrival: the new key goes behind every
    key of its class already in the list. *)
Lemma insert_key_stable c x ks :
  StronglySorted (cmp_le cmp) ks ->
  List.filter (cmp_eqb cmp c) (insert_key cmp x ks) =
  List.filter (cmp_eqb cmp c) (ks ++ [x]).
Proof.
  induction 1 as [|k ks Hs IH Hall]; [reflexivity|].
  cbn [insert_key].
  destruct (Z.gtb_spec 0 (cmp x k)) as [Hlt|Hge].
  - (* [x] is strictly below [k] and everything behind it *)
    rewrite List.filter_app.
    destruct (cmp_eqb cmp c x) eqn:Hcx.
    + assert (Hnone : forall r, In r (k :: ks) -> cmp_eqb cmp c r = false).
      { intros r Hr. unfold cmp_eqb in *.
        assert (Hxr : cmp x r < 0).
        { destruct Hr as [<-|Hr]; [lia|].
          apply (cmp_lt_le_trans x k r); [lia|].
          rewrite Forall_forall in Hall. apply Hall, list_elem_of_In, Hr. }
        destruct (Z.eqb_spec (cmp r c) 0) as [Hrc|]; [|reflexivity].
        assert (Hcx' : cmp c x <= 0) by (apply cmp_ge_flip; lia).
        assert (cmp r x <= 0) by (apply (cmp_trans _ Hcmp r c x); lia).
        apply (cmp_antisym _ Hcmp) in Hxr. lia. }
      assert (Hfil : List.filter (cmp_eqb cmp c) (k :: ks) = []).
      { clear -Hnone. induction (k :: ks) as [|r rs IHr]; [reflexivity|].
        simpl. rewrite (Hnone r) by (now left).
        apply IHr. intros r' Hr'. apply Hnone. now right. }
      cbn [List.filter]. rewrite Hcx. cbn [List.filter] in Hfil.
      now rewrite Hfil.
    + cbn [List.filter]. rewrite Hcx. now rewrite app_nil_r.
  - cbn [app List.filter]. rewrite IH. reflexivity.
Qed.

Lemma priority_order_stable c keys start :
  StronglySorted (cmp_le cmp) start ->
  List.filter (cmp_eqb cmp c) (priority_order cmp keys start) =
  List.filter (cmp_eqb cmp c) (start ++ keys).
Proof.
  revert start. induction keys as [|k keys IH]; intros start Hs; simpl.
  - now rewrite app_nil_r.
  - rewrite IH by (apply insert_key_sorted, Hs).
    rewrite !List.filter_app, insert_key_stable by exact Hs.
    rewrite List.filter_app. cbn [List.filter].
    destruct (cmp_eqb cmp c k); simpl; now rewrite <- ?app_assoc.
Qed.
End InsertionOrder.

Section Clients.
Variables (l : Z) (cmp : f_cmp) (ad : list_adapter).

Lemma push_all_spec fuel keys : forall h ns,
  represents h l cmp ad ns -> push ad = Ptr_list_add_find ->
  (length keys <= avail h)%nat ->
  Z.of_nat (length ns + length keys) < 4294967296 ->
  (length ns + length keys <= fuel)%nat ->
  ok (push_all fuel l keys h) (fun rc h' =>
    rc = SUCCESS /\
    exists ns',
      represents h' l cmp ad ns' /\
      map snd ns' = priority_order cmp keys (map snd ns) /\
      length ns' = (length ns + length keys)%nat).
Proof.
  induction keys as [|k keys IH]; intros h ns Hrep Hpush Hav Hcount Hfuel.
  - apply ok_ret. split; [reflexivity|]. exists ns.
    split; [exact Hrep|]. split; [reflexivity | simpl; lia].
  - cbn [push_all length] in *. apply ok_bind. unfold adapter_push.
    destruct (avail h) as [|n] eqn:Hn; [lia|].
    pose proof Hrep as [Hl (d & Hd & _ & _ & _ & _ & Ha & _ & Hal) _ _ _ _ _].
    apply ok_bind. eapply ok_get_desc; [lia | exact Hd |].
    rewrite Ha, Hpush, Hal. cbn [call_add].
    eapply ok_mono.
    { apply (list_add_find_spec h l cmp ad ns k n fuel); [exact Hrep|exact Hn|lia|lia]. }
    intros rc h' (-> & Hrep' & _ & Hav').
    cbn [negb Z.eqb SUCCESS].
    eapply ok_mono.
    { apply (IH h' _ Hrep' Hpush); rewrite ?length_sorted_insert; lia. }
    intros rc h'' (-> & ns' & Hrep'' & Hkeys & Hlen).
    split; [reflexivity|]. exists ns'. split; [exact Hrep''|].
    rewrite Hkeys, map_snd_sorted_insert, length_sorted_insert in *.
    split; [reflexivity | lia].
Qed.

Lemma pop_all_spec bound : forall h ns,
  represents h l cmp ad ns -> pop ad = Ptr_list_get_first ->
  (length ns < bound)%nat ->
  ok (pop_all bound l h) (fun out h' =>
    out = map snd ns /\ represents h' l cmp ad []).
Proof.
  induction bound as [|bound IH]; intros h ns Hrep Hpop Hb; [lia|].
  cbn [pop_all]. apply ok_bind. unfold adapter_pop.
  pose proof Hrep as [Hl (d & Hd & _ & _ & _ & _ & Ha & _ & Hal) _ _ _ _ _].
  apply ok_bind. eapply ok_get_desc; [lia | exact Hd |].
  rewrite Ha, Hpop, Hal. cbn [call_get].
  destruct ns as [|[a da] ns].
  - rewrite (list_get_first_empty h l cmp ad Hrep). cbn [ok].
    apply ok_ret. split; [reflexivity | exact Hrep].
  - eapply ok_mono; [apply (list_get_first_spec h l cmp ad a da ns Hrep)|].
    intros r h' (-> & Hrep' & _).
    cbn [negb Z.eqb SUCCESS]. apply ok_bind.
    eapply ok_mono; [apply (IH h' ns Hrep' Hpop); simpl in Hb; lia|].
    intros out h'' (-> & Hrep''). apply ok_ret.
    split; [reflexivity | exact Hrep''].
Qed.
End Clients.

Lemma sub_total_preorder : total_preorder Z.sub.
Proof. constructor; intros; lia. Qed.

(** C5. On a list created with the priority adapter, pushing any sequence of
    keys and then popping until the list is empty returns the keys in
    non-decreasing order of the comparator, each key as often as it was
    pushed, and keys that compare equal in the order in which they were
    pushed: every push stores the key before the first key strictly greater
    than it, behind its equals, or at the end ([priority_order]). The keys
    are fewer than [2^32], the range of the element count, and [calloc]
    grants the descriptor and the nodes. *)
Theorem priority_pops_sorted_and_stable (cmp : f_cmp) (keys : list Z)
    (h : heap) (fuel bound : nat) :
  total_preorder cmp ->
  0 < brk h -> (length keys < avail h)%nat ->
  Z.of_nat (length keys) < 4294967296 ->
  (length keys <= fuel)%nat -> (length keys < bound)%nat ->
  exists l h0 h1 out h2,
    list_init true (Some cmp) LIST_PRIORITY_LIST h = Ok (SUCCESS, l) h0 /\
    push_all fuel l keys h0 = Ok SUCCESS h1 /\
    pop_all bound l h1 = Ok out h2 /\
    list_get_first l h2 = Ok (0, FAILURE) h2 /\
    out = priority_order cmp keys [] /\
    StronglySorted (cmp_le cmp) out /\
    Permutation keys out /\
    forall c, List.filter (cmp_eqb cmp c) out = List.filter (cmp_eqb cmp c) keys.
Proof.
  intros Hcmp Hbrk Hav Hcount Hfuel Hbound.
  destruct (avail h) as [|n] eqn:Hn; [lia|].
  destruct (ok_elim _ _ (list_init_spec h (Some cmp) LIST_PRIORITY_LIST n Hn Hbrk))
    as (r & h0 & Hinit & -> & Hrep0 & Hav0).
  cbn [installed] in Hrep0.
  destruct (ok_elim _ _
    (push_all_spec (brk h) cmp _ fuel keys h0 [] Hrep0 eq_refl
       ltac:(lia) ltac:(simpl; lia) ltac:(simpl; lia)))
    as (rc & h1 & Hpush & -> & ns & Hrep1 & Hkeys & Hlen).
  destruct (ok_elim _ _
    (pop_all_spec (brk h) cmp _ bound h1 ns Hrep1 eq_refl
       ltac:(simpl in Hlen; lia)))
    as (out & h2 & Hpop & -> & Hrep2).
  exists (brk h), h0, h1, (map snd ns), h2.
  split; [exact Hinit|]. split; [exact Hpush|]. split; [exact Hpop|].
  split; [exact (list_get_first_empty _ _ _ _ Hrep2)|].
  rewrite Hkeys. cbn [map].
  split; [reflexivity|].
  split; [apply priority_order_sorted; [exact Hcmp | constructor]|].
  split; [exact (priority_order_perm cmp keys [])|].
  intros c. apply (priority_order_stable cmp Hcmp c keys []). constructor.
Qed.

Lemma priority_pops_sorted_and_stable_witness :
  exists l h0 h1 out h2,
    list_init true (Some Z.sub) LIST_PRIORITY_LIST (empty_heap 8)
      = Ok (SUCCESS, l) h0 /\
    push_all 4 l [5; 1; 3; 1] h0 = Ok SUCCESS h1 /\
    pop_all 5 l h1 = Ok out h2 /\
    list_get_first l h2 = Ok (0, FAILURE) h2 /\
    out = priority_order Z.sub [5; 1; 3; 1] [] /\
    StronglySorted (cmp_le Z.sub) out /\
    Permutation [5; 1; 3; 1] out /\
    forall c, List.filter (cmp_eqb Z.sub c) out
              = List.filter (cmp_eqb Z.sub c) [5; 1; 3; 1].
Proof.
  apply (priority_pops_sorted_and_stable Z.sub [5; 1; 3; 1] (empty_heap 8) 4 5).
  - exact sub_total_preorder.
  - simpl; lia.
  - simpl; lia.
  - simpl; lia.
  - simpl; lia.
  - simpl; lia.
Defined.

(** *** Removal through an iterator

    What [iterator_get] does on a list, for an iterator on any of its nodes:
    the node is unlinked and released, its payload returned, and the
    iterator is left on the successor of the removed node, which is null
    when the removed node was the last one. *)

Lemma iterator_get_spec h l cmp ad l1 e de l2 it :
  represents h l cmp ad (l1 ++ (e, de) :: l2) ->
  it <> 0 -> iters h !! it = Some (mk_it l e) ->
  ok (iterator_get (Iter_heap it) h) (fun r h' =>
    r = (de, SUCCESS) /\
    represents h' l cmp ad (l1 ++ l2) /\
    iters h' !! it = Some (mk_it l (head_addr l2 0))).
Proof.
  intros [Hl (d & Hd & Hf & Hla & Hnb & Hc & Ha & Hit & Hal) Hch Hnd Had Hct Hbrk] Hit0 Hiter.
  destruct h as [m ds its b av]. heap_simpl_in.
  destruct d as [fd ld nbd cd nid [itl ite] add]. heap_simpl_in. subst cd add itl.
  pose proof Hnd as Hnd0.
  apply nodup_split in Hnd. destruct Hnd as (He1 & He2 & H12 & Hnd1 & Hnd2).
  cbn [fst] in *.
  assert (Heb : 0 < e < b) by (apply (Had (e, de)), in_or_app; right; now left).
  apply chain_app in Hch. destruct Hch as [Hc1 Hch].
  cbn [chain head_addr fst snd] in Hch, Hc1. destruct Hch as [Hme Hc2].
  rewrite length_app, head_addr_app, last_addr_app in *.
  cbn [length head_addr last_addr fst] in *.
  assert (Hnd' : NoDup (map fst (l1 ++ l2))).
  { rewrite map_app. apply NoDup_app. split; [exact Hnd1|]. split; [|exact Hnd2].
    intros k Hk Hk'. apply list_elem_of_In, in_map_iff in Hk, Hk'.
    destruct Hk as (n1 & <- & Hn1). destruct Hk' as (n2 & Heq & Hn2).
    now apply (H12 n1 n2). }
  assert (Had' : forall k, In k (l1 ++ l2) -> 0 < fst k < b).
  { intros k Hk. apply Had. apply in_app_or in Hk. apply in_or_app.
    destruct Hk; [now left | right; now right]. }
  unfold iterator_get.
  destruct l1 as [|k1 l1'] using rev_ind; [|clear IHl1'];
    destruct l2 as [|[nx dn] l2'].
  - (* the only element *)
    cbn [app head_addr last_addr length] in *. subst fd ld nbd.
    repeat wp_step.
    split; [reflexivity|]. split; [|heap_simpl; lk; reflexivity].
    constructor; heap_simpl;
      [ lia | | exact I | apply NoDup_nil_2 | intros k [] | simpl; lia | lia ].
    eexists. split; [lk; reflexivity|]. repeat split; auto.
  - (* the first of several *)
    cbn [app head_addr last_addr length chain fst snd] in *. subst fd.
    destruct Hc2 as [Hmn Hc2].
    assert (Hnb' : 0 < nx < b) by (apply (Had (nx, dn)); right; now left).
    assert (Hne : nx <> e) by (apply (He2 (nx, dn)); now left).
    assert (Hlb : 0 < ld < b /\ ld <> e).
    { rewrite Hla. split.
      - apply (last_addr_bounds ((nx, dn) :: l2') b e); [discriminate|].
        intros k Hk. apply Had. now right.
      - destruct (exists_last (l := (nx, dn) :: l2')) as (l2'' & kl & Hkl); [discriminate|].
        change (last_addr l2' nx) with (last_addr ((nx, dn) :: l2') e).
        rewrite Hkl, last_addr_app. cbn [last_addr].
        apply He2. rewrite Hkl. apply in_or_app. right. now left. }
    repeat wp_step.
    split; [reflexivity|]. split; [|heap_simpl; lk; reflexivity].
    constructor; heap_simpl; [ lia | | | exact Hnd' | exact Had' | | lia ].
    + eexists. split; [lk; reflexivity|].
      rewrite u32_small by lia. heap_simpl.
      cbn [length head_addr last_addr fst app].
      repeat split; auto; lia.
    + cbn [chain head_addr fst snd]. split; [lk; reflexivity|].
      apply (chain_ext m); [|exact Hc2]. intros k Hk.
      apply (nodup_split [] l2' (nx, dn)) in Hnd2. destruct Hnd2 as (_ & Hn2 & _).
      specialize (Hn2 k Hk). specialize (He2 k (or_intror Hk)). cbn [fst] in *.
      lk. reflexivity.
    + cbn [length] in *. lia.
  - (* the last of several *)
    destruct k1 as [p dp]. rewrite last_addr_app in *. cbn [last_addr fst] in *.
    rewrite app_nil_r in *. 
    apply chain_app in Hc1. destruct Hc1 as [Hc1 [Hmp _]].
    cbn [head_addr fst snd] in *.
    assert (Hpb : 0 < p < b) by (apply (Had (p, dp)), in_or_app; left; apply in_or_app; right; now left).
    assert (Hpe : p <> e) by (apply (He1 (p, dp)), in_or_app; right; now left).
    assert (Hfb : 0 < fd < b /\ fd <> e).
    { rewrite Hf. split.
      - apply head_addr_bounds; [destruct l1'; discriminate|].
        intros k Hk. apply Had, in_or_app. now left.
      - destruct l1' as [|k0 l1'']; cbn [app head_addr fst]; [lia|].
        apply He1. now left. }
    subst ld.
    repeat wp_step.
    split; [reflexivity|]. split; [|heap_simpl; lk; reflexivity].
    constructor; heap_simpl; [ lia | | | exact Hnd' | exact Had' | | lia ].
    + eexists. split; [lk; reflexivity|].
      rewrite u32_small by (rewrite length_app in *; cbn [length] in *; lia).
      heap_simpl. rewrite ?length_app, ?head_addr_app, ?last_addr_app.
      cbn [length head_addr last_addr fst app].
      rewrite length_app in *. cbn [length] in *.
      rewrite ?head_addr_app in Hf. cbn [head_addr fst] in Hf.
      repeat split; auto; lia.
    + apply chain_app. split; [|cbn [chain head_addr fst snd]; split; [lk; reflexivity | exact I]].
      cbn [head_addr fst]. apply (chain_ext m); [|exact Hc1]. intros k Hk.
      assert (fst k <> e) by (apply He1, in_or_app; now left).
      assert (fst k <> p).
      { apply (nodup_split l1' [] (p, dp)) in Hnd1. destruct Hnd1 as (Hn1 & _).
        now apply Hn1. }
      lk. reflexivity.
    + rewrite !length_app in *. cbn [length] in *. lia.
  - (* between two elements *)
    destruct k1 as [p dp]. rewrite last_addr_app in *. cbn [last_addr fst] in *.
    apply chain_app in Hc1. destruct Hc1 as [Hc1 [Hmp _]].
    cbn [chain head_addr fst snd] in *. destruct Hc2 as [Hmn Hc2].
    assert (Hpb : 0 < p < b) by (apply (Had (p, dp)), in_or_app; left; apply in_or_app; right; now left).
    assert (Hpe : p <> e) by (apply (He1 (p, dp)), in_or_app; right; now left).
    assert (Hnb' : 0 < nx < b) by (apply (Had (nx, dn)), in_or_app; right; right; now left).
    assert (Hne : nx <> e) by (apply (He2 (nx, dn)); now left).
    assert (Hpn : p <> nx).
    { apply (H12 (p, dp) (nx, dn)); [apply in_or_app; right|]; now left. }
    assert (Hfb : 0 < fd < b /\ fd <> e).
    { rewrite Hf. split.
      - apply head_addr_bounds; [destruct l1'; discriminate|].
        intros k Hk. apply Had, in_or_app. now left.
      - destruct l1' as [|k0 l1'']; cbn [app head_addr fst]; [lia|].
        apply He1. now left. }
    assert (Hlb : 0 < ld < b /\ ld <> e).
    { rewrite Hla. split.
      - apply (last_addr_bounds ((nx, dn) :: l2') b e); [discriminate|].
        intros k Hk. apply Had, in_or_app. right. now right.
      - destruct (exists_last (l := (nx, dn) :: l2')) as (l2'' & kl & Hkl); [discriminate|].
        change (last_addr l2' nx) with (last_addr ((nx, dn) :: l2') e).
        rewrite Hkl, last_addr_app. cbn [last_addr].
        apply He2. rewrite Hkl. apply in_or_app. right. now left. }
    repeat wp_step.
    split; [reflexivity|]. split; [|heap_simpl; lk; reflexivity].
    constructor; heap_simpl; [ lia | | | exact Hnd' | exact Had' | | lia ].
    + eexists. split; [lk; reflexivity|].
      rewrite u32_small by (rewrite length_app in *; cbn [length] in *; lia).
      heap_simpl. rewrite ?length_app, ?head_addr_app, ?last_addr_app.
      cbn [length head_addr last_addr fst app].
      rewrite ?last_addr_app. cbn [last_addr fst].
      rewrite length_app in *. cbn [length] in *.
      rewrite ?head_addr_app in Hf. cbn [head_addr fst] in Hf.
      repeat split; auto; lia.
    + apply chain_app. split.
      * apply chain_app. split; [|cbn [chain head_addr fst snd]; split; [lk; reflexivity | exact I]].
        cbn [head_addr fst]. apply (chain_ext m); [|exact Hc1]. intros k Hk.
        assert (fst k <> e) by (apply He1, in_or_app; now left).
        assert (fst k <> nx).
        { apply (H12 k (nx, dn)); [apply in_or_app|]; now left. }
        assert (fst k <> p).
        { apply (nodup_split l1' [] (p, dp)) in Hnd1. destruct Hnd1 as (Hn1 & _).
          now apply Hn1. }
        lk. reflexivity.
      * rewrite last_addr_app. cbn [chain last_addr head_addr fst snd].
        split; [lk; reflexivity|].
        apply (chain_ext m); [|exact Hc2]. intros k Hk.
        assert (fst k <> e) by (apply He2; now right).
        assert (fst k <> nx).
        { apply (nodup_split [] l2' (nx, dn)) in Hnd2. destruct Hnd2 as (_ & Hn2 & _).
          now apply Hn2. }
        assert (fst k <> p).
        { intros Heq. apply (H12 (p, dp) k); [apply in_or_app; right; now left | now right | now symmetry]. }
        lk. reflexivity.
    + rewrite !length_app in *. cbn [length] in *. lia.
Qed.

(** Removing the last of several nodes: the iterator ends without a
    position, although the list still has a last node, [p]. *)
Lemma iterator_get_last_of_several h l cmp ad l1 p dp e de it :
  represents h l cmp ad (l1 ++ [(p, dp); (e, de)]) ->
  it <> 0 -> iters h !! it = Some (mk_it l e) ->
  ok (iterator_get (Iter_heap it) h) (fun r h' =>
    r = (de, SUCCESS) /\
    represents h' l cmp ad (l1 ++ [(p, dp)]) /\
    last_addr (l1 ++ [(p, dp)]) 0 = p /\ 0 < p /\
    iters h' !! it = Some (mk_it l 0)).
Proof.
  intros Hrep Hit Hi.
  assert (Hp : 0 < p).
  { destruct Hrep as [_ _ _ _ Had _ _].
    apply (Had (p, dp)), in_or_app. right. now left. }
  change (l1 ++ [(p, dp); (e, de)]) with (l1 ++ [(p, dp)] ++ (e, de) :: [])
    in Hrep.
  rewrite app_assoc in Hrep.
  eapply ok_mono; [apply (iterator_get_spec _ _ _ _ _ _ _ _ _ Hrep Hit Hi)|].
  intros r h' (-> & Hrep' & Hi'). rewrite app_nil_r in Hrep'.
  split; [reflexivity|]. split; [exact Hrep'|].
  split; [now rewrite last_addr_app|]. split; [exact Hp | exact Hi'].
Qed.

(** C1. On the list [10; 20] with an iterator on its last node,
    [iterator_get] removes that node, returns its payload and decrements the
    element count, but leaves the iterator without a position: the
    descriptor's [last] was already moved to the predecessor when the code
    tests [it->elem == it->list->last], so the successor of the removed node,
    null, is taken instead of the new tail. *)
Theorem iterator_get_at_tail_loses_position :
  ok (tail_scenario (empty_heap 4)) (fun '(l, it) h =>
    elems h = {[ 2 := mk_elem 10 0 3; 3 := mk_elem 20 2 0 ]} /\
    desc_shape h l = Some (2, 3, 2, 1) /\
    iters h !! it = Some (mk_it l 3) /\
    ok (iterator_get (Iter_heap it) h) (fun r h' =>
      r = (20, SUCCESS) /\
      elems h' = {[ 2 := mk_elem 10 0 0 ]} /\
      desc_shape h' l = Some (2, 2, 1, 1) /\
      iters h' !! it = Some (mk_it l 0))).
Proof. vm_compute. repeat split. Qed.

(** *** Moving an iterator *)

Section Walk.
Variables (h : heap) (ns : list node).
Hypothesis Hch : chain (elems h) 0 ns 0.
Hypothesis Hpos : forall n, In n ns -> 0 < fst n.

Lemma addr_at_pos j n : ns !! j = Some n -> 0 < addr_at ns j.
Proof.
  intros Hj. unfold addr_at. rewrite Hj. apply Hpos.
  apply list_elem_of_In, list_elem_of_lookup. eauto.
Qed.

Lemma addr_at_beyond j : (length ns <= j)%nat -> addr_at ns j = 0.
Proof.
  intros Hj. unfold addr_at. now rewrite lookup_ge_None_2.
Qed.

Lemma move_loop_forward k : forall j,
  move_loop k 1 (addr_at ns j) h = Ok (addr_at ns (j + k)) h.
Proof.
  induction k as [|k IH]; intros j.
  - now rewrite Nat.add_0_r.
  - cbn [move_loop]. destruct (ns !! j) as [n|] eqn:Hj.
    + pose proof (addr_at_pos j n Hj) as Hp.
      replace (addr_at ns j =? 0) with false by lia.
      unfold bind, get_elem. replace (addr_at ns j =? 0) with false by lia.
      unfold addr_at at 1. rewrite Hj, (chain_lookup _ _ 0 j n Hch Hj).
      cbn [next]. change (1 >? 0) with true. cbv iota.
      rewrite IH. now replace (S j + k)%nat with (j + S k)%nat by lia.
    + assert (Hlen : (length ns <= j)%nat) by (now apply lookup_ge_None).
      rewrite !addr_at_beyond by lia. reflexivity.
Qed.

Lemma move_loop_backward k : forall j n,
  ns !! j = Some n ->
  move_loop k (-1) (addr_at ns j) h
    = Ok (if (k <=? j)%nat then addr_at ns (j - k) else 0) h.
Proof.
  induction k as [|k IH]; intros j n Hj.
  - now rewrite Nat.sub_0_r.
  - cbn [move_loop].
    pose proof (addr_at_pos j n Hj) as Hp.
    replace (addr_at ns j =? 0) with false by lia.
    unfold bind, get_elem. replace (addr_at ns j =? 0) with false by lia.
    unfold addr_at at 1. rewrite Hj, (chain_lookup _ _ 0 j n Hch Hj).
    cbn [prev]. change (-1 >? 0) with false. cbv iota.
    destruct j as [|j].
    + destruct k; reflexivity.
    + assert (Hj' : is_Some (ns !! j)).
      { apply lookup_lt_is_Some. apply lookup_lt_Some in Hj. lia. }
      destruct Hj' as [n' Hj']. rewrite (IH j n' Hj').
      reflexivity.
Qed.
End Walk.

Lemma abs_in_range n : INT32_MIN < n <= INT32_MAX -> abs n = Z.abs n.
Proof.
  unfold INT32_MIN, INT32_MAX, abs, s32. intros Hn.
  rewrite u32_small by lia. now replace (Z.abs n <? 2147483648) with true by lia.
Qed.

Lemma abs_INT32_MIN : abs INT32_MIN = INT32_MIN.
Proof. reflexivity. Qed.

Lemma set_it_elem_heap h it l e e' :
  it <> 0 -> iters h !! it = Some (mk_it l e) ->
  set_it_elem (Iter_heap it) e' h = Ok tt (with_position h it l e').
Proof.
  intros Hit Hi. unfold set_it_elem, put_it, bind, get_it, write_it.
  replace (it =? 0) with false by lia. rewrite Hi. cbv beta iota.
  rewrite Hi. reflexivity.
Qed.

Lemma iterator_move_spec h l cmp ad ns it i e de n :
  represents h l cmp ad ns ->
  it <> 0 -> iters h !! it = Some (mk_it l e) ->
  ns !! i = Some (e, de) ->
  INT32_MIN < n <= INT32_MAX ->
  iterator_move (Iter_heap it) n h =
    if (0 <=? Z.of_nat i + n) && (Z.of_nat i + n <? Z.of_nat (length ns))
    then Ok SUCCESS
           (with_position h it l (addr_at ns (Z.to_nat (Z.of_nat i + n))))
    else Ok FAILURE h.
Proof.
  intros [_ _ Hch _ Had _ _] Hit Hi Hn Hrange.
  assert (Hpos : forall k, In k ns -> 0 < fst k) by (intros k Hk; apply Had, Hk).
  assert (He : e = addr_at ns i) by (unfold addr_at; now rewrite Hn).
  pose proof (lookup_lt_Some _ _ _ Hn) as Hlt.
  unfold iterator_move. cbn [is_null].
  replace (it =? 0) with false by lia.
  rewrite (abs_in_range n Hrange).
  unfold bind at 1. unfold get_it. replace (it =? 0) with false by lia.
  rewrite Hi. cbn [elem]. unfold bind at 1.
  destruct (Z.ltb_spec n 0) as [Hneg|Hnn].
  - (* towards the head *)
    rewrite He, (move_loop_backward h ns Hch Hpos _ i (e, de) Hn).
    replace (Z.of_nat i + n <? Z.of_nat (length ns)) with true by lia.
    rewrite andb_true_r.
    destruct (Nat.leb_spec (Z.to_nat (Z.abs n)) i) as [Hin|Hout].
    + replace (0 <=? Z.of_nat i + n) with true by lia.
      replace (i - Z.to_nat (Z.abs n))%nat with (Z.to_nat (Z.of_nat i + n)) by lia.
      destruct (ns !! Z.to_nat (Z.of_nat i + n)) as [n'|] eqn:Hn'.
      * pose proof (addr_at_pos ns Hpos _ _ Hn') as Hp.
        replace (_ =? 0) with false by lia.
        unfold bind. rewrite (set_it_elem_heap h it l e) by assumption.
        reflexivity.
      * apply lookup_ge_None in Hn'. lia.
    + replace (0 <=? Z.of_nat i + n) with false by lia. reflexivity.
  - (* towards the tail *)
    rewrite He, (move_loop_forward h ns Hch Hpos).
    replace (0 <=? Z.of_nat i + n) with true by lia. rewrite andb_true_l.
    replace (i + Z.to_nat (Z.abs n))%nat with (Z.to_nat (Z.of_nat i + n)) by lia.
    destruct (Z.ltb_spec (Z.of_nat i + n) (Z.of_nat (length ns))) as [Hin|Hout].
    + destruct (ns !! Z.to_nat (Z.of_nat i + n)) as [n'|] eqn:Hn'.
      * pose proof (addr_at_pos ns Hpos _ _ Hn') as Hp.
        replace (_ =? 0) with false by lia.
        unfold bind. rewrite (set_it_elem_heap h it l e) by assumption.
        reflexivity.
      * apply lookup_ge_None in Hn'. lia.
    + rewrite addr_at_beyond by lia. reflexivity.
Qed.

(** With [INT32_MIN] the loop does not run at all. *)
Lemma iterator_move_INT32_MIN h it l e :
  it <> 0 -> e <> 0 -> iters h !! it = Some (mk_it l e) ->
  iterator_move (Iter_heap it) INT32_MIN h
    = Ok SUCCESS (with_position h it l e).
Proof.
  intros Hit He Hi. unfold iterator_move. cbn [is_null].
  replace (it =? 0) with false by lia.
  rewrite abs_INT32_MIN. change (Z.to_nat INT32_MIN) with 0%nat.
  unfold bind at 1. unfold get_it. replace (it =? 0) with false by lia.
  rewrite Hi. cbn [elem move_loop]. unfold bind, ret.
  replace (e =? 0) with false by lia.
  rewrite (set_it_elem_heap h it l e) by assumption. reflexivity.
Qed.

(** C6. On a list of one element with an iterator on it, a move by [-1]
    fails and leaves the iterator in place, but a move by [INT32_MIN], whose
    [2^31] steps towards the head leave the chain just the same, reports
    success: [abs] wraps to a negative count and the loop does not run. *)
Theorem iterator_move_int32_min_succeeds :
  ok (single_scenario (empty_heap 3)) (fun '(l, it) h =>
    elems h = {[ 2 := mk_elem 10 0 0 ]} /\
    iters h !! it = Some (mk_it l 2) /\
    ok (iterator_move (Iter_heap it) (-1) h) (fun rc h' =>
      rc = FAILURE /\ iters h' !! it = Some (mk_it l 2)) /\
    ok (iterator_move (Iter_heap it) INT32_MIN h) (fun rc h' =>
      rc = SUCCESS /\ iters h' !! it = Some (mk_it l 2))).
Proof. vm_compute. repeat split. Qed.

(** *** Destruction *)

Lemma list_remove_refused h l d fuel :
  l <> 0 -> descs h !! l = Some d -> nb_iterators d <> 0 ->
  list_remove fuel l h = Ok FAILURE h.
Proof.
  intros Hl Hd Hn. unfold list_remove, bind, get_desc.
  replace (l =? 0) with false by lia. rewrite Hd.
  now replace (nb_iterators d =? 0) with false by lia.
Qed.

Section Drain.
Variables (l : Z) (cmp : f_cmp) (ad : list_adapter).

Lemma remove_loop_spec fuel : forall ns h data,
  represents h l cmp ad ns ->
  (data = 0 -> ns = []) ->
  (forall n, In n ns -> snd n <> 0) ->
  (length ns + 1 < fuel)%nat ->
  ok (remove_loop fuel l data h) (fun _ h' =>
    represents h' l cmp ad [] /\
    (forall n, In n ns -> elems h' !! fst n = None) /\
    (forall k, elems h !! k = None -> elems h' !! k = None)).
Proof.
  induction fuel as [|fuel IH]; intros ns h data Hrep Hdata Hnz Hfuel; [lia|].
  cbn [remove_loop]. destruct (Z.eqb_spec data 0) as [Hz|Hz].
  - rewrite (Hdata Hz) in *. apply ok_ret.
    split; [exact Hrep|]. split; [intros n []|auto].
  - apply ok_bind. destruct ns as [|[a da] ns].
    + rewrite (list_get_first_empty h l cmp ad Hrep). cbn [ok].
      destruct fuel as [|fuel]; [simpl in Hfuel; lia|].
      cbn [remove_loop Z.eqb]. apply ok_ret.
      split; [exact Hrep|]. split; [intros n []|auto].
    + eapply ok_mono; [apply (list_get_first_spec h l cmp ad a da ns Hrep)|].
      intros r h' (-> & Hrep' & _ & _ & Hgone & Hframe).
      eapply ok_mono.
      { apply (IH ns h' da Hrep').
        - intros Hda. exfalso. apply (Hnz (a, da)); [now left | exact Hda].
        - intros n Hn. apply Hnz. now right.
        - simpl in Hfuel. lia. }
      intros _ h'' (Hrep'' & Hfreed & Hframe').
      split; [exact Hrep''|]. split.
      * intros n [<-|Hn]; [apply Hframe', Hgone | apply Hfreed, Hn].
      * intros k Hk. apply Hframe', Hframe, Hk.
Qed.

(** With no live iterator and no null payload, the list is drained and the
    descriptor released. *)
Lemma list_remove_drains fuel ns h d :
  represents h l cmp ad ns ->
  descs h !! l = Some d -> nb_iterators d = 0 ->
  (forall n, In n ns -> snd n <> 0) ->
  (length ns + 1 < fuel)%nat ->
  ok (list_remove fuel l h) (fun rc h' =>
    rc = SUCCESS /\ descs h' !! l = None /\
    forall n, In n ns -> elems h' !! fst n = None).
Proof.
  intros Hrep Hd Hni Hnz Hfuel.
  pose proof Hrep as [Hl _ _ _ _ _ _].
  unfold list_remove. replace (l =? 0) with false by lia.
  apply ok_bind. eapply ok_get_desc; [lia | exact Hd |].
  rewrite Hni. cbn [Z.eqb negb]. apply ok_bind.
  assert (Hfin : forall h1 (ns1 : list node),
    represents h1 l cmp ad [] ->
    (forall n, In n ns1 -> elems h1 !! fst n = None) ->
    ok ((let! _ := free_desc l in ret SUCCESS) h1) (fun rc h' =>
      rc = SUCCESS /\ descs h' !! l = None /\
      forall n, In n ns1 -> elems h' !! fst n = None)).
  { intros h1 ns1 [_ (d1 & Hd1 & _) _ _ _ _ _] Hfreed.
    destruct h1 as [m1 ds1 its1 b1 av1]. heap_simpl_in.
    unfold free_desc. repeat wp_step.
    split; [reflexivity|]. split; [heap_simpl; lk; reflexivity | exact Hfreed]. }
  destruct ns as [|[a da] ns].
  - rewrite (list_get_first_empty h l cmp ad Hrep). cbn [ok]. apply ok_bind.
    destruct fuel as [|fuel]; [simpl in Hfuel; lia|].
    cbn [remove_loop Z.eqb]. apply ok_ret. now apply Hfin.
  - eapply ok_mono; [apply (list_get_first_spec h l cmp ad a da ns Hrep)|].
    intros r h' (-> & Hrep' & _ & _ & Hgone & Hframe).
    apply ok_bind. eapply ok_mono.
    { apply (remove_loop_spec fuel ns h' da Hrep').
      - intros Hda. exfalso. apply (Hnz (a, da)); [now left | exact Hda].
      - intros n Hn. apply Hnz. now right.
      - simpl in Hfuel. lia. }
    intros _ h'' (Hrep'' & Hfreed & Hframe').
    apply Hfin; [exact Hrep''|].
    intros n [<-|Hn]; [apply Hframe', Hgone | apply Hfreed, Hn].
Qed.
End Drain.

(** C9. On a list without iterators that holds a null reference and then
    the reference 5, [list_remove] reports success and releases the
    descriptor after a single [list_get_first]: the null payload it returns
    ends the drain loop, and the node holding 5 stays allocated. *)
Theorem list_remove_stops_at_null_payload :
  ok (null_payload_scenario (empty_heap 3)) (fun l h =>
    elems h = {[ 2 := mk_elem 0 0 3; 3 := mk_elem 5 2 0 ]} /\
    desc_shape h l = Some (2, 3, 2, 0) /\
    ok (list_remove 4 l h) (fun rc h' =>
      rc = SUCCESS /\
      descs h' !! l = None /\
      elems h' = {[ 3 := mk_elem 5 0 0 ]})).
Proof. vm_compute. repeat split. Qed.

(** *** Replacement on an empty target *)

Lemma list_edit_first_empty_faults h l d v :
  l <> 0 -> descs h !! l = Some d -> first d = 0 ->
  list_edit_first l v h = Fault.
Proof.
  intros Hl Hd Hf. unfold list_edit_first, bind, get_desc.
  replace (l =? 0) with false by lia. rewrite Hd, Hf. reflexivity.
Qed.

Lemma list_edit_last_empty_faults h l d v :
  l <> 0 -> descs h !! l = Some d -> last d = 0 ->
  list_edit_last l v h = Fault.
Proof.
  intros Hl Hd Hf. unfold list_edit_last, bind, get_desc.
  replace (l =? 0) with false by lia. rewrite Hd, Hf. reflexivity.
Qed.

Lemma iterator_edit_absent_faults h it l v :
  it <> 0 -> iters h !! it = Some (mk_it l 0) ->
  iterator_edit (Iter_heap it) v h = Fault.
Proof.
  intros Hit Hi. unfold iterator_edit, bind, get_it. cbn [is_null].
  replace (it =? 0) with false by lia. rewrite Hi. reflexivity.
Qed.

Lemma iterator_read_absent_fails h it l :
  it <> 0 -> iters h !! it = Some (mk_it l 0) ->
  iterator_read (Iter_heap it) h = Ok (0, FAILURE) h.
Proof.
  intros Hit Hi. unfold iterator_read, bind, get_it. cbn [is_null].
  replace (it =? 0) with false by lia. rewrite Hi. reflexivity.
Qed.

(** C4. On a freshly created, empty list, [list_read_first] reports a
    failure but [list_edit_first] and [list_edit_last] dereference the null
    [first] and [last]; [iterator_read] through an iterator without a
    position reports a failure but [iterator_edit] dereferences its null
    [elem]. None of the three replace operations returns. *)
Theorem edit_on_empty_target_faults :
  ok (list_init true None LIST_DEFAULT (empty_heap 2)) (fun '(rc, l) h =>
    rc = SUCCESS /\
    elems h = ∅ /\ desc_shape h l = Some (0, 0, 0, 0) /\
    ok (list_read_first l h) (fun r _ => r = (0, FAILURE)) /\
    list_edit_first l 7 h = Fault /\
    list_edit_last l 7 h = Fault /\
    ok (iterator_init l true h) (fun '(rc', it) h' =>
      rc' = SUCCESS /\
      iters h' !! it = Some (mk_it l 0) /\
      ok (iterator_read (Iter_heap it) h') (fun r _ => r = (0, FAILURE)) /\
      iterator_edit (Iter_heap it) 7 h' = Fault)).
Proof. vm_compute. repeat split. Qed.

(** *** The default comparator *)

Lemma default_comparator_zero d1 d2 :
  default_comparator d1 d2 = 0 <-> (d1 - d2) mod 4294967296 = 0.
Proof.
  unfold default_comparator, s32, u32.
  pose proof (Z.mod_pos_bound (d1 - d2) 4294967296 ltac:(lia)).
  destruct (Z.ltb_spec ((d1 - d2) mod 4294967296) 2147483648); lia.
Qed.

(** Proves that a heap given by its contents holds a given sequence. *)
Ltac sample_represents :=
  constructor;
    [ lia
    | eexists; split; [reflexivity | repeat split]
    | simpl; repeat split; reflexivity
    | apply (bool_decide_unpack _); vm_compute; exact I
    | intros n Hn; simpl in Hn; intuition subst; simpl; lia
    | simpl; lia
    | simpl; lia ].

(** *** Iterator handles

    The functions take an iterator either as a handle of its own or as the
    address of the iterator inside a descriptor; what follows holds for
    both. *)

Lemma positioned_not_null h iter l e :
  positioned h iter l e -> is_null iter = false.
Proof.
  destruct iter as [|a|l']; cbn; [tauto| |]; intros H; lia.
Qed.

Lemma get_it_positioned h iter l e :
  positioned h iter l e -> get_it iter h = Ok (mk_it l e) h.
Proof.
  destruct iter as [|a|l']; cbn [positioned]; [tauto| |].
  - intros [Ha Hi]. unfold get_it. replace (a =? 0) with false by lia.
    now rewrite Hi.
  - intros (-> & Hl & d & Hd & Hit). unfold get_it, bind, get_desc, ret.
    replace (l =? 0) with false by lia. now rewrite Hd, Hit.
Qed.

Lemma set_it_elem_positioned h iter l e e' :
  positioned h iter l e ->
  set_it_elem iter e' h = Ok tt (reposition h iter e').
Proof.
  intros Hp. unfold set_it_elem, bind. rewrite (get_it_positioned _ _ _ _ Hp).
  destruct iter as [|a|l']; cbn [positioned] in Hp; [tauto| |].
  - destruct Hp as [Ha Hi]. unfold put_it, bind, write_it.
    rewrite (get_it_positioned h (Iter_heap a) l e) by (split; assumption).
    cbn [reposition list_ref]. now rewrite Hi.
  - destruct Hp as (-> & Hl & d & Hd & Hit).
    unfold put_it, bind, get_desc, write_desc.
    replace (l =? 0) with false by lia. rewrite Hd.
    cbn [reposition list_ref]. now rewrite Hd, Hit.
Qed.

Lemma reposition_positioned h iter l e e' :
  positioned h iter l e -> positioned (reposition h iter e') iter l e'.
Proof.
  destruct iter as [|a|l']; cbn [positioned reposition]; [tauto| |].
  - intros [Ha Hi]. rewrite Hi. cbn [iters list_ref]. split; [exact Ha|].
    apply lookup_insert_eq.
  - intros (-> & Hl & d & Hd & Hit). rewrite Hd, Hit. cbn [descs list_ref].
    repeat split; auto. eexists. split; [apply lookup_insert_eq|]. reflexivity.
Qed.

Lemma elems_reposition h iter e : elems (reposition h iter e) = elems h.
Proof.
  destruct iter as [|a|l]; cbn [reposition]; [reflexivity| |].
  - now destruct (iters h !! a).
  - now destruct (descs h !! l).
Qed.

Lemma represents_reposition h iter e l cmp ad ns :
  represents h l cmp ad ns -> represents (reposition h iter e) l cmp ad ns.
Proof.
  intros Hrep. destruct iter as [|a|l']; cbn [reposition]; [exact Hrep| |].
  - destruct (iters h !! a); [|exact Hrep].
    destruct Hrep as [Hl Hd Hch Hnd Had Hct Hbrk]. constructor; auto.
  - destruct (descs h !! l') as [d'|] eqn:Hd'; [|exact Hrep].
    destruct (Z.eq_dec l' l) as [->|Hne].
    + destruct h as [m ds its b av].
      apply (represents_set_l_it m ds its b av l cmp ad ns d' e Hrep Hd').
    + destruct Hrep as [Hl (d & Hd & Hrest) Hch Hnd Had Hct Hbrk].
      constructor; auto. exists d. split; [|exact Hrest].
      cbn [descs]. now rewrite lookup_insert_ne.
Qed.

Lemma iterator_move_gen h l cmp ad ns iter i n :
  represents h l cmp ad ns ->
  at_index h iter l ns i ->
  INT32_MIN < n <= INT32_MAX ->
  iterator_move iter n h =
    if (0 <=? Z.of_nat i + n) && (Z.of_nat i + n <? Z.of_nat (length ns))
    then Ok SUCCESS
           (reposition h iter (addr_at ns (Z.to_nat (Z.of_nat i + n))))
    else Ok FAILURE h.
Proof.
  intros [_ _ Hch _ Had _ _] ([e de] & Hn & Hp) Hrange. cbn [fst] in Hp.
  assert (Hpos : forall k, In k ns -> 0 < fst k) by (intros k Hk; apply Had, Hk).
  assert (He : e = addr_at ns i) by (unfold addr_at; now rewrite Hn).
  pose proof (lookup_lt_Some _ _ _ Hn) as Hlt.
  unfold iterator_move. rewrite (positioned_not_null _ _ _ _ Hp).
  rewrite (abs_in_range n Hrange).
  unfold bind at 1. rewrite (get_it_positioned _ _ _ _ Hp).
  cbn [elem]. unfold bind at 1.
  destruct (Z.ltb_spec n 0) as [Hneg|Hnn].
  - rewrite He, (move_loop_backward h ns Hch Hpos _ i (e, de) Hn).
    replace (Z.of_nat i + n <? Z.of_nat (length ns)) with true by lia.
    rewrite andb_true_r.
    destruct (Nat.leb_spec (Z.to_nat (Z.abs n)) i) as [Hin|Hout].
    + replace (0 <=? Z.of_nat i + n) with true by lia.
      replace (i - Z.to_nat (Z.abs n))%nat with (Z.to_nat (Z.of_nat i + n)) by lia.
      destruct (ns !! Z.to_nat (Z.of_nat i + n)) as [n'|] eqn:Hn'.
      * pose proof (addr_at_pos ns Hpos _ _ Hn') as Hp'.
        replace (_ =? 0) with false by lia.
        unfold bind. now rewrite (set_it_elem_positioned h iter l e).
      * apply lookup_ge_None in Hn'. lia.
    + replace (0 <=? Z.of_nat i + n) with false by lia. reflexivity.
  - rewrite He, (move_loop_forward h ns Hch Hpos).
    replace (0 <=? Z.of_nat i + n) with true by lia. rewrite andb_true_l.
    replace (i + Z.to_nat (Z.abs n))%nat with (Z.to_nat (Z.of_nat i + n)) by lia.
    destruct (Z.ltb_spec (Z.of_nat i + n) (Z.of_nat (length ns))) as [Hin|Hout].
    + destruct (ns !! Z.to_nat (Z.of_nat i + n)) as [n'|] eqn:Hn'.
      * pose proof (addr_at_pos ns Hpos _ _ Hn') as Hp'.
        replace (_ =? 0) with false by lia.
        unfold bind. now rewrite (set_it_elem_positioned h iter l e).
      * apply lookup_ge_None in Hn'. lia.
    + rewrite addr_at_beyond by lia. reflexivity.
Qed.

Lemma at_index_reposition h iter l ns i j :
  at_index h iter l ns i -> (j < length ns)%nat ->
  at_index (reposition h iter (addr_at ns j)) iter l ns j.
Proof.
  intros (n & Hn & Hp) Hj.
  destruct (lookup_lt_is_Some_2 ns j Hj) as [n' Hn'].
  exists n'. split; [exact Hn'|].
  unfold addr_at. rewrite Hn'.
  now apply (reposition_positioned h iter l (fst n)).
Qed.

Lemma reposition_twice h iter l e e1 e2 :
  positioned h iter l e ->
  reposition (reposition h iter e1) iter e2 = reposition h iter e2.
Proof.
  destruct iter as [|a|l']; cbn [positioned reposition]; [tauto| |].
  - intros [Ha Hi]. rewrite Hi. cbn [iters elems descs brk avail].
    rewrite lookup_insert_eq. cbn [list_ref]. now rewrite insert_insert_eq.
  - intros (-> & Hl & d & Hd & Hit). rewrite Hd.
    cbn [iters elems descs brk avail]. rewrite lookup_insert_eq.
    unfold set_l_it. cbn. now rewrite insert_insert_eq.
Qed.

Lemma reposition_same h iter l e :
  positioned h iter l e -> reposition h iter e = h.
Proof.
  destruct iter as [|a|l']; cbn [positioned reposition]; [tauto| |].
  - intros [Ha Hi]. rewrite Hi. cbn [list_ref].
    rewrite insert_id by exact Hi. now destruct h.
  - intros (-> & Hl & d & Hd & Hit). rewrite Hd, Hit. cbn [list_ref].
    rewrite insert_id; [now destruct h|].
    rewrite Hd. f_equal. destruct d as [? ? ? ? ? it ?]. cbn in Hit. subst it.
    reflexivity.
Qed.

(** X16. A move that succeeds is undone by the opposite move. *)
Theorem iterator_move_there_and_back h l cmp ad ns iter i n h' :
  represents h l cmp ad ns ->
  at_index h iter l ns i ->
  INT32_MIN < n <= INT32_MAX ->
  iterator_move iter n h = Ok SUCCESS h' ->
  iterator_move iter (- n) h' = Ok SUCCESS h.
Proof.
  intros Hrep Hat Hrange Hmove.
  rewrite (iterator_move_gen h l cmp ad ns iter i n Hrep Hat Hrange) in Hmove.
  destruct (_ && _) eqn:Hin; [|discriminate]. injection Hmove as <-.
  apply andb_prop in Hin. destruct Hin as [H0 H1].
  set (j := Z.to_nat (Z.of_nat i + n)).
  assert (Hj : (j < length ns)%nat) by (unfold j; lia).
  rewrite (iterator_move_gen _ l cmp ad ns iter j (- n)
             (represents_reposition _ _ _ _ _ _ _ Hrep)
             (at_index_reposition _ _ _ _ _ _ Hat Hj)
             ltac:(unfold INT32_MIN, INT32_MAX in *; lia)).
  destruct Hat as (k & Hk & Hp). pose proof (lookup_lt_Some _ _ _ Hk).
  replace (Z.of_nat j + - n) with (Z.of_nat i) by (unfold j; lia).
  replace (0 <=? Z.of_nat i) with true by lia.
  replace (Z.of_nat i <? Z.of_nat (length ns)) with true by lia.
  cbn [andb]. rewrite Nat2Z.id.
  rewrite (reposition_twice h iter l (fst k)) by exact Hp.
  unfold addr_at. rewrite Hk. now rewrite (reposition_same h iter l).
Qed.

Lemma iterator_move_there_and_back_witness :
  iterator_move (Iter_heap 5) (- 1)
    (reposition (sample_list_it 2) (Iter_heap 5) 4)
    = Ok SUCCESS (sample_list_it 2).
Proof.
  apply (iterator_move_there_and_back (sample_list_it 2) 1 Z.sub
           (adapter_of LIST_DEFAULT 1) [(2, 10); (3, 20); (4, 30)]
           (Iter_heap 5) 1 1).
  - sample_represents.
  - exists (3, 20). split; [reflexivity|]. split; [lia | reflexivity].
  - unfold INT32_MIN, INT32_MAX. lia.
  - reflexivity.
Defined.

(** *** Unlinking a node *)

Lemma iterator_get_unlink iter h :
  iterator_get iter h =
    (if is_null iter then ret (0, FAILURE)
     else
       let! it := get_it iter in
       if elem it =? 0 then ret (0, FAILURE)
       else unlink_k (list_ref it) (elem it) (fun data next =>
              let! _ := set_it_elem iter next in
              ret (data, SUCCESS))) h.
Proof. reflexivity. Qed.

Lemma unlink_k_spec {A : Type} h l cmp ad l1 e de l2 (k : Z -> Z -> M A) Q :
  represents h l cmp ad (l1 ++ (e, de) :: l2) ->
  (forall h',
     represents h' l cmp ad (l1 ++ l2) ->
     (forall iter x, positioned h iter l x -> positioned h' iter l x) ->
     elems h' !! e = None -> iters h' = iters h ->
     ok (k de (head_addr l2 0) h') Q) ->
  ok (unlink_k l e k h) Q.
Proof.
  intros [Hl (d & Hd & Hf & Hla & Hnb & Hc & Ha & Hit & Hal) Hch Hnd Had Hct Hbrk] Hk.
  destruct h as [m ds its b av]. heap_simpl_in.
  destruct d as [fd ld nbd cd nid [itl ite] add]. heap_simpl_in. subst cd add itl.
  pose proof Hnd as Hnd0.
  apply nodup_split in Hnd. destruct Hnd as (He1 & He2 & H12 & Hnd1 & Hnd2).
  cbn [fst] in *.
  assert (Heb : 0 < e < b) by (apply (Had (e, de)), in_or_app; right; now left).
  apply chain_app in Hch. destruct Hch as [Hc1 Hch].
  cbn [chain head_addr fst snd] in Hch, Hc1. destruct Hch as [Hme Hc2].
  rewrite length_app, head_addr_app, last_addr_app in *.
  cbn [length head_addr last_addr fst] in *.
  assert (Hnd' : NoDup (map fst (l1 ++ l2))).
  { rewrite map_app. apply NoDup_app. split; [exact Hnd1|]. split; [|exact Hnd2].
    intros k0 Hk0 Hk'. apply list_elem_of_In, in_map_iff in Hk0, Hk'.
    destruct Hk0 as (n1 & <- & Hn1). destruct Hk' as (n2 & Heq & Hn2).
    now apply (H12 n1 n2). }
  assert (Had' : forall k, In k (l1 ++ l2) -> 0 < fst k < b).
  { intros k0 Hk0. apply Had. apply in_app_or in Hk0. apply in_or_app.
    destruct Hk0; [now left | right; now right]. }
  unfold unlink_k.
  destruct l1 as [|k1 l1'] using rev_ind; [|clear IHl1'];
    destruct l2 as [|[nx dn] l2'].
  - (* the only element *)
    cbn [app head_addr last_addr length] in *. subst fd ld nbd.
    repeat wp_step. pure_tests. apply Hk.
    + constructor; heap_simpl;
        [ lia | | exact I | apply NoDup_nil_2 | intros k0 [] | simpl; lia | lia ].
      eexists. split; [lk; reflexivity|]. repeat split; auto.
    + intros [|a|l'] x; cbn [positioned]; heap_simpl; [tauto|tauto|].
      intros (-> & Hl0 & d0 & Hd0 & Hit0). rewrite Hd in Hd0.
      injection Hd0 as <-. repeat split; auto.
      eexists. split; [lk; reflexivity|]. exact Hit0.
    + heap_simpl. lk. reflexivity.
    + reflexivity.
  - (* the first of several *)
    cbn [app head_addr last_addr length chain fst snd] in *. subst fd.
    destruct Hc2 as [Hmn Hc2].
    assert (Hnb' : 0 < nx < b) by (apply (Had (nx, dn)); right; now left).
    assert (Hne : nx <> e) by (apply (He2 (nx, dn)); now left).
    assert (Hlb : 0 < ld < b /\ ld <> e).
    { rewrite Hla. split.
      - apply (last_addr_bounds ((nx, dn) :: l2') b e); [discriminate|].
        intros k0 Hk0. apply Had. now right.
      - destruct (exists_last (l := (nx, dn) :: l2')) as (l2'' & kl & Hkl); [discriminate|].
        change (last_addr l2' nx) with (last_addr ((nx, dn) :: l2') e).
        rewrite Hkl, last_addr_app. cbn [last_addr].
        apply He2. rewrite Hkl. apply in_or_app. right. now left. }
    repeat wp_step. pure_tests. apply Hk.
    + constructor; heap_simpl; [ lia | | | exact Hnd' | exact Had' | | lia ].
      * eexists. split; [lk; reflexivity|].
        rewrite u32_small by lia. heap_simpl.
        cbn [length head_addr last_addr fst app].
        repeat split; auto; lia.
      * cbn [chain head_addr fst snd]. split; [lk; reflexivity|].
        apply (chain_ext m); [|exact Hc2]. intros k0 Hk0.
        apply (nodup_split [] l2' (nx, dn)) in Hnd2. destruct Hnd2 as (_ & Hn2 & _).
        specialize (Hn2 k0 Hk0). specialize (He2 k0 (or_intror Hk0)). cbn [fst] in *.
        lk. reflexivity.
      * cbn [length] in *. lia.
    + intros [|a|l'] x; cbn [positioned]; heap_simpl; [tauto|tauto|].
      intros (-> & Hl0 & d0 & Hd0 & Hit0). rewrite Hd in Hd0.
      injection Hd0 as <-. repeat split; auto.
      eexists. split; [lk; reflexivity|]. exact Hit0.
    + heap_simpl. lk. reflexivity.
    + reflexivity.
  - (* the last of several *)
    destruct k1 as [p dp]. rewrite last_addr_app in *. cbn [last_addr fst] in *.
    rewrite app_nil_r in *.
    apply chain_app in Hc1. destruct Hc1 as [Hc1 [Hmp _]].
    cbn [head_addr fst snd] in *.
    assert (Hpb : 0 < p < b) by (apply (Had (p, dp)), in_or_app; left; apply in_or_app; right; now left).
    assert (Hpe : p <> e) by (apply (He1 (p, dp)), in_or_app; right; now left).
    assert (Hfb : 0 < fd < b /\ fd <> e).
    { rewrite Hf. split.
      - apply head_addr_bounds; [destruct l1'; discriminate|].
        intros k0 Hk0. apply Had, in_or_app. now left.
      - destruct l1' as [|k0 l1'']; cbn [app head_addr fst]; [lia|].
        apply He1. now left. }
    subst ld.
    repeat wp_step. pure_tests. apply Hk.
    + constructor; heap_simpl; [ lia | | | exact Hnd' | exact Had' | | lia ].
      * eexists. split; [lk; reflexivity|].
        rewrite u32_small by (rewrite length_app in *; cbn [length] in *; lia).
        heap_simpl. rewrite ?length_app, ?head_addr_app, ?last_addr_app.
        cbn [length head_addr last_addr fst app].
        rewrite length_app in *. cbn [length] in *.
        rewrite ?head_addr_app in Hf. cbn [head_addr fst] in Hf.
        repeat split; auto; lia.
      * apply chain_app. split; [|cbn [chain head_addr fst snd]; split; [lk; reflexivity | exact I]].
        cbn [head_addr fst]. apply (chain_ext m); [|exact Hc1]. intros k0 Hk0.
        assert (fst k0 <> e) by (apply He1, in_or_app; now left).
        assert (fst k0 <> p).
        { apply (nodup_split l1' [] (p, dp)) in Hnd1. destruct Hnd1 as (Hn1 & _).
          now apply Hn1. }
        lk. reflexivity.
      * rewrite !length_app in *. cbn [length] in *. lia.
    + intros [|a|l'] x; cbn [positioned]; heap_simpl; [tauto|tauto|].
      intros (-> & Hl0 & d0 & Hd0 & Hit0). rewrite Hd in Hd0.
      injection Hd0 as <-. repeat split; auto.
      eexists. split; [lk; reflexivity|]. exact Hit0.
    + heap_simpl. lk. reflexivity.
    + reflexivity.
  - (* between two elements *)
    destruct k1 as [p dp]. rewrite last_addr_app in *. cbn [last_addr fst] in *.
    apply chain_app in Hc1. destruct Hc1 as [Hc1 [Hmp _]].
    cbn [chain head_addr fst snd] in *. destruct Hc2 as [Hmn Hc2].
    assert (Hpb : 0 < p < b) by (apply (Had (p, dp)), in_or_app; left; apply in_or_app; right; now left).
    assert (Hpe : p <> e) by (apply (He1 (p, dp)), in_or_app; right; now left).
    assert (Hnb' : 0 < nx < b) by (apply (Had (nx, dn)), in_or_app; right; right; now left).
    assert (Hne : nx <> e) by (apply (He2 (nx, dn)); now left).
    assert (Hpn : p <> nx).
    { apply (H12 (p, dp) (nx, dn)); [apply in_or_app; right|]; now left. }
    assert (Hfb : 0 < fd < b /\ fd <> e).
    { rewrite Hf. split.
      - apply head_addr_bounds; [destruct l1'; discriminate|].
        intros k0 Hk0. apply Had, in_or_app. now left.
      - destruct l1' as [|k0 l1'']; cbn [app head_addr fst]; [lia|].
        apply He1. now left. }
    assert (Hlb : 0 < ld < b /\ ld <> e).
    { rewrite Hla. split.
      - apply (last_addr_bounds ((nx, dn) :: l2') b e); [discriminate|].
        intros k0 Hk0. apply Had, in_or_app. right. now right.
      - destruct (exists_last (l := (nx, dn) :: l2')) as (l2'' & kl & Hkl); [discriminate|].
        change (last_addr l2' nx) with (last_addr ((nx, dn) :: l2') e).
        rewrite Hkl, last_addr_app. cbn [last_addr].
        apply He2. rewrite Hkl. apply in_or_app. right. now left. }
    repeat wp_step. pure_tests. apply Hk.
    + constructor; heap_simpl; [ lia | | | exact Hnd' | exact Had' | | lia ].
      * eexists. split; [lk; reflexivity|].
        rewrite u32_small by (rewrite length_app in *; cbn [length] in *; lia).
        heap_simpl. rewrite ?length_app, ?head_addr_app, ?last_addr_app.
        cbn [length head_addr last_addr fst app].
        rewrite ?last_addr_app. cbn [last_addr fst].
        rewrite length_app in *. cbn [length] in *.
        rewrite ?head_addr_app in Hf. cbn [head_addr fst] in Hf.
        repeat split; auto; lia.
      * apply chain_app. split.
        { apply chain_app. split; [|cbn [chain head_addr fst snd]; split; [lk; reflexivity | exact I]].
          cbn [head_addr fst]. apply (chain_ext m); [|exact Hc1]. intros k0 Hk0.
          assert (fst k0 <> e) by (apply He1, in_or_app; now left).
          assert (fst k0 <> nx).
          { apply (H12 k0 (nx, dn)); [apply in_or_app|]; now left. }
          assert (fst k0 <> p).
          { apply (nodup_split l1' [] (p, dp)) in Hnd1. destruct Hnd1 as (Hn1 & _).
            now apply Hn1. }
          lk. reflexivity. }
        { rewrite last_addr_app. cbn [chain last_addr head_addr fst snd].
          split; [lk; reflexivity|].
          apply (chain_ext m); [|exact Hc2]. intros k0 Hk0.
          assert (fst k0 <> e) by (apply He2; now right).
          assert (fst k0 <> nx).
          { apply (nodup_split [] l2' (nx, dn)) in Hnd2. destruct Hnd2 as (_ & Hn2 & _).
            now apply Hn2. }
          assert (fst k0 <> p).
          { intros Heq. apply (H12 (p, dp) k0); [apply in_or_app; right; now left | now right | now symmetry]. }
          lk. reflexivity. }
      * rewrite !length_app in *. cbn [length] in *. lia.
    + intros [|a|l'] x; cbn [positioned]; heap_simpl; [tauto|tauto|].
      intros (-> & Hl0 & d0 & Hd0 & Hit0). rewrite Hd in Hd0.
      injection Hd0 as <-. repeat split; auto.
      eexists. split; [lk; reflexivity|]. exact Hit0.
    + heap_simpl. lk. reflexivity.
    + reflexivity.
Qed.

(** *** Payloads, positions and searches *)

Lemma rep_in_pos h l cmp ad ns n :
  represents h l cmp ad ns -> In n ns -> 0 < fst n.
Proof. intros [_ _ _ _ Had _ _] Hn. apply Had, Hn. Qed.

Lemma lookup_In (ns : list (Z * Z)) i n : ns !! i = Some n -> In n ns.
Proof. intros H. apply list_elem_of_In, list_elem_of_lookup. eauto. Qed.

Lemma rep_allocated h l cmp ad ns i n :
  represents h l cmp ad ns -> ns !! i = Some n ->
  elems h !! fst n =
    Some (mk_elem (snd n)
            (match i with O => 0 | S i' => addr_at ns i' end)
            (addr_at ns (S i))).
Proof.
  intros [_ _ Hch _ _ _ _] Hn. apply (chain_lookup _ _ 0 i n Hch Hn).
Qed.

Lemma positioned_frame h h' iter l x :
  iters h' = iters h ->
  (forall d, descs h !! l = Some d ->
             exists d', descs h' !! l = Some d' /\ l_it d' = l_it d) ->
  positioned h iter l x -> positioned h' iter l x.
Proof.
  intros Hi Hd. destruct iter as [|a|l']; cbn [positioned]; [tauto| |].
  - now rewrite Hi.
  - intros (-> & Hl & d & Hd0 & Hit). repeat split; auto.
    destruct (Hd d Hd0) as (d' & Hd' & Hit'). exists d'.
    split; [exact Hd'|]. now rewrite Hit'.
Qed.

Lemma l_it_positioned h l cmp ad ns :
  represents h l cmp ad ns -> exists x, positioned h (Iter_l_it l) l x.
Proof.
  intros [Hl (d & Hd & _ & _ & _ & _ & _ & Hit & _) _ _ _ _ _].
  destruct d as [? ? ? ? ? [itl ite] ?]. cbn in Hit. subst itl.
  exists ite. cbn [positioned]. repeat split; [lia|].
  eexists. split; [exact Hd|reflexivity].
Qed.

Lemma set_data_allocated h e v el :
  e <> 0 -> elems h !! e = Some el ->
  set_data e v h = Ok tt (with_payload h e v).
Proof.
  intros He Hel. unfold set_data, bind, get_elem, write_elem, with_payload.
  replace (e =? 0) with false by lia. now rewrite Hel.
Qed.

Lemma split_at (ns : list (Z * Z)) i n :
  ns !! i = Some n ->
  ns = take i ns ++ n :: drop (S i) ns /\ length (take i ns) = i.
Proof.
  intros H. split; [symmetry; now apply take_drop_middle|].
  rewrite length_take. apply lookup_lt_Some in H. lia.
Qed.

Lemma represents_with_payload h l cmp ad l1 e de l2 v :
  represents h l cmp ad (l1 ++ (e, de) :: l2) ->
  represents (with_payload h e v) l cmp ad (l1 ++ (e, v) :: l2).
Proof.
  intros [Hl (d & Hd & Hf & Hla & Hnb & Hrest) Hch Hnd Had Hct Hbrk].
  pose proof Hnd as Hnd0.
  apply nodup_split in Hnd. destruct Hnd as (He1 & He2 & H12 & Hnd1 & Hnd2).
  cbn [fst] in *.
  apply chain_app in Hch. destruct Hch as [Hc1 Hch].
  cbn [chain head_addr fst snd] in Hch, Hc1. destruct Hch as [Hme Hc2].
  unfold with_payload. rewrite Hme. cbn [prev next].
  constructor; cbn [elems descs iters brk avail]; auto.
  - exists d. split; [exact Hd|].
    rewrite length_app, head_addr_app, last_addr_app in *.
    cbn [length head_addr last_addr fst] in *. auto.
  - apply chain_app. split.
    + cbn [head_addr fst]. apply (chain_ext (elems h)); [|exact Hc1].
      intros k Hk. specialize (He1 k Hk). now rewrite lookup_insert_ne.
    + cbn [chain head_addr fst snd]. split; [now rewrite lookup_insert_eq|].
      apply (chain_ext (elems h)); [|exact Hc2].
      intros k Hk. specialize (He2 k Hk). now rewrite lookup_insert_ne.
  - rewrite map_app in *. exact Hnd0.
  - intros k Hk. apply in_app_or in Hk. destruct Hk as [Hk|[<-|Hk]].
    + apply Had, in_or_app. now left.
    + apply (Had (e, de)), in_or_app. right. now left.
    + apply Had, in_or_app. right. now right.
  - rewrite length_app in *. exact Hct.
Qed.

Lemma positioned_with_payload h iter l x e v :
  positioned h iter l x -> positioned (with_payload h e v) iter l x.
Proof.
  apply positioned_frame; unfold with_payload;
    destruct (elems h !! e); cbn [iters descs]; eauto.
Qed.

(** *** Reading and replacing through an iterator *)

Lemma iterator_read_at h l cmp ad ns iter i e de :
  represents h l cmp ad ns -> ns !! i = Some (e, de) ->
  positioned h iter l e ->
  iterator_read iter h = Ok (de, SUCCESS) h.
Proof.
  intros Hrep Hn Hp.
  pose proof (rep_in_pos _ _ _ _ _ _ Hrep (lookup_In _ _ _ Hn)) as He.
  pose proof (rep_allocated _ _ _ _ _ _ _ Hrep Hn) as Hel. cbn [fst snd] in *.
  unfold iterator_read. rewrite (positioned_not_null _ _ _ _ Hp).
  unfold bind. rewrite (get_it_positioned _ _ _ _ Hp). cbn [elem].
  replace (e =? 0) with false by lia.
  unfold get_elem. replace (e =? 0) with false by lia. now rewrite Hel.
Qed.

Lemma iterator_edit_at h l cmp ad l1 e de l2 iter v :
  represents h l cmp ad (l1 ++ (e, de) :: l2) ->
  positioned h iter l e ->
  iterator_edit iter v h = Ok SUCCESS (with_payload h e v).
Proof.
  intros Hrep Hp.
  assert (Hn : (l1 ++ (e, de) :: l2) !! length l1 = Some (e, de)).
  { now rewrite list_lookup_middle. }
  pose proof (rep_in_pos _ _ _ _ _ _ Hrep (lookup_In _ _ _ Hn)) as He.
  pose proof (rep_allocated _ _ _ _ _ _ _ Hrep Hn) as Hel. cbn [fst snd] in *.
  unfold iterator_edit. rewrite (positioned_not_null _ _ _ _ Hp).
  unfold bind at 1. rewrite (get_it_positioned _ _ _ _ Hp). cbn [elem].
  unfold bind. rewrite (set_data_allocated h e v _ ltac:(lia) Hel). reflexivity.
Qed.

(** *** Removal through any iterator handle *)

Lemma iterator_get_gen h l cmp ad l1 e de l2 iter :
  represents h l cmp ad (l1 ++ (e, de) :: l2) ->
  positioned h iter l e ->
  ok (iterator_get iter h) (fun r h' =>
    r = (de, SUCCESS) /\ represents h' l cmp ad (l1 ++ l2) /\
    positioned h' iter l (head_addr l2 0) /\ elems h' !! e = None).
Proof.
  intros Hrep Hp.
  assert (He : 0 < e).
  { apply (rep_in_pos _ _ _ _ _ (e, de) Hrep), in_or_app. right. now left. }
  rewrite iterator_get_unlink, (positioned_not_null _ _ _ _ Hp).
  apply ok_bind. rewrite (get_it_positioned _ _ _ _ Hp). cbn [ok elem list_ref].
  replace (e =? 0) with false by lia.
  apply (unlink_k_spec h l cmp ad l1 e de l2 _ _ Hrep).
  intros h' Hrep' Hpos' Hgone Hits.
  apply ok_bind.
  rewrite (set_it_elem_positioned h' iter l e _ (Hpos' _ _ Hp)). cbn [ok].
  apply ok_ret. split; [reflexivity|].
  split; [now apply represents_reposition|].
  split; [apply (reposition_positioned h' iter l e), Hpos', Hp|].
  now rewrite elems_reposition.
Qed.

(** *** Searching *)

Lemma find_loop_found fuel cmp key h : forall l1 p e de l2,
  chain (elems h) p (l1 ++ (e, de) :: l2) 0 ->
  (forall k, In k (l1 ++ (e, de) :: l2) -> 0 < fst k) ->
  Forall (fun n => cmp (snd n) key <> 0) l1 -> cmp de key = 0 ->
  (length l1 < fuel)%nat ->
  find_loop fuel cmp key (head_addr (l1 ++ (e, de) :: l2) 0) h = Ok e h.
Proof.
  induction fuel as [|fuel IH]; intros l1 p e de l2 Hch Hpos Hno Hyes Hfuel; [lia|].
  destruct l1 as [|[a da] l1].
  - cbn [app head_addr fst find_loop] in *. destruct Hch as [Hme _].
    assert (0 < e) by (apply (Hpos (e, de)); now left).
    replace (e =? 0) with false by lia.
    unfold bind, get_elem. replace (e =? 0) with false by lia.
    cbn [fst snd] in Hme. rewrite Hme. cbn [data]. rewrite Hyes. reflexivity.
  - cbn [app head_addr fst find_loop] in *. destruct Hch as [Hma Hch].
    assert (0 < a) by (apply (Hpos (a, da)); now left).
    replace (a =? 0) with false by lia.
    unfold bind, get_elem. replace (a =? 0) with false by lia.
    cbn [fst snd] in Hma. rewrite Hma. cbn [data next].
    apply Forall_cons in Hno. destruct Hno as [Hda Hno]. cbn [snd] in Hda.
    replace (0 =? cmp da key) with false by lia.
    apply (IH l1 a e de l2 Hch); auto.
    + intros k Hk. apply Hpos. now right.
    + cbn [length] in Hfuel. lia.
Qed.

Lemma find_loop_none fuel cmp key h : forall ns p,
  chain (elems h) p ns 0 ->
  (forall k, In k ns -> 0 < fst k) ->
  Forall (fun n => cmp (snd n) key <> 0) ns ->
  (length ns < fuel)%nat ->
  find_loop fuel cmp key (head_addr ns 0) h = Ok 0 h.
Proof.
  induction fuel as [|fuel IH]; intros ns p Hch Hpos Hno Hfuel; [lia|].
  destruct ns as [|[a da] ns].
  - reflexivity.
  - cbn [head_addr fst find_loop] in *. destruct Hch as [Hma Hch].
    assert (0 < a) by (apply (Hpos (a, da)); now left).
    replace (a =? 0) with false by lia.
    unfold bind, get_elem. replace (a =? 0) with false by lia.
    cbn [fst snd] in Hma. rewrite Hma. cbn [data next].
    apply Forall_cons in Hno. destruct Hno as [Hda Hno]. cbn [snd] in Hda.
    replace (0 =? cmp da key) with false by lia.
    apply (IH ns a Hch); auto.
    + intros k Hk. apply Hpos. now right.
    + cbn [length] in Hfuel. lia.
Qed.

Lemma iterator_find_found h l cmp ad l1 e de l2 iter x key fuel :
  represents h l cmp ad (l1 ++ (e, de) :: l2) ->
  positioned h iter l x ->
  Forall (fun n => cmp (snd n) key <> 0) l1 -> cmp de key = 0 ->
  (length l1 < fuel)%nat ->
  iterator_find fuel iter key h = Ok SUCCESS (reposition h iter e).
Proof.
  intros Hrep Hp Hno Hyes Hfuel.
  assert (He : 0 < e).
  { apply (rep_in_pos _ _ _ _ _ (e, de) Hrep), in_or_app. right. now left. }
  destruct Hrep as [Hl (d & Hd & Hf & _ & _ & Hc & _) Hch _ Had _ _].
  unfold iterator_find. rewrite (positioned_not_null _ _ _ _ Hp).
  unfold bind at 1. rewrite (get_it_positioned _ _ _ _ Hp). cbn [list_ref].
  unfold bind at 1. unfold get_desc. replace (l =? 0) with false by lia.
  rewrite Hd. unfold bind at 1. rewrite Hf, Hc.
  rewrite (find_loop_found fuel cmp key h l1 0 e de l2 Hch); auto.
  - replace (e =? 0) with false by lia. unfold bind.
    now rewrite (set_it_elem_positioned h iter l x).
  - intros k Hk. apply Had, Hk.
Qed.

Lemma iterator_find_none h l cmp ad ns iter x key fuel :
  represents h l cmp ad ns ->
  positioned h iter l x ->
  Forall (fun n => cmp (snd n) key <> 0) ns ->
  (length ns < fuel)%nat ->
  iterator_find fuel iter key h = Ok FAILURE h.
Proof.
  intros Hrep Hp Hno Hfuel.
  destruct Hrep as [Hl (d & Hd & Hf & _ & _ & Hc & _) Hch _ Had _ _].
  unfold iterator_find. rewrite (positioned_not_null _ _ _ _ Hp).
  unfold bind at 1. rewrite (get_it_positioned _ _ _ _ Hp). cbn [list_ref].
  unfold bind at 1. unfold get_desc. replace (l =? 0) with false by lia.
  rewrite Hd. unfold bind at 1. rewrite Hf, Hc.
  rewrite (find_loop_none fuel cmp key h ns 0 Hch); auto.
  intros k Hk. apply Had, Hk.
Qed.

(** *** The walks of the index and find functions *)

Lemma s32_small x : 0 <= x <= INT32_MAX -> s32 x = x.
Proof.
  unfold INT32_MAX, s32. intros Hx. rewrite u32_small by lia.
  now replace (x <? 2147483648) with true by lia.
Qed.

(** The walks of the [list_*_idx] and [list_*_find] functions start by
    putting the list's own iterator on the first node. *)
Lemma start_at_first h l cmp ad ns :
  represents h l cmp ad ns ->
  exists d, get_desc l h = Ok d h /\ first d = head_addr ns 0 /\
    nb_elements d = Z.of_nat (length ns) /\
    set_l_it_elem l (first d) h
      = Ok tt (reposition h (Iter_l_it l) (head_addr ns 0)).
Proof.
  intros Hrep. destruct (l_it_positioned _ _ _ _ _ Hrep) as [x Hx].
  destruct Hrep as [Hl (d & Hd & Hf & _ & Hnb & _) _ _ _ _ _].
  exists d. unfold get_desc. replace (l =? 0) with false by lia.
  rewrite Hd, Hf. repeat split; [exact Hnb|].
  apply (set_it_elem_positioned h (Iter_l_it l) l x _ Hx).
Qed.

Lemma at_first h l cmp ad ns n :
  represents h l cmp ad ns -> ns !! 0%nat = Some n ->
  at_index (reposition h (Iter_l_it l) (head_addr ns 0)) (Iter_l_it l) l ns 0.
Proof.
  intros Hrep Hn. destruct (l_it_positioned _ _ _ _ _ Hrep) as [x Hx].
  exists n. split; [exact Hn|].
  destruct ns as [|n0 ns]; [discriminate|]. injection Hn as ->.
  cbn [head_addr]. now apply (reposition_positioned h _ l x).
Qed.

(** Where the walk of a [list_*_idx] function ends. *)
Lemma walk_to_idx h l cmp ad ns idx :
  represents h l cmp ad ns -> 0 <= idx <= INT32_MAX ->
  exists d, get_desc l h = Ok d h /\
    nb_elements d = Z.of_nat (length ns) /\
    forall (A : Type) (k : Z -> M A),
    (let! _ := set_l_it_elem l (first d) in
     let! rc := iterator_move (Iter_l_it l) (s32 idx) in
     k rc) h =
      if idx <? Z.of_nat (length ns)
      then k SUCCESS (reposition h (Iter_l_it l) (addr_at ns (Z.to_nat idx)))
      else k FAILURE (reposition h (Iter_l_it l) (head_addr ns 0)).
Proof.
  intros Hrep Hidx.
  destruct (start_at_first _ _ _ _ _ Hrep) as (d & Hd & Hf & Hnb & Hset).
  exists d. split; [exact Hd|]. split; [exact Hnb|]. intros A k.
  unfold bind at 1. rewrite Hset, s32_small by exact Hidx. unfold bind at 1.
  destruct (l_it_positioned _ _ _ _ _ Hrep) as [x Hx].
  destruct ns as [|n0 ns].
  - cbn [length head_addr]. change (Z.of_nat 0) with 0.
    replace (idx <? 0) with false by lia.
    unfold iterator_move. cbn [is_null]. pose proof Hrep as [Hl _ _ _ _ _ _].
    replace (l =? 0) with false by lia.
    unfold bind at 1.
    rewrite (get_it_positioned _ _ l 0)
      by (apply (reposition_positioned h _ l x), Hx).
    cbn [elem]. unfold bind.
    destruct (Z.to_nat (abs idx)); reflexivity.
  - rewrite (iterator_move_gen _ l cmp ad (n0 :: ns) (Iter_l_it l) 0 idx).
    + change (Z.of_nat 0) with 0. rewrite !Z.add_0_l.
      replace (0 <=? idx) with true by lia. cbn [andb].
      destruct (idx <? _); [|reflexivity].
      now rewrite (reposition_twice h _ l x).
    + now apply represents_reposition.
    + now apply (at_first h l cmp ad (n0 :: ns) n0).
    + unfold INT32_MIN, INT32_MAX in *. lia.
Qed.

Lemma addr_at_middle (l1 l2 : list (Z * Z)) n :
  addr_at (l1 ++ n :: l2) (length l1) = fst n.
Proof. unfold addr_at. now rewrite list_lookup_middle. Qed.

(** Where the walk of a [list_*_find] function ends. *)
Lemma walk_to_match h l cmp ad l1 e de l2 key fuel :
  represents h l cmp ad (l1 ++ (e, de) :: l2) ->
  Forall (fun n => cmp (snd n) key <> 0) l1 -> cmp de key = 0 ->
  (length l1 < fuel)%nat ->
  exists d, get_desc l h = Ok d h /\
    forall (A : Type) (k : Z -> M A),
    (let! _ := set_l_it_elem l (first d) in
     let! rc := iterator_find fuel (Iter_l_it l) key in
     k rc) h = k SUCCESS (reposition h (Iter_l_it l) e).
Proof.
  intros Hrep Hno Hyes Hfuel.
  destruct (start_at_first _ _ _ _ _ Hrep) as (d & Hd & Hf & Hnb & Hset).
  exists d. split; [exact Hd|]. intros A k. unfold bind. rewrite Hset.
  destruct (l_it_positioned _ _ _ _ _ Hrep) as [x Hx].
  rewrite (iterator_find_found _ l cmp ad l1 e de l2 (Iter_l_it l)
             (head_addr (l1 ++ (e, de) :: l2) 0) key fuel); auto.
  - now rewrite (reposition_twice h _ l x).
  - now apply represents_reposition.
  - now apply (reposition_positioned h _ l x).
Qed.

Lemma walk_without_match h l cmp ad ns key fuel :
  represents h l cmp ad ns ->
  Forall (fun n => cmp (snd n) key <> 0) ns ->
  (length ns < fuel)%nat ->
  exists d, get_desc l h = Ok d h /\
    forall (A : Type) (k : Z -> M A),
    (let! _ := set_l_it_elem l (first d) in
     let! rc := iterator_find fuel (Iter_l_it l) key in
     k rc) h = k FAILURE (reposition h (Iter_l_it l) (head_addr ns 0)).
Proof.
  intros Hrep Hno Hfuel.
  destruct (start_at_first _ _ _ _ _ Hrep) as (d & Hd & Hf & Hnb & Hset).
  exists d. split; [exact Hd|]. intros A k. unfold bind. rewrite Hset.
  destruct (l_it_positioned _ _ _ _ _ Hrep) as [x Hx].
  rewrite (iterator_find_none _ l cmp ad ns (Iter_l_it l)
             (head_addr ns 0) key fuel); auto.
  - now apply represents_reposition.
  - now apply (reposition_positioned h _ l x).
Qed.

Lemma find_split (cmp : f_cmp) key (ns : list (Z * Z)) :
  match find (fun n => 0 =? cmp (snd n) key) ns with
  | Some n => exists l1 l2, ns = l1 ++ n :: l2 /\
                Forall (fun k => cmp (snd k) key <> 0) l1 /\
                cmp (snd n) key = 0
  | None => Forall (fun k => cmp (snd k) key <> 0) ns
  end.
Proof.
  induction ns as [|k ns IH]; cbn [find]; [constructor|].
  destruct (Z.eqb_spec 0 (cmp (snd k) key)) as [Heq|Hne].
  - exists [], ns. repeat split; [constructor | lia].
  - destruct (find _ ns) as [n|].
    + destruct IH as (l1 & l2 & -> & Hno & Hyes).
      exists (k :: l1), l2. repeat split; [|exact Hyes].
      constructor; [lia | exact Hno].
    + constructor; [lia | exact IH].
Qed.

(** X27. [list_read_find] returns the payload of the first node, from the head
    on, that the comparator reports equal to [cmp_data], and a failure when
    there is none. The nodes and their order are as before. *)
Theorem list_read_find_first_match h l cmp ad ns key fuel :
  represents h l cmp ad ns -> (length ns < fuel)%nat ->
  exists h',
    list_read_find fuel l key h =
      Ok (match find (fun n => 0 =? cmp (snd n) key) ns with
          | Some n => (snd n, SUCCESS)
          | None => (0, FAILURE)
          end) h' /\
    represents h' l cmp ad ns /\ elems h' = elems h.
Proof.
  intros Hrep Hfuel. pose proof Hrep as [Hl _ _ _ _ _ _].
  unfold list_read_find. replace (l =? 0) with false by lia.
  pose proof (find_split cmp key ns) as Hfind.
  destruct (find _ ns) as [[e de]|].
  - destruct Hfind as (l1 & l2 & -> & Hno & Hyes). cbn [snd] in *.
    destruct (walk_to_match h l cmp ad l1 e de l2 key fuel Hrep Hno Hyes)
      as (d & Hd & Hwalk).
    { rewrite length_app in Hfuel. lia. }
    exists (reposition h (Iter_l_it l) e).
    split; [|split; [now apply represents_reposition | apply elems_reposition]].
    unfold bind at 1. rewrite Hd.
    rewrite Hwalk. cbn [negb Z.eqb SUCCESS].
    destruct (l_it_positioned _ _ _ _ _ Hrep) as [x Hx].
    apply (iterator_read_at _ l cmp ad (l1 ++ (e, de) :: l2) _ (length l1) e de).
    + now apply represents_reposition.
    + now rewrite list_lookup_middle.
    + now apply (reposition_positioned h _ l x).
  - destruct (walk_without_match h l cmp ad ns key fuel Hrep Hfind Hfuel)
      as (d & Hd & Hwalk).
    exists (reposition h (Iter_l_it l) (head_addr ns 0)).
    split; [|split; [now apply represents_reposition | apply elems_reposition]].
    unfold bind at 1. rewrite Hd.
    rewrite Hwalk. reflexivity.
Qed.

Lemma list_read_find_first_match_witness :
  exists h',
    list_read_find 4 1 20 (sample_list 2) =
      Ok (match find (fun n => 0 =? Z.sub (snd n) 20)
                  [(2, 10); (3, 20); (4, 30)] with
          | Some n => (snd n, SUCCESS)
          | None => (0, FAILURE)
          end) h' /\
    represents h' 1 Z.sub (adapter_of LIST_DEFAULT 1)
      [(2, 10); (3, 20); (4, 30)] /\
    elems h' = elems (sample_list 2).
Proof.
  apply (list_read_find_first_match (sample_list 2) 1 Z.sub
           (adapter_of LIST_DEFAULT 1) [(2, 10); (3, 20); (4, 30)] 20 4).
  - sample_represents.
  - simpl. lia.
Defined.

(** X28. [list_edit_find] replaces the payload of the first node that the
    comparator reports equal to [cmp_data]; the other nodes, the order and
    the count are as before. *)
Theorem list_edit_find_replaces_first_match h l cmp ad l1 e de l2 key v fuel :
  represents h l cmp ad (l1 ++ (e, de) :: l2) ->
  Forall (fun n => cmp (snd n) key <> 0) l1 -> cmp de key = 0 ->
  (length l1 < fuel)%nat ->
  exists h',
    list_edit_find fuel l v key h = Ok SUCCESS h' /\
    represents h' l cmp ad (l1 ++ (e, v) :: l2).
Proof.
  intros Hrep Hno Hyes Hfuel. pose proof Hrep as [Hl _ _ _ _ _ _].
  destruct (walk_to_match h l cmp ad l1 e de l2 key fuel Hrep Hno Hyes Hfuel)
    as (d & Hd & Hwalk).
  destruct (l_it_positioned _ _ _ _ _ Hrep) as [x Hx].
  exists (with_payload (reposition h (Iter_l_it l) e) e v).
  split.
  - unfold list_edit_find. replace (l =? 0) with false by lia.
    unfold bind at 1. rewrite Hd, Hwalk. cbn [negb Z.eqb SUCCESS].
    apply (iterator_edit_at _ l cmp ad l1 e de l2).
    + now apply represents_reposition.
    + now apply (reposition_positioned h _ l x).
  - apply represents_with_payload with (de := de).
    now apply represents_reposition.
Qed.

Lemma list_edit_find_replaces_first_match_witness :
  exists h',
    list_edit_find 4 1 25 20 (sample_list 2) = Ok SUCCESS h' /\
    represents h' 1 Z.sub (adapter_of LIST_DEFAULT 1)
      ([(2, 10)] ++ (3, 25) :: [(4, 30)]).
Proof.
  apply (list_edit_find_replaces_first_match (sample_list 2) 1 Z.sub
           (adapter_of LIST_DEFAULT 1) [(2, 10)] 3 20 [(4, 30)] 20 25 4).
  - sample_represents.
  - repeat constructor. simpl. lia.
  - reflexivity.
  - simpl. lia.
Defined.

(** X29. [list_get_find] unlinks and releases the first node that the
    comparator reports equal to [cmp_data] and returns its payload; the
    nodes before and after it keep their order. *)
Theorem list_get_find_removes_first_match h l cmp ad l1 e de l2 key fuel :
  represents h l cmp ad (l1 ++ (e, de) :: l2) ->
  Forall (fun n => cmp (snd n) key <> 0) l1 -> cmp de key = 0 ->
  (length l1 < fuel)%nat ->
  exists h',
    list_get_find fuel l key h = Ok (de, SUCCESS) h' /\
    represents h' l cmp ad (l1 ++ l2) /\ elems h' !! e = None.
Proof.
  intros Hrep Hno Hyes Hfuel. pose proof Hrep as [Hl _ _ _ _ _ _].
  destruct (walk_to_match h l cmp ad l1 e de l2 key fuel Hrep Hno Hyes Hfuel)
    as (d & Hd & Hwalk).
  destruct (l_it_positioned _ _ _ _ _ Hrep) as [x Hx].
  destruct (ok_elim _ _
    (iterator_get_gen (reposition h (Iter_l_it l) e) l cmp ad l1 e de l2
       (Iter_l_it l)
       (represents_reposition _ _ _ _ _ _ _ Hrep)
       (reposition_positioned h _ l x e Hx)))
    as (r & h' & Hget & -> & Hrep' & _ & Hgone).
  exists h'. split; [|split; assumption].
  unfold list_get_find. replace (l =? 0) with false by lia.
  unfold bind at 1. rewrite Hd, Hwalk. cbn [negb Z.eqb SUCCESS]. exact Hget.
Qed.

Lemma list_get_find_removes_first_match_witness :
  exists h',
    list_get_find 4 1 20 (sample_list 2) = Ok (20, SUCCESS) h' /\
    represents h' 1 Z.sub (adapter_of LIST_DEFAULT 1)
      ([(2, 10)] ++ [(4, 30)]) /\
    elems h' !! 3 = None.
Proof.
  apply (list_get_find_removes_first_match (sample_list 2) 1 Z.sub
           (adapter_of LIST_DEFAULT 1) [(2, 10)] 3 20 [(4, 30)] 20 4).
  - sample_represents.
  - repeat constructor. simpl. lia.
  - reflexivity.
  - simpl. lia.
Defined.

(** X30. When no node compares equal to [cmp_data], [list_edit_find] and
    [list_get_find] report a failure and the list holds the same nodes in
    the same order. *)
Theorem find_without_match_keeps_list h l cmp ad ns key v fuel :
  represents h l cmp ad ns ->
  Forall (fun n => cmp (snd n) key <> 0) ns ->
  (length ns < fuel)%nat ->
  exists h',
    list_edit_find fuel l v key h = Ok FAILURE h' /\
    list_get_find fuel l key h = Ok (0, FAILURE) h' /\
    represents h' l cmp ad ns /\ elems h' = elems h.
Proof.
  intros Hrep Hno Hfuel. pose proof Hrep as [Hl _ _ _ _ _ _].
  destruct (walk_without_match h l cmp ad ns key fuel Hrep Hno Hfuel)
    as (d & Hd & Hwalk).
  exists (reposition h (Iter_l_it l) (head_addr ns 0)).
  split; [|split; [|split;
    [now apply represents_reposition | apply elems_reposition]]].
  - unfold list_edit_find. replace (l =? 0) with false by lia.
    unfold bind at 1. now rewrite Hd, Hwalk.
  - unfold list_get_find. replace (l =? 0) with false by lia.
    unfold bind at 1. now rewrite Hd, Hwalk.
Qed.

Lemma find_without_match_keeps_list_witness :
  exists h',
    list_edit_find 4 1 25 99 (sample_list 2) = Ok FAILURE h' /\
    list_get_find 4 1 99 (sample_list 2) = Ok (0, FAILURE) h' /\
    represents h' 1 Z.sub (adapter_of LIST_DEFAULT 1)
      [(2, 10); (3, 20); (4, 30)] /\
    elems h' = elems (sample_list 2).
Proof.
  apply (find_without_match_keeps_list (sample_list 2) 1 Z.sub
           (adapter_of LIST_DEFAULT 1) [(2, 10); (3, 20); (4, 30)] 99 25 4).
  - sample_represents.
  - repeat constructor; simpl; lia.
  - simpl. lia.
Defined.

(** X23. [list_read_idx] returns the payload of the node at position [idx],
    counted from 0 at the head, and a failure when the list has no such
    position. The nodes and their order are as before. *)
Theorem list_read_idx_nth h l cmp ad ns idx :
  represents h l cmp ad ns -> 0 <= idx <= INT32_MAX ->
  exists h',
    list_read_idx l idx h =
      Ok (match ns !! Z.to_nat idx with
          | Some n => (snd n, SUCCESS)
          | None => (0, FAILURE)
          end) h' /\
    represents h' l cmp ad ns /\ elems h' = elems h.
Proof.
  intros Hrep Hidx. pose proof Hrep as [Hl _ _ _ _ _ _].
  destruct (walk_to_idx h l cmp ad ns idx Hrep Hidx) as (d & Hd & Hnb & Hwalk).
  destruct (l_it_positioned _ _ _ _ _ Hrep) as [x Hx].
  unfold list_read_idx. replace (l =? 0) with false by lia.
  unfold bind at 1. rewrite Hd, Hnb, Z.geb_leb.
  destruct (Z.leb_spec (Z.of_nat (length ns)) idx) as [Hout|Hin].
  - rewrite lookup_ge_None_2 by lia. exists h. auto.
  - rewrite Hwalk. replace (idx <? Z.of_nat (length ns)) with true by lia.
    cbn [negb Z.eqb SUCCESS].
    destruct (lookup_lt_is_Some_2 ns (Z.to_nat idx) ltac:(lia)) as [[e de] Hn].
    rewrite Hn. cbn [snd].
    exists (reposition h (Iter_l_it l) (addr_at ns (Z.to_nat idx))).
    split; [|split; [now apply represents_reposition | apply elems_reposition]].
    apply (iterator_read_at _ l cmp ad ns _ (Z.to_nat idx) e de).
    + now apply represents_reposition.
    + exact Hn.
    + unfold addr_at. rewrite Hn. now apply (reposition_positioned h _ l x).
Qed.

Lemma list_read_idx_nth_witness :
  exists h',
    list_read_idx 1 1 (sample_list 2) =
      Ok (match [(2, 10); (3, 20); (4, 30)] !! Z.to_nat 1 with
          | Some n => (snd n, SUCCESS)
          | None => (0, FAILURE)
          end) h' /\
    represents h' 1 Z.sub (adapter_of LIST_DEFAULT 1)
      [(2, 10); (3, 20); (4, 30)] /\
    elems h' = elems (sample_list 2).
Proof.
  apply (list_read_idx_nth (sample_list 2) 1 Z.sub
           (adapter_of LIST_DEFAULT 1) [(2, 10); (3, 20); (4, 30)] 1).
  - sample_represents.
  - unfold INT32_MAX. lia.
Defined.

(** X24. [list_edit_idx] replaces the payload of the node at position [idx];
    the other nodes, the order and the count are as before. *)
Theorem list_edit_idx_replaces_nth h l cmp ad l1 e de l2 v :
  represents h l cmp ad (l1 ++ (e, de) :: l2) ->
  Z.of_nat (length l1) <= INT32_MAX ->
  exists h',
    list_edit_idx l v (Z.of_nat (length l1)) h = Ok SUCCESS h' /\
    represents h' l cmp ad (l1 ++ (e, v) :: l2).
Proof.
  intros Hrep Hidx. pose proof Hrep as [Hl _ _ _ _ _ _].
  destruct (walk_to_idx h l cmp ad _ (Z.of_nat (length l1)) Hrep ltac:(lia))
    as (d & Hd & Hnb & Hwalk).
  destruct (l_it_positioned _ _ _ _ _ Hrep) as [x Hx].
  exists (with_payload (reposition h (Iter_l_it l) e) e v).
  split.
  - unfold list_edit_idx. replace (l =? 0) with false by lia.
    unfold bind at 1. rewrite Hd, Hwalk.
    rewrite length_app. cbn [length].
    destruct (Z.ltb_spec (Z.of_nat (length l1))
                (Z.of_nat (length l1 + S (length l2)))); [|lia].
    cbn [negb Z.eqb SUCCESS].
    rewrite Nat2Z.id, addr_at_middle. cbn [fst].
    apply (iterator_edit_at _ l cmp ad l1 e de l2).
    + now apply represents_reposition.
    + now apply (reposition_positioned h _ l x).
  - apply represents_with_payload with (de := de).
    now apply represents_reposition.
Qed.

Lemma list_edit_idx_replaces_nth_witness :
  exists h',
    list_edit_idx 1 25 (Z.of_nat (length [(2, 10)])) (sample_list 2)
      = Ok SUCCESS h' /\
    represents h' 1 Z.sub (adapter_of LIST_DEFAULT 1)
      ([(2, 10)] ++ (3, 25) :: [(4, 30)]).
Proof.
  apply (list_edit_idx_replaces_nth (sample_list 2) 1 Z.sub
           (adapter_of LIST_DEFAULT 1) [(2, 10)] 3 20 [(4, 30)] 25).
  - sample_represents.
  - unfold INT32_MAX. simpl. lia.
Defined.

(** X25. [list_get_idx] unlinks and releases the node at position [idx] and
    returns its payload; the nodes before and after it keep their order. *)
Theorem list_get_idx_removes_nth h l cmp ad l1 e de l2 :
  represents h l cmp ad (l1 ++ (e, de) :: l2) ->
  Z.of_nat (length l1) <= INT32_MAX ->
  exists h',
    list_get_idx l (Z.of_nat (length l1)) h = Ok (de, SUCCESS) h' /\
    represents h' l cmp ad (l1 ++ l2) /\ elems h' !! e = None.
Proof.
  intros Hrep Hidx. pose proof Hrep as [Hl _ _ _ _ _ _].
  destruct (walk_to_idx h l cmp ad _ (Z.of_nat (length l1)) Hrep ltac:(lia))
    as (d & Hd & Hnb & Hwalk).
  destruct (l_it_positioned _ _ _ _ _ Hrep) as [x Hx].
  destruct (ok_elim _ _
    (iterator_get_gen (reposition h (Iter_l_it l) e) l cmp ad l1 e de l2
       (Iter_l_it l)
       (represents_reposition _ _ _ _ _ _ _ Hrep)
       (reposition_positioned h _ l x e Hx)))
    as (r & h' & Hget & -> & Hrep' & _ & Hgone).
  exists h'. split; [|split; assumption].
  unfold list_get_idx. replace (l =? 0) with false by lia.
  unfold bind at 1. rewrite Hd, Hwalk.
  rewrite length_app. cbn [length].
  destruct (Z.ltb_spec (Z.of_nat (length l1))
              (Z.of_nat (length l1 + S (length l2)))); [|lia].
  cbn [negb Z.eqb SUCCESS].
  rewrite Nat2Z.id, addr_at_middle. exact Hget.
Qed.

Lemma list_get_idx_removes_nth_witness :
  exists h',
    list_get_idx 1 (Z.of_nat (length [(2, 10)])) (sample_list 2)
      = Ok (20, SUCCESS) h' /\
    represents h' 1 Z.sub (adapter_of LIST_DEFAULT 1)
      ([(2, 10)] ++ [(4, 30)]) /\
    elems h' !! 3 = None.
Proof.
  apply (list_get_idx_removes_nth (sample_list 2) 1 Z.sub
           (adapter_of LIST_DEFAULT 1) [(2, 10)] 3 20 [(4, 30)]).
  - sample_represents.
  - unfold INT32_MAX. simpl. lia.
Defined.

(** X26. With an index at or beyond the end of the list, [list_edit_idx] and
    [list_get_idx] report a failure and the list holds the same nodes in the
    same order. *)
Theorem idx_beyond_end_keeps_list h l cmp ad ns idx v :
  represents h l cmp ad ns ->
  Z.of_nat (length ns) <= idx <= INT32_MAX ->
  exists h',
    list_edit_idx l v idx h = Ok FAILURE h' /\
    list_get_idx l idx h = Ok (0, FAILURE) h' /\
    represents h' l cmp ad ns /\ elems h' = elems h.
Proof.
  intros Hrep Hidx. pose proof Hrep as [Hl _ _ _ _ _ _].
  destruct (walk_to_idx h l cmp ad ns idx Hrep ltac:(lia))
    as (d & Hd & Hnb & Hwalk).
  exists (reposition h (Iter_l_it l) (head_addr ns 0)).
  split; [|split; [|split;
    [now apply represents_reposition | apply elems_reposition]]].
  - unfold list_edit_idx. replace (l =? 0) with false by lia.
    unfold bind at 1. rewrite Hd, Hwalk.
    now replace (idx <? Z.of_nat (length ns)) with false by lia.
  - unfold list_get_idx. replace (l =? 0) with false by lia.
    unfold bind at 1. rewrite Hd, Hwalk.
    now replace (idx <? Z.of_nat (length ns)) with false by lia.
Qed.

Lemma idx_beyond_end_keeps_list_witness :
  exists h',
    list_edit_idx 1 25 3 (sample_list 2) = Ok FAILURE h' /\
    list_get_idx 1 3 (sample_list 2) = Ok (0, FAILURE) h' /\
    represents h' 1 Z.sub (adapter_of LIST_DEFAULT 1)
      [(2, 10); (3, 20); (4, 30)] /\
    elems h' = elems (sample_list 2).
Proof.
  apply (idx_beyond_end_keeps_list (sample_list 2) 1 Z.sub
           (adapter_of LIST_DEFAULT 1) [(2, 10); (3, 20); (4, 30)] 3 25).
  - sample_represents.
  - unfold INT32_MAX. simpl. lia.
Defined.

(** *** Removal at the back *)

Lemma list_get_last_spec h l cmp ad l1 e de :
  represents h l cmp ad (l1 ++ [(e, de)]) ->
  ok (list_get_last l h) (fun r h' =>
    r = (de, SUCCESS) /\ represents h' l cmp ad l1 /\
    elems h' !! e = None /\ brk h' = brk h /\ avail h' = avail h).
Proof.
  intros [Hl (d & Hd & Hf & Hla & Hnb & Hc & Ha & Hit & Hal) Hch Hnd Had Hct Hbrk].
  destruct h as [m ds its b av]. heap_simpl_in.
  destruct d as [fd ld nbd cd nid [itl ite] add]. heap_simpl_in. subst cd add itl.
  pose proof Hnd as Hnd0.
  apply nodup_split in Hnd. destruct Hnd as (He1 & _ & _ & Hnd1 & _).
  cbn [fst] in *.
  assert (Heb : 0 < e < b) by (apply (Had (e, de)), in_or_app; right; now left).
  apply chain_app in Hch. destruct Hch as [Hc1 Hch].
  cbn [chain head_addr fst snd] in Hch, Hc1. destruct Hch as [Hme _].
  rewrite length_app, head_addr_app, last_addr_app in *.
  cbn [length head_addr last_addr fst] in *.
  assert (Had' : forall k, In k l1 -> 0 < fst k < b).
  { intros k0 Hk0. apply Had, in_or_app. now left. }
  unfold list_get_last.
  destruct l1 as [|k1 l1'] using rev_ind; [|clear IHl1'].
  - (* the only element *)
    cbn [app head_addr last_addr length] in *. subst fd ld nbd.
    repeat wp_step.
    split; [reflexivity|].
    split; [|split; [heap_simpl; lk; reflexivity | split; reflexivity]].
    constructor; heap_simpl;
      [ lia | | exact I | apply NoDup_nil_2 | intros k0 [] | simpl; lia | lia ].
    eexists. split; [lk; reflexivity|]. pure_tests. desc_simpl.
    repeat split; auto.
  - (* the last of several *)
    destruct k1 as [p dp]. rewrite last_addr_app in *. cbn [last_addr fst] in *.
    apply chain_app in Hc1. destruct Hc1 as [Hc1 [Hmp _]].
    cbn [head_addr fst snd] in *.
    assert (Hpb : 0 < p < b) by (apply (Had' (p, dp)), in_or_app; right; now left).
    assert (Hpe : p <> e) by (apply (He1 (p, dp)), in_or_app; right; now left).
    assert (Hfb : 0 < fd < b /\ fd <> e).
    { rewrite Hf. split.
      - apply head_addr_bounds; [destruct l1'; discriminate|].
        intros k0 Hk0. apply Had, in_or_app. now left.
      - destruct l1' as [|k0 l1'']; cbn [app head_addr fst]; [lia|].
        apply He1. now left. }
    subst ld.
    assert (Hnz : nbd <> 0) by (rewrite length_app in *; cbn [length] in *; lia).
    repeat wp_step.
    split; [reflexivity|].
    split; [|split; [heap_simpl; lk; reflexivity | split; reflexivity]].
    constructor; heap_simpl; [ lia | | | exact Hnd1 | exact Had' | | lia ].
    + eexists. split; [lk; reflexivity|]. pure_tests. desc_simpl.
      rewrite u32_small by (rewrite length_app in *; cbn [length] in *; lia).
      rewrite ?length_app, ?head_addr_app, ?last_addr_app.
      cbn [length head_addr last_addr fst app].
      rewrite length_app in *. cbn [length] in *.
      rewrite ?head_addr_app in Hf. cbn [head_addr fst] in Hf.
      repeat split; auto; lia.
    + apply chain_app. split; [|cbn [chain head_addr fst snd]; split; [lk; reflexivity | exact I]].
      cbn [head_addr fst]. apply (chain_ext m); [|exact Hc1]. intros k0 Hk0.
      assert (fst k0 <> e) by (apply He1, in_or_app; now left).
      assert (fst k0 <> p).
      { apply (nodup_split l1' [] (p, dp)) in Hnd1. destruct Hnd1 as (Hn1 & _).
        now apply Hn1. }
      lk. reflexivity.
    + rewrite !length_app in *. cbn [length] in *. lia.
Qed.

Lemma list_get_last_empty h l cmp ad :
  represents h l cmp ad [] ->
  list_get_last l h = Ok (0, FAILURE) h.
Proof.
  intros [Hl (d & Hd & Hf & Hla & Hnb & _) _ _ _ _ _].
  unfold list_get_last, bind, get_desc.
  replace (l =? 0) with false by lia.
  rewrite Hd, Hnb. reflexivity.
Qed.

(** *** The ends of the list *)

Lemma rev_snoc_inv (ns : list (Z * Z)) n t :
  rev ns = n :: t -> ns = rev t ++ [n].
Proof.
  intros H. rewrite <- (rev_involutive ns), H. reflexivity.
Qed.

Lemma rep_first_allocated h l cmp ad e de t :
  represents h l cmp ad ((e, de) :: t) ->
  0 < e /\ exists d, descs h !! l = Some d /\ first d = e /\
    elems h !! e = Some (mk_elem de 0 (head_addr t 0)).
Proof.
  intros [Hl (d & Hd & Hf & _) [Hme _] _ Had _ _].
  split; [apply (Had (e, de)); now left|].
  exists d. repeat split; assumption.
Qed.

Lemma rep_last_allocated h l cmp ad i e de :
  represents h l cmp ad (i ++ [(e, de)]) ->
  0 < e /\ exists d, descs h !! l = Some d /\ last d = e /\
    elems h !! e = Some (mk_elem de (last_addr i 0) 0).
Proof.
  intros [Hl (d & Hd & _ & Hla & _) Hch _ Had _ _].
  split; [apply (Had (e, de)), in_or_app; right; now left|].
  apply chain_app in Hch. destruct Hch as [_ [Hme _]].
  exists d. rewrite last_addr_app in Hla. repeat split; assumption.
Qed.

Lemma list_read_ends_spec h l cmp ad ns :
  represents h l cmp ad ns ->
  list_read_first l h =
    Ok (match ns with
        | [] => (0, FAILURE)
        | n :: _ => (snd n, SUCCESS)
        end) h /\
  list_read_last l h =
    Ok (match rev ns with
        | [] => (0, FAILURE)
        | n :: _ => (snd n, SUCCESS)
        end) h.
Proof.
  intros Hrep. pose proof Hrep as [Hl (d & Hd & Hf & Hla & _) _ _ _ _ _].
  unfold list_read_first, list_read_last, bind, get_desc.
  replace (l =? 0) with false by lia. rewrite Hd. split.
  - destruct ns as [|[e de] t].
    + cbn [head_addr] in Hf. now rewrite Hf.
    + destruct (rep_first_allocated _ _ _ _ _ _ _ Hrep)
        as (He & d' & Hd' & Hf' & Hme).
      rewrite Hd in Hd'. injection Hd' as <-. rewrite Hf'.
      replace (e =? 0) with false by lia. unfold get_elem.
      replace (e =? 0) with false by lia. now rewrite Hme.
  - destruct (rev ns) as [|[e de] t] eqn:Hrev.
    + apply (f_equal (@rev _)) in Hrev. rewrite rev_involutive in Hrev.
      subst ns. cbn [last_addr rev] in Hla. now rewrite Hla.
    + apply rev_snoc_inv in Hrev. subst ns.
      destruct (rep_last_allocated _ _ _ _ _ _ _ Hrep)
        as (He & d' & Hd' & Hf' & Hme).
      rewrite Hd in Hd'. injection Hd' as <-. rewrite Hf'.
      replace (e =? 0) with false by lia. unfold get_elem.
      replace (e =? 0) with false by lia. now rewrite Hme.
Qed.

(** X7. [list_read_first] and [list_read_last] return the payload of the
    first and of the last node and change nothing, neither the list nor
    anything else on the heap; on an empty list they report a failure. *)
Theorem list_read_ends h l cmp ad ns :
  represents h l cmp ad ns ->
  list_read_first l h =
    Ok (match ns with
        | [] => (0, FAILURE)
        | n :: _ => (snd n, SUCCESS)
        end) h /\
  list_read_last l h =
    Ok (match rev ns with
        | [] => (0, FAILURE)
        | n :: _ => (snd n, SUCCESS)
        end) h.
Proof. apply list_read_ends_spec. Qed.

(** X8. On a list that is not empty, [list_edit_first] replaces the payload
    of the first node and [list_edit_last] that of the last node; the other
    nodes, the order and the count are as before. *)
Theorem list_edit_ends h l cmp ad ns e1 d1 t i e2 d2 v :
  represents h l cmp ad ns ->
  ns = (e1, d1) :: t -> ns = i ++ [(e2, d2)] ->
  (exists h', list_edit_first l v h = Ok SUCCESS h' /\
              represents h' l cmp ad ((e1, v) :: t)) /\
  (exists h', list_edit_last l v h = Ok SUCCESS h' /\
              represents h' l cmp ad (i ++ [(e2, v)])).
Proof.
  intros Hrep Hhd Htl. pose proof Hrep as [Hl _ _ _ _ _ _]. split.
  - rewrite Hhd in Hrep.
    destruct (rep_first_allocated _ _ _ _ _ _ _ Hrep)
      as (He & d & Hd & Hf & Hme).
    exists (with_payload h e1 v). split.
    + unfold list_edit_first, bind at 1, get_desc.
      replace (l =? 0) with false by lia. rewrite Hd, Hf. unfold bind.
      now rewrite (set_data_allocated h e1 v _ ltac:(lia) Hme).
    + apply (represents_with_payload h l cmp ad [] e1 d1 t v Hrep).
  - rewrite Htl in Hrep.
    destruct (rep_last_allocated _ _ _ _ _ _ _ Hrep)
      as (He & d & Hd & Hf & Hme).
    exists (with_payload h e2 v). split.
    + unfold list_edit_last, bind at 1, get_desc.
      replace (l =? 0) with false by lia. rewrite Hd, Hf. unfold bind.
      now rewrite (set_data_allocated h e2 v _ ltac:(lia) Hme).
    + apply (represents_with_payload h l cmp ad i e2 d2 [] v Hrep).
Qed.

Lemma list_edit_ends_witness :
  (exists h', list_edit_first 1 7 (sample_list 2) = Ok SUCCESS h' /\
              represents h' 1 Z.sub (adapter_of LIST_DEFAULT 1)
                ((2, 7) :: [(3, 20); (4, 30)])) /\
  (exists h', list_edit_last 1 7 (sample_list 2) = Ok SUCCESS h' /\
              represents h' 1 Z.sub (adapter_of LIST_DEFAULT 1)
                ([(2, 10); (3, 20)] ++ [(4, 7)])).
Proof.
  apply (list_edit_ends (sample_list 2) 1 Z.sub (adapter_of LIST_DEFAULT 1)
           [(2, 10); (3, 20); (4, 30)] 2 10 [(3, 20); (4, 30)]
           [(2, 10); (3, 20)] 4 30 7).
  - sample_represents.
  - reflexivity.
  - reflexivity.
Defined.

Lemma list_read_ends_witness :
  list_read_first 1 (sample_list 2) =
    Ok (match [(2, 10); (3, 20); (4, 30)] with
        | [] => (0, FAILURE)
        | n :: _ => (snd n, SUCCESS)
        end) (sample_list 2) /\
  list_read_last 1 (sample_list 2) =
    Ok (match rev [(2, 10); (3, 20); (4, 30)] with
        | [] => (0, FAILURE)
        | n :: _ => (snd n, SUCCESS)
        end) (sample_list 2).
Proof.
  apply (list_read_ends (sample_list 2) 1 Z.sub (adapter_of LIST_DEFAULT 1)
           [(2, 10); (3, 20); (4, 30)]).
  sample_represents.
Defined.

(** X6. [list_get_first] unlinks and releases the first node and
    [list_get_last] the last node, and each returns the payload of the node
    it removed; the remaining nodes keep their order. On an empty list both
    report a failure and change nothing. *)
Theorem list_get_ends h l cmp ad ns :
  represents h l cmp ad ns ->
  (exists h',
     list_get_first l h =
       Ok (match ns with
           | [] => (0, FAILURE)
           | n :: _ => (snd n, SUCCESS)
           end) h' /\
     represents h' l cmp ad (tl ns) /\
     match ns with
     | [] => h' = h
     | n :: _ => elems h' !! fst n = None
     end) /\
  (exists h',
     list_get_last l h =
       Ok (match rev ns with
           | [] => (0, FAILURE)
           | n :: _ => (snd n, SUCCESS)
           end) h' /\
     represents h' l cmp ad (removelast ns) /\
     match rev ns with
     | [] => h' = h
     | n :: _ => elems h' !! fst n = None
     end).
Proof.
  intros Hrep. split.
  - destruct ns as [|[a da] t].
    + exists h. split; [apply (list_get_first_empty h l cmp ad Hrep)|].
      split; [exact Hrep | reflexivity].
    + destruct (ok_elim _ _ (list_get_first_spec h l cmp ad a da t Hrep))
        as (r & h' & Hget & -> & Hrep' & _ & _ & Hgone & _).
      exists h'. split; [exact Hget|]. split; [exact Hrep' | exact Hgone].
  - destruct (rev ns) as [|[a da] t] eqn:Hrev.
    + apply (f_equal (@rev _)) in Hrev. rewrite rev_involutive in Hrev.
      cbn [rev] in Hrev. subst ns.
      exists h. split; [apply (list_get_last_empty h l cmp ad Hrep)|].
      split; [exact Hrep | reflexivity].
    + apply rev_snoc_inv in Hrev. subst ns.
      destruct (ok_elim _ _ (list_get_last_spec h l cmp ad (rev t) a da Hrep))
        as (r & h' & Hget & -> & Hrep' & Hgone & _).
      rewrite removelast_last.
      exists h'. split; [exact Hget|]. split; [exact Hrep' | exact Hgone].
Qed.

Lemma list_get_ends_witness :
  (exists h',
     list_get_first 1 (sample_list 2) =
       Ok (match [(2, 10); (3, 20); (4, 30)] with
           | [] => (0, FAILURE)
           | n :: _ => (snd n, SUCCESS)
           end) h' /\
     represents h' 1 Z.sub (adapter_of LIST_DEFAULT 1)
       (tl [(2, 10); (3, 20); (4, 30)]) /\
     match [(2, 10); (3, 20); (4, 30)] with
     | [] => h' = sample_list 2
     | n :: _ => elems h' !! fst n = None
     end) /\
  (exists h',
     list_get_last 1 (sample_list 2) =
       Ok (match rev [(2, 10); (3, 20); (4, 30)] with
           | [] => (0, FAILURE)
           | n :: _ => (snd n, SUCCESS)
           end) h' /\
     represents h' 1 Z.sub (adapter_of LIST_DEFAULT 1)
       (removelast [(2, 10); (3, 20); (4, 30)]) /\
     match rev [(2, 10); (3, 20); (4, 30)] with
     | [] => h' = sample_list 2
     | n :: _ => elems h' !! fst n = None
     end).
Proof.
  apply (list_get_ends (sample_list 2) 1 Z.sub (adapter_of LIST_DEFAULT 1)
           [(2, 10); (3, 20); (4, 30)]).
  sample_represents.
Defined.

(** X5. With memory for one more node, [list_add_first] puts a new node
    holding [data] in front of the others and [list_add_last] behind them;
    the others keep their order. *)
Theorem list_add_ends h l cmp ad ns x :
  represents h l cmp ad ns -> avail h <> 0%nat ->
  Z.of_nat (length ns) + 1 < 4294967296 ->
  (exists h', list_add_first l x h = Ok SUCCESS h' /\
              represents h' l cmp ad ((brk h, x) :: ns)) /\
  (exists h', list_add_last l x h = Ok SUCCESS h' /\
              represents h' l cmp ad (ns ++ [(brk h, x)])).
Proof.
  intros Hrep Hav Hlen. destruct (avail h) as [|n] eqn:Hn; [congruence|].
  split.
  - destruct (ok_elim _ _ (list_add_first_spec h l cmp ad ns x n Hrep Hn Hlen))
      as (rc & h' & Hadd & -> & Hrep' & _). eauto.
  - destruct (ok_elim _ _ (list_add_last_spec h l cmp ad ns x n Hrep Hn Hlen))
      as (rc & h' & Hadd & -> & Hrep' & _). eauto.
Qed.

Lemma list_add_ends_witness :
  (exists h', list_add_first 1 7 (sample_list 2) = Ok SUCCESS h' /\
              represents h' 1 Z.sub (adapter_of LIST_DEFAULT 1)
                ((brk (sample_list 2), 7) :: [(2, 10); (3, 20); (4, 30)])) /\
  (exists h', list_add_last 1 7 (sample_list 2) = Ok SUCCESS h' /\
              represents h' 1 Z.sub (adapter_of LIST_DEFAULT 1)
                ([(2, 10); (3, 20); (4, 30)] ++ [(brk (sample_list 2), 7)])).
Proof.
  apply (list_add_ends (sample_list 2) 1 Z.sub (adapter_of LIST_DEFAULT 1)
           [(2, 10); (3, 20); (4, 30)] 7).
  - sample_represents.
  - simpl. lia.
  - simpl. lia.
Defined.

(** *** Queues and stacks *)

Section Adapters.
Variables (l : Z) (cmp : f_cmp) (ad : list_adapter).

Lemma push_all_last_spec fuel keys : forall h ns,
  represents h l cmp ad ns -> push ad = Ptr_list_add_last ->
  (length keys <= avail h)%nat ->
  Z.of_nat (length ns + length keys) < 4294967296 ->
  ok (push_all fuel l keys h) (fun rc h' =>
    rc = SUCCESS /\
    exists ns',
      represents h' l cmp ad ns' /\
      map snd ns' = map snd ns ++ keys).
Proof.
  induction keys as [|k keys IH]; intros h ns Hrep Hpush Hav Hcount.
  - apply ok_ret. split; [reflexivity|]. exists ns.
    split; [exact Hrep|]. now rewrite app_nil_r.
  - cbn [push_all length] in *. apply ok_bind. unfold adapter_push.
    destruct (avail h) as [|n] eqn:Hn; [lia|].
    pose proof Hrep as [Hl (d & Hd & _ & _ & _ & _ & Ha & _ & Hal) _ _ _ _ _].
    apply ok_bind. eapply ok_get_desc; [lia | exact Hd |].
    rewrite Ha, Hpush, Hal. cbn [call_add].
    eapply ok_mono.
    { apply (list_add_last_spec h l cmp ad ns k n); [exact Hrep|exact Hn|lia]. }
    intros rc h' (-> & Hrep' & _ & Hav').
    cbn [negb Z.eqb SUCCESS].
    eapply ok_mono.
    { apply (IH h' _ Hrep' Hpush); rewrite ?length_app; cbn [length]; lia. }
    intros rc h'' (-> & ns' & Hrep'' & Hkeys).
    split; [reflexivity|]. exists ns'. split; [exact Hrep''|].
    rewrite Hkeys, map_app, <- app_assoc. reflexivity.
Qed.

Lemma pop_all_any_spec bound : forall h ns,
  represents h l cmp ad ns ->
  (length ns < bound)%nat ->
  ok (pop_all bound l h) (fun out h' =>
    out = pop_order ad (map snd ns) /\ represents h' l cmp ad []).
Proof.
  unfold pop_order.
  induction bound as [|bound IH]; intros h ns Hrep Hb; [lia|].
  cbn [pop_all]. apply ok_bind. unfold adapter_pop.
  pose proof Hrep as [Hl (d & Hd & _ & _ & _ & _ & Ha & _ & Hal) _ _ _ _ _].
  apply ok_bind. eapply ok_get_desc; [lia | exact Hd |].
  rewrite Ha, Hal. destruct (pop ad) eqn:Hpop; cbn [call_get].
  - destruct ns as [|[a da] ns].
    + rewrite (list_get_first_empty h l cmp ad Hrep). cbn [ok].
      apply ok_ret. split; [reflexivity | exact Hrep].
    + eapply ok_mono; [apply (list_get_first_spec h l cmp ad a da ns Hrep)|].
      intros r h' (-> & Hrep' & _).
      cbn [negb Z.eqb SUCCESS]. apply ok_bind.
      eapply ok_mono; [apply (IH h' ns Hrep'); simpl in Hb; lia|].
      intros out h'' (-> & Hrep''). apply ok_ret.
      split; [reflexivity | exact Hrep''].
  - destruct ns as [|[a da] ns _] using rev_ind.
    + rewrite (list_get_last_empty h l cmp ad Hrep). cbn [ok].
      apply ok_ret. split; [reflexivity | exact Hrep].
    + eapply ok_mono; [apply (list_get_last_spec h l cmp ad ns a da Hrep)|].
      intros r h' (-> & Hrep' & _).
      cbn [negb Z.eqb SUCCESS]. apply ok_bind.
      eapply ok_mono.
      { apply (IH h' ns Hrep'). rewrite length_app in Hb. simpl in Hb. lia. }
      intros out h'' (-> & Hrep''). apply ok_ret.
      split; [|exact Hrep''].
      rewrite map_app, rev_app_distr. reflexivity.
Qed.
End Adapters.

(** X9. A list created as a queue hands back what was pushed in the order of
    the pushes; between the pushes and the pops [list_get_size] reports the
    number of pushes, and after the pops the list is empty. *)
Theorem queue_pops_in_push_order (comparator : option f_cmp) (keys : list Z)
    (h : heap) (fuel bound : nat) :
  0 < brk h -> (length keys < avail h)%nat ->
  Z.of_nat (length keys) < 4294967296 ->
  (length keys < bound)%nat ->
  exists l h0 h1 h2,
    list_init true comparator LIST_QUEUE h = Ok (SUCCESS, l) h0 /\
    push_all fuel l keys h0 = Ok SUCCESS h1 /\
    list_get_size l true h1 = Ok (SUCCESS, Z.of_nat (length keys)) h1 /\
    pop_all bound l h1 = Ok keys h2 /\
    list_get_size l true h2 = Ok (SUCCESS, 0) h2.
Proof.
  intros Hbrk Hav Hcount Hbound.
  destruct (avail h) as [|n] eqn:Hn; [lia|].
  destruct (ok_elim _ _ (list_init_spec h comparator LIST_QUEUE n Hn Hbrk))
    as (r & h0 & Hinit & -> & Hrep0 & Hav0).
  destruct (ok_elim _ _
    (push_all_last_spec (brk h) _ _ fuel keys h0 [] Hrep0 eq_refl
       ltac:(lia) ltac:(simpl; lia)))
    as (rc & h1 & Hpush & -> & ns & Hrep1 & Hkeys).
  cbn [map app] in Hkeys.
  assert (Hlen : length ns = length keys).
  { now rewrite <- Hkeys, length_map. }
  destruct (ok_elim _ _
    (pop_all_any_spec (brk h) _ _ bound h1 ns Hrep1 ltac:(lia)))
    as (out & h2 & Hpop & -> & Hrep2).
  exists (brk h), h0, h1, h2.
  split; [exact Hinit|]. split; [exact Hpush|].
  assert (Hsize : forall h' ns',
    represents h' (brk h) (installed comparator)
      (adapter_of LIST_QUEUE (brk h)) ns' ->
    list_get_size (brk h) true h' = Ok (SUCCESS, Z.of_nat (length ns')) h').
  { intros h' ns' [Hl (d & Hd & _ & _ & Hnb & _) _ _ _ _ _].
    unfold list_get_size, bind, get_desc.
    replace (brk h =? 0) with false by lia. cbn [negb orb].
    now rewrite Hd, Hnb. }
  split; [rewrite <- Hlen; apply (Hsize h1 ns Hrep1)|].
  split; [now rewrite Hpop, Hkeys | apply (Hsize h2 [] Hrep2)].
Qed.

Lemma queue_pops_in_push_order_witness :
  exists l h0 h1 h2,
    list_init true (Some Z.sub) LIST_QUEUE (empty_heap 8) = Ok (SUCCESS, l) h0 /\
    push_all 4 l [5; 1; 3] h0 = Ok SUCCESS h1 /\
    list_get_size l true h1 = Ok (SUCCESS, Z.of_nat (length [5; 1; 3])) h1 /\
    pop_all 5 l h1 = Ok [5; 1; 3] h2 /\
    list_get_size l true h2 = Ok (SUCCESS, 0) h2.
Proof.
  apply (queue_pops_in_push_order (Some Z.sub) [5; 1; 3] (empty_heap 8) 4 5).
  - simpl. lia.
  - simpl. lia.
  - simpl. lia.
  - simpl. lia.
Defined.

(** X10. A list created as a stack, which is also what the default adapter
    is, hands back what was pushed in the reverse order of the pushes. *)
Theorem stack_pops_in_reverse_order (comparator : option f_cmp)
    (ty : adapter_type) (keys : list Z) (h : heap) (fuel bound : nat) :
  ty = LIST_STACK \/ ty = LIST_DEFAULT ->
  0 < brk h -> (length keys < avail h)%nat ->
  Z.of_nat (length keys) < 4294967296 ->
  (length keys < bound)%nat ->
  exists l h0 h1 h2,
    list_init true comparator ty h = Ok (SUCCESS, l) h0 /\
    push_all fuel l keys h0 = Ok SUCCESS h1 /\
    pop_all bound l h1 = Ok (rev keys) h2 /\
    list_get_last l h2 = Ok (0, FAILURE) h2.
Proof.
  intros Hty Hbrk Hav Hcount Hbound.
  destruct (avail h) as [|n] eqn:Hn; [lia|].
  destruct (ok_elim _ _ (list_init_spec h comparator ty n Hn Hbrk))
    as (r & h0 & Hinit & -> & Hrep0 & Hav0).
  assert (Hpush_ad : push (adapter_of ty (brk h)) = Ptr_list_add_last)
    by (destruct Hty as [-> | ->]; reflexivity).
  assert (Hpop_ad : pop (adapter_of ty (brk h)) = Ptr_list_get_last)
    by (destruct Hty as [-> | ->]; reflexivity).
  destruct (ok_elim _ _
    (push_all_last_spec (brk h) _ _ fuel keys h0 [] Hrep0 Hpush_ad
       ltac:(lia) ltac:(simpl; lia)))
    as (rc & h1 & Hpush & -> & ns & Hrep1 & Hkeys).
  cbn [map app] in Hkeys.
  assert (Hlen : length ns = length keys).
  { now rewrite <- Hkeys, length_map. }
  destruct (ok_elim _ _
    (pop_all_any_spec (brk h) _ _ bound h1 ns Hrep1 ltac:(lia)))
    as (out & h2 & Hpop & -> & Hrep2).
  unfold pop_order in Hpop. rewrite Hpop_ad, Hkeys in Hpop.
  exists (brk h), h0, h1, h2.
  split; [exact Hinit|]. split; [exact Hpush|]. split; [exact Hpop|].
  apply (list_get_last_empty _ _ _ _ Hrep2).
Qed.

Lemma stack_pops_in_reverse_order_witness :
  exists l h0 h1 h2,
    list_init true (Some Z.sub) LIST_STACK (empty_heap 8) = Ok (SUCCESS, l) h0 /\
    push_all 4 l [5; 1; 3] h0 = Ok SUCCESS h1 /\
    pop_all 5 l h1 = Ok (rev [5; 1; 3]) h2 /\
    list_get_last l h2 = Ok (0, FAILURE) h2.
Proof.
  apply (stack_pops_in_reverse_order (Some Z.sub) LIST_STACK [5; 1; 3]
           (empty_heap 8) 4 5).
  - left. reflexivity.
  - simpl. lia.
  - simpl. lia.
  - simpl. lia.
  - simpl. lia.
Defined.

Lemma hd_map_snd (ns : list (Z * Z)) :
  match map snd ns with
  | [] => (0, FAILURE)
  | x :: _ => (x, SUCCESS)
  end =
  match ns with
  | [] => (0, FAILURE)
  | n :: _ => (snd n, SUCCESS)
  end.
Proof. now destruct ns. Qed.

(** X11. Whatever the adapter type, [top_next] reads what the next [pop]
    returns and [back] what the last [pop] returns before the list is empty;
    neither changes the heap. *)
Theorem adapter_top_and_back (ty : adapter_type) h l cmp ns (bound : nat) :
  represents h l cmp (adapter_of ty l) ns ->
  (length ns < bound)%nat ->
  exists out h',
    pop_all bound l h = Ok out h' /\
    call_read (top_next (adapter_of ty l)) l h =
      Ok (match out with
          | [] => (0, FAILURE)
          | x :: _ => (x, SUCCESS)
          end) h /\
    call_read (back (adapter_of ty l)) l h =
      Ok (match rev out with
          | [] => (0, FAILURE)
          | x :: _ => (x, SUCCESS)
          end) h.
Proof.
  intros Hrep Hbound.
  destruct (ok_elim _ _
    (pop_all_any_spec l _ _ bound h ns Hrep Hbound))
    as (out & h' & Hpop & -> & _).
  destruct (list_read_ends_spec h l cmp _ ns Hrep) as [Hfirst Hlast].
  exists (pop_order (adapter_of ty l) (map snd ns)), h'.
  split; [exact Hpop|].
  unfold pop_order.
  destruct ty; cbn [adapter_of set_adapter pop top_next back call_read];
    rewrite ?rev_involutive, <- ?map_rev, !hd_map_snd; auto.
Qed.

Lemma adapter_top_and_back_witness :
  exists out h',
    pop_all 4 1 (sample_list 2) = Ok out h' /\
    call_read (top_next (adapter_of LIST_DEFAULT 1)) 1 (sample_list 2) =
      Ok (match out with
          | [] => (0, FAILURE)
          | x :: _ => (x, SUCCESS)
          end) (sample_list 2) /\
    call_read (back (adapter_of LIST_DEFAULT 1)) 1 (sample_list 2) =
      Ok (match rev out with
          | [] => (0, FAILURE)
          | x :: _ => (x, SUCCESS)
          end) (sample_list 2).
Proof.
  apply (adapter_top_and_back LIST_DEFAULT (sample_list 2) 1 Z.sub
           [(2, 10); (3, 20); (4, 30)] 4).
  - sample_represents.
  - simpl. lia.
Defined.

(** *** Insertion through an iterator *)

Lemma iterator_insert_between h l cmp ad l1 p dp e de l2 iter x n
    (after : bool) :
  represents h l cmp ad (l1 ++ (p, dp) :: (e, de) :: l2) ->
  positioned h iter l (if after then p else e) ->
  avail h = S n ->
  Z.of_nat (length (l1 ++ (p, dp) :: (e, de) :: l2)) + 1 < 4294967296 ->
  ok (iterator_insert iter x after h) (fun rc h' =>
    rc = SUCCESS /\
    represents h' l cmp ad (l1 ++ (p, dp) :: (brk h, x) :: (e, de) :: l2) /\
    positioned h' iter l (if after then p else e) /\
    brk h' = brk h + 1 /\ avail h' = n).
Proof.
  intros Hrep Hp Hav Hlen.
  unfold iterator_insert. rewrite (positioned_not_null _ _ _ _ Hp).
  apply ok_bind. rewrite (get_it_positioned _ _ _ _ Hp). cbn [ok list_ref elem].
  pose proof Hrep as [Hl (d & Hd & Hf & Hla & Hnb & Hc & Ha & Hit & Hal) Hch Hnd Had Hct Hbrk].
  assert (Hframe : forall m' d',
    l_it d' = l_it d ->
    positioned (mk_heap m' (<[l := d']> (descs h)) (iters h) (brk h + 1) n)
      iter l (if after then p else e)).
  { intros m' d' Hit'. revert Hp. apply positioned_frame; [reflexivity|].
    intros d0 Hd0. rewrite Hd in Hd0. injection Hd0 as <-.
    exists d'. cbn [descs]. split; [apply lookup_insert_eq | exact Hit']. }
  destruct h as [m ds its b av]. cbn [elems descs iters brk avail] in *. subst av.
  destruct d as [fd ld nbd cd nid [itl ite] add]. heap_simpl_in. subst cd add itl.
  pose proof Hnd as Hnd0.
  apply nodup_split in Hnd. destruct Hnd as (Hp1 & Hp2 & Hp12 & Hnd1 & Hnd2).
  apply (nodup_split [] l2 (e, de)) in Hnd2.
  destruct Hnd2 as (_ & He2 & _ & _ & Hnd2).
  cbn [fst] in *.
  assert (Hep : e <> p) by (apply (Hp2 (e, de)); now left).
  assert (Hpb : 0 < p < b).
  { apply (Had (p, dp)), in_or_app. right. now left. }
  assert (Heb : 0 < e < b).
  { apply (Had (e, de)), in_or_app. right. right. now left. }
  assert (Hfe : fd <> e).
  { rewrite Hf. destruct l1 as [|k l1']; cbn [head_addr app fst]; [lia|].
    apply (Hp12 k (e, de)); now left. }
  assert (Hlp : ld <> p).
  { rewrite Hla, last_addr_app. cbn [last_addr fst].
    destruct (exists_last (l := (e, de) :: l2)) as (l2' & kl & Hkl); [discriminate|].
    change (last_addr l2 e) with (last_addr ((e, de) :: l2) p).
    rewrite Hkl, last_addr_app. cbn [last_addr].
    apply Hp2. rewrite Hkl. apply in_or_app. right. now left. }
  apply chain_app in Hch. destruct Hch as [Hc1 Hch].
  cbn [chain head_addr fst snd] in Hch, Hc1.
  destruct Hch as (Hmp & Hme & Hc2).
  assert (Hrep' : forall m' d',
    m' !! p = Some (mk_elem dp (last_addr l1 0) b) ->
    m' !! b = Some (mk_elem x p e) ->
    m' !! e = Some (mk_elem de b (head_addr l2 0)) ->
    (forall k, k <> p -> k <> b -> k <> e -> m' !! k = m !! k) ->
    d' = mk_desc fd ld (u32 (nbd + 1)) cmp nid (mk_it l ite) ad ->
    represents (mk_heap m' (<[l := d']> ds) its (b + 1) n) l cmp ad
      (l1 ++ (p, dp) :: (b, x) :: (e, de) :: l2)).
  { intros m' d' Hm'p Hm'b Hm'e Hm'k ->.
    constructor; heap_simpl; [ lia | | | | | | lia].
    - eexists. split; [lk; reflexivity|].
      rewrite !length_app, !last_addr_app, !head_addr_app in *.
      cbn [length last_addr head_addr fst] in *.
      rewrite u32_small by lia. heap_simpl.
      repeat split; auto; lia.
    - apply chain_app. split.
      { cbn [head_addr fst]. apply (chain_ext m); [|exact Hc1]. intros k Hk.
        assert (0 < fst k < b) by (apply Had, in_or_app; now left).
        assert (fst k <> p) by (now apply Hp1).
        assert (fst k <> e).
        { apply (Hp12 k (e, de)); [exact Hk | now left]. }
        apply Hm'k; lia. }
      cbn [chain head_addr fst snd].
      split; [exact Hm'p|]. split; [exact Hm'b|]. split; [exact Hm'e|].
      apply (chain_ext m); [|exact Hc2]. intros k Hk.
      assert (0 < fst k < b).
      { apply Had, in_or_app. right. right. now right. }
      assert (fst k <> p) by (apply Hp2; now right).
      assert (fst k <> e) by (now apply He2).
      apply Hm'k; lia.
    - change (l1 ++ (p, dp) :: (b, x) :: (e, de) :: l2)
        with (l1 ++ [(p, dp)] ++ (b, x) :: (e, de) :: l2).
      rewrite app_assoc.
      apply (nodup_insert_fresh (l1 ++ [(p, dp)]) ((e, de) :: l2) (b, x)).
      { rewrite <- app_assoc. exact Hnd0. }
      intros k Hk. rewrite <- app_assoc in Hk. specialize (Had k Hk).
      cbn [fst]. lia.
    - intros k Hk.
      apply in_app_or in Hk. destruct Hk as [Hk|[<-|[<-|Hk]]].
      { assert (0 < fst k < b) by (apply Had, in_or_app; now left). lia. }
      { cbn [fst]. lia. }
      { cbn [fst]. lia. }
      { assert (0 < fst k < b).
        { apply Had, in_or_app. right. right. exact Hk. } lia. }
    - rewrite !length_app in *. cbn [length] in *. lia. }
  destruct after; cbn [andb negb].
  - repeat wp_step.
    split; [reflexivity|]. split; [|split; [|split; reflexivity]].
    + apply Hrep'; [lk; reflexivity .. | | reflexivity].
      intros k ? ? ?. lk. reflexivity.
    + apply Hframe. reflexivity.
  - repeat wp_step.
    split; [reflexivity|]. split; [|split; [|split; reflexivity]].
    + apply Hrep'; [lk; reflexivity .. | | reflexivity].
      intros k ? ? ?. lk. reflexivity.
    + apply Hframe. reflexivity.
Qed.

Lemma ok_and {A : Type} (r : result A) (P Q : A -> heap -> Prop) :
  ok r P -> ok r Q -> ok r (fun a h => P a h /\ Q a h).
Proof. destruct r; simpl; auto. Qed.

Lemma same_iterators_positioned h h' l iter x :
  same_iterators h h' l -> positioned h iter l x -> positioned h' iter l x.
Proof.
  intros [Hi Hd]. apply positioned_frame; [exact Hi|].
  intros d Hd0. destruct (Hd d Hd0) as (d' & Hd' & Hit & _). eauto.
Qed.

Ltac same_tac Hd :=
  let d0 := fresh "d" in
  let Hd0 := fresh "Hd" in
  split; [reflexivity|]; heap_simpl; intros d0 Hd0;
  rewrite Hd in Hd0; injection Hd0 as <-;
  eexists; split; [lk; reflexivity|];
  pure_tests; desc_simpl; split; reflexivity.

Lemma list_add_last_frame h l cmp ad ns x n :
  represents h l cmp ad ns -> avail h = S n ->
  ok (list_add_last l x h) (fun _ h' => same_iterators h h' l).
Proof.
  intros [Hl (d & Hd & Hf & Hla & Hnb & Hc & Ha & Hit & Hal) Hch Hnd Had Hct Hbrk] Hav.
  destruct h as [m ds its b av]. cbn [elems descs iters brk avail] in *. subst av.
  destruct d as [fd ld nbd cd nid [itl ite] add]. heap_simpl_in.
  unfold list_add_last.
  destruct ns as [|[a da] ns0 _] using rev_ind.
  - simpl in *. subst. repeat wp_step. same_tac Hd.
  - rewrite last_addr_app in Hla. simpl in Hla.
    rewrite head_addr_app in Hf.
    apply chain_app in Hch. destruct Hch as [Hc0 [Ha' _]]. simpl in Ha', Hc0.
    assert (Hab : 0 < a < b).
    { apply (Had (a, da)). apply in_or_app. right. now left. }
    assert (Hfb : 0 < fd < b).
    { rewrite Hf, <- head_addr_app. apply head_addr_bounds; [|exact Had].
      destruct ns0; discriminate. }
    subst ld.
    repeat wp_step. same_tac Hd.
Qed.

Lemma list_add_first_frame h l cmp ad ns x n :
  represents h l cmp ad ns -> avail h = S n ->
  ok (list_add_first l x h) (fun _ h' => same_iterators h h' l).
Proof.
  intros [Hl (d & Hd & Hf & Hla & Hnb & Hc & Ha & Hit & Hal) Hch Hnd Had Hct Hbrk] Hav.
  destruct h as [m ds its b av]. cbn [elems descs iters brk avail] in *. subst av.
  destruct d as [fd ld nbd cd nid [itl ite] add]. heap_simpl_in.
  unfold list_add_first.
  destruct ns as [|[a da] ns0].
  - simpl in *. subst. repeat wp_step. same_tac Hd.
  - simpl in Hf. destruct Hch as [Ha' Hc0]. cbn [fst snd] in *.
    assert (Hab : 0 < a < b) by (apply (Had (a, da)); now left).
    assert (Hlb : 0 < ld < b).
    { rewrite Hla. apply (last_addr_bounds ((a, da) :: ns0)); [discriminate|exact Had]. }
    subst fd.
    repeat wp_step. same_tac Hd.
Qed.

Lemma rep_last_unique h l cmp ad l1 e de l2 d :
  represents h l cmp ad (l1 ++ (e, de) :: l2) ->
  descs h !! l = Some d ->
  (e =? last d) = match l2 with [] => true | _ :: _ => false end.
Proof.
  intros [_ (d' & Hd' & _ & Hla & _) _ Hnd _ _ _] Hd.
  rewrite Hd in Hd'. injection Hd' as <-. rewrite Hla, last_addr_app.
  cbn [last_addr fst]. destruct l2 as [|k l2]; [apply Z.eqb_refl|].
  apply Z.eqb_neq. apply nodup_split in Hnd. destruct Hnd as (_ & He2 & _).
  destruct (exists_last (l := k :: l2)) as (l2' & kl & Hkl); [discriminate|].
  change (last_addr (k :: l2) e) with (last_addr (k :: l2) e).
  rewrite Hkl, last_addr_app. cbn [last_addr]. apply not_eq_sym.
  apply (He2 kl). rewrite Hkl. apply in_or_app. right. now left.
Qed.

Lemma rep_first_unique h l cmp ad l1 e de l2 d :
  represents h l cmp ad (l1 ++ (e, de) :: l2) ->
  descs h !! l = Some d ->
  (e =? first d) = match l1 with [] => true | _ :: _ => false end.
Proof.
  intros [_ (d' & Hd' & Hf & _) _ Hnd _ _ _] Hd.
  rewrite Hd in Hd'. injection Hd' as <-. rewrite Hf, head_addr_app.
  destruct l1 as [|k l1]; cbn [head_addr fst]; [apply Z.eqb_refl|].
  apply Z.eqb_neq. apply nodup_split in Hnd. destruct Hnd as (He1 & _).
  apply not_eq_sym. apply (He1 k). now left.
Qed.

Lemma iterator_insert_spec h l cmp ad l1 e de l2 iter x n (after : bool) :
  represents h l cmp ad (l1 ++ (e, de) :: l2) ->
  positioned h iter l e ->
  avail h = S n ->
  Z.of_nat (length (l1 ++ (e, de) :: l2)) + 1 < 4294967296 ->
  ok (iterator_insert iter x after h) (fun rc h' =>
    rc = SUCCESS /\
    represents h' l cmp ad
      (if after then l1 ++ (e, de) :: (brk h, x) :: l2
       else l1 ++ (brk h, x) :: (e, de) :: l2) /\
    positioned h' iter l e /\
    brk h' = brk h + 1 /\ avail h' = n).
Proof.
  intros Hrep Hp Hav Hlen.
  pose proof Hrep as [Hl (d & Hd & _) _ _ _ _ _].
  pose proof (rep_last_unique _ _ _ _ _ _ _ _ _ Hrep Hd) as Hlast.
  pose proof (rep_first_unique _ _ _ _ _ _ _ _ _ Hrep Hd) as Hfirst.
  destruct after.
  - destruct l2 as [|[nx dn] l2].
    + (* behind the last node *)
      unfold iterator_insert. rewrite (positioned_not_null _ _ _ _ Hp).
      apply ok_bind. rewrite (get_it_positioned _ _ _ _ Hp).
      cbn [ok list_ref elem]. apply ok_bind.
      eapply ok_get_desc; [lia | exact Hd |]. rewrite Hlast. cbn [andb].
      eapply ok_mono.
      { apply ok_and;
          [apply (list_add_last_spec h l cmp ad _ x n Hrep Hav Hlen)
          |apply (list_add_last_frame h l cmp ad _ x n Hrep Hav)]. }
      intros rc h' [(-> & Hrep' & Hb & Ha) Hsame].
      rewrite <- app_assoc in Hrep'. cbn [app] in Hrep'.
      split; [reflexivity|]. split; [exact Hrep'|].
      split; [now apply (same_iterators_positioned h h')|]. split; assumption.
    + apply (iterator_insert_between h l cmp ad l1 e de nx dn l2 iter x n true);
        assumption.
  - destruct l1 as [|[p dp] l1 _] using rev_ind.
    + (* in front of the first node *)
      unfold iterator_insert. rewrite (positioned_not_null _ _ _ _ Hp).
      apply ok_bind. rewrite (get_it_positioned _ _ _ _ Hp).
      cbn [ok list_ref elem]. apply ok_bind.
      eapply ok_get_desc; [lia | exact Hd |]. rewrite Hfirst.
      rewrite andb_false_l. cbn [andb negb].
      eapply ok_mono.
      { apply ok_and;
          [apply (list_add_first_spec h l cmp ad _ x n Hrep Hav Hlen)
          |apply (list_add_first_frame h l cmp ad _ x n Hrep Hav)]. }
      intros rc h' [(-> & Hrep' & Hb & Ha) Hsame].
      split; [reflexivity|]. split; [exact Hrep'|].
      split; [now apply (same_iterators_positioned h h')|]. split; assumption.
    + rewrite <- !app_assoc in *. cbn [app] in *.
      apply (iterator_insert_between h l cmp ad l1 p dp e de l2 iter x n false);
        assumption.
Qed.

Lemma brk_reposition h iter e : brk (reposition h iter e) = brk h.
Proof.
  destruct iter as [|a|l]; cbn [reposition]; [reflexivity| |].
  - now destruct (iters h !! a).
  - now destruct (descs h !! l).
Qed.

Lemma avail_reposition h iter e : avail (reposition h iter e) = avail h.
Proof.
  destruct iter as [|a|l]; cbn [reposition]; [reflexivity| |].
  - now destruct (iters h !! a).
  - now destruct (descs h !! l).
Qed.

(** X20. [iterator_insert] puts a new node holding [data] right behind the
    iterator's node when [after] is set and right in front of it otherwise,
    whether that node is the first, the last or in between; the other nodes
    keep their order and the iterator stays on its node. *)
Theorem iterator_insert_next_to_position h l cmp ad l1 e de l2 iter x
    (after : bool) :
  represents h l cmp ad (l1 ++ (e, de) :: l2) ->
  positioned h iter l e ->
  avail h <> 0%nat ->
  Z.of_nat (length (l1 ++ (e, de) :: l2)) + 1 < 4294967296 ->
  exists h',
    iterator_insert iter x after h = Ok SUCCESS h' /\
    represents h' l cmp ad
      (if after then l1 ++ (e, de) :: (brk h, x) :: l2
       else l1 ++ (brk h, x) :: (e, de) :: l2) /\
    positioned h' iter l e.
Proof.
  intros Hrep Hp Hav Hlen. destruct (avail h) as [|n] eqn:Hn; [congruence|].
  destruct (ok_elim _ _
    (iterator_insert_spec h l cmp ad l1 e de l2 iter x n after Hrep Hp Hn Hlen))
    as (rc & h' & Hins & -> & Hrep' & Hp' & _).
  eauto.
Qed.

Lemma iterator_insert_next_to_position_witness :
  exists h',
    iterator_insert (Iter_heap 5) 7 true (sample_list_it 2) = Ok SUCCESS h' /\
    represents h' 1 Z.sub (adapter_of LIST_DEFAULT 1)
      (if true
       then [(2, 10)] ++ (3, 20) :: (brk (sample_list_it 2), 7) :: [(4, 30)]
       else [(2, 10)] ++ (brk (sample_list_it 2), 7) :: (3, 20) :: [(4, 30)]) /\
    positioned h' (Iter_heap 5) 1 3.
Proof.
  apply (iterator_insert_next_to_position (sample_list_it 2) 1 Z.sub
           (adapter_of LIST_DEFAULT 1) [(2, 10)] 3 20 [(4, 30)]
           (Iter_heap 5) 7 true).
  - sample_represents.
  - split; [lia | reflexivity].
  - simpl. lia.
  - simpl. lia.
Defined.

(** X21. With an index from 0 to the number of nodes, [list_add_idx] puts a
    new node holding [data] at that position: the nodes before position
    [idx] stay in front of it and the others move one position back. *)
Theorem list_add_idx_inserts_at h l cmp ad ns x idx :
  represents h l cmp ad ns ->
  0 <= idx <= Z.of_nat (length ns) -> idx <= INT32_MAX ->
  avail h <> 0%nat ->
  Z.of_nat (length ns) + 1 < 4294967296 ->
  exists h',
    list_add_idx l x idx h = Ok SUCCESS h' /\
    represents h' l cmp ad
      (take (Z.to_nat idx) ns ++ (brk h, x) :: drop (Z.to_nat idx) ns).
Proof.
  intros Hrep Hidx Hmax Hav Hlen. pose proof Hrep as [Hl _ _ _ _ _ _].
  destruct (avail h) as [|n] eqn:Hn; [congruence|].
  destruct (walk_to_idx h l cmp ad ns idx Hrep ltac:(lia))
    as (d & Hd & Hnb & Hwalk).
  unfold list_add_idx. replace (l =? 0) with false by lia.
  unfold bind at 1. rewrite Hd, Hnb.
  destruct (Z.eqb_spec idx 0) as [->|Hnz].
  - rewrite orb_true_r. cbn [Z.to_nat take drop app].
    destruct (ok_elim _ _ (list_add_first_spec h l cmp ad ns x n Hrep Hn Hlen))
      as (rc & h' & Hadd & -> & Hrep' & _). eauto.
  - destruct (Z.eqb_spec (Z.of_nat (length ns)) 0) as [Hz|Hne]; [lia|].
    cbn [orb].
    destruct (Z.eqb_spec (Z.of_nat (length ns)) idx) as [Heq|Hlt].
    + subst idx. rewrite Nat2Z.id, firstn_all, skipn_all.
      destruct (ok_elim _ _ (list_add_last_spec h l cmp ad ns x n Hrep Hn Hlen))
        as (rc & h' & Hadd & -> & Hrep' & _). eauto.
    + rewrite Hwalk. replace (idx <? Z.of_nat (length ns)) with true by lia.
      cbn [negb Z.eqb SUCCESS].
      destruct (lookup_lt_is_Some_2 ns (Z.to_nat idx) ltac:(lia)) as [[e de] Hnth].
      destruct (split_at ns _ _ Hnth) as [Hsplit Hlen1].
      unfold addr_at. rewrite Hnth. cbn [fst].
      rewrite (drop_S ns (e, de) (Z.to_nat idx) Hnth).
      destruct (l_it_positioned _ _ _ _ _ Hrep) as [x0 Hx0].
      set (h1 := reposition h (Iter_l_it l) e).
      assert (Hrep1 : represents h1 l cmp ad
                (take (Z.to_nat idx) ns ++ (e, de) :: drop (S (Z.to_nat idx)) ns)).
      { rewrite <- Hsplit. now apply represents_reposition. }
      destruct (ok_elim _ _
        (iterator_insert_spec h1 l cmp ad _ e de _ (Iter_l_it l) x n false Hrep1
           (reposition_positioned h _ l x0 e Hx0)
           ltac:(unfold h1; now rewrite avail_reposition)
           ltac:(now rewrite <- Hsplit)))
        as (rc & h' & Hins & -> & Hrep' & _).
      exists h'. split; [exact Hins|].
      unfold h1 in Hrep'. now rewrite brk_reposition in Hrep'.
Qed.

Lemma list_add_idx_inserts_at_witness :
  exists h',
    list_add_idx 1 7 1 (sample_list 2) = Ok SUCCESS h' /\
    represents h' 1 Z.sub (adapter_of LIST_DEFAULT 1)
      (take (Z.to_nat 1) [(2, 10); (3, 20); (4, 30)]
         ++ (brk (sample_list 2), 7)
         :: drop (Z.to_nat 1) [(2, 10); (3, 20); (4, 30)]).
Proof.
  apply (list_add_idx_inserts_at (sample_list 2) 1 Z.sub
           (adapter_of LIST_DEFAULT 1) [(2, 10); (3, 20); (4, 30)] 7 1).
  - sample_represents.
  - simpl. lia.
  - unfold INT32_MAX. lia.
  - simpl. lia.
  - simpl. lia.
Defined.

(** X22. With an index beyond the number of nodes, [list_add_idx] reports a
    failure and leaves the nodes as they are, unless the list is empty: an
    empty list takes the new node whatever the index. *)
Theorem list_add_idx_beyond_end h l cmp ad ns x idx :
  represents h l cmp ad ns ->
  Z.of_nat (length ns) < idx <= INT32_MAX ->
  avail h <> 0%nat ->
  exists h',
    list_add_idx l x idx h =
      Ok (match ns with [] => SUCCESS | _ :: _ => FAILURE end) h' /\
    represents h' l cmp ad
      (match ns with [] => [(brk h, x)] | _ :: _ => ns end).
Proof.
  intros Hrep Hidx Hav. pose proof Hrep as [Hl _ _ _ _ Hct _].
  destruct (avail h) as [|n] eqn:Hn; [congruence|].
  destruct (walk_to_idx h l cmp ad ns idx Hrep ltac:(lia))
    as (d & Hd & Hnb & Hwalk).
  unfold list_add_idx. replace (l =? 0) with false by lia.
  unfold bind at 1. rewrite Hd, Hnb.
  destruct ns as [|n0 ns].
  - cbn [length Z.of_nat Z.eqb orb].
    destruct (ok_elim _ _
      (list_add_first_spec h l cmp ad [] x n Hrep Hn ltac:(simpl; lia)))
      as (rc & h' & Hadd & -> & Hrep' & _). eauto.
  - destruct (Z.eqb_spec (Z.of_nat (length (n0 :: ns))) 0) as [Hz|_];
      [cbn [length] in Hz; lia|].
    replace (idx =? 0) with false by lia. cbn [orb].
    destruct (Z.eqb_spec (Z.of_nat (length (n0 :: ns))) idx) as [Hz|_]; [lia|].
    rewrite Hwalk.
    replace (idx <? Z.of_nat (length (n0 :: ns))) with false by lia.
    cbn [negb Z.eqb FAILURE SUCCESS].
    eexists. split; [reflexivity|]. now apply represents_reposition.
Qed.

Lemma list_add_idx_beyond_end_witness :
  exists h',
    list_add_idx 1 7 9 (sample_list 2) =
      Ok (match [(2, 10); (3, 20); (4, 30)] with
          | [] => SUCCESS
          | _ :: _ => FAILURE
          end) h' /\
    represents h' 1 Z.sub (adapter_of LIST_DEFAULT 1)
      (match [(2, 10); (3, 20); (4, 30)] with
       | [] => [(brk (sample_list 2), 7)]
       | _ :: _ => [(2, 10); (3, 20); (4, 30)]
       end).
Proof.
  apply (list_add_idx_beyond_end (sample_list 2) 1 Z.sub
           (adapter_of LIST_DEFAULT 1) [(2, 10); (3, 20); (4, 30)] 7 9).
  - sample_represents.
  - unfold INT32_MAX. simpl. lia.
  - simpl. lia.
Defined.

Lemma calloc_exhausted h : avail h = 0%nat -> calloc h = Ok 0 h.
Proof. intros Hav. unfold calloc. now rewrite Hav. Qed.

Lemma create_element_exhausted h data p nx :
  avail h = 0%nat -> create_element data p nx h = Ok 0 h.
Proof.
  intros Hav. unfold create_element, bind. now rewrite calloc_exhausted.
Qed.

Lemma list_add_first_exhausted h l cmp ad ns x :
  represents h l cmp ad ns -> avail h = 0%nat ->
  list_add_first l x h = Ok FAILURE h.
Proof.
  intros [Hl (d & Hd & _) _ _ _ _ _] Hav.
  unfold list_add_first, bind, get_desc. replace (l =? 0) with false by lia.
  now rewrite Hd, create_element_exhausted.
Qed.

Lemma list_add_last_exhausted h l cmp ad ns x :
  represents h l cmp ad ns -> avail h = 0%nat ->
  list_add_last l x h = Ok FAILURE h.
Proof.
  intros [Hl (d & Hd & _) _ _ _ _ _] Hav.
  unfold list_add_last, bind, get_desc. replace (l =? 0) with false by lia.
  now rewrite Hd, create_element_exhausted.
Qed.

Lemma iterator_insert_exhausted h l cmp ad ns i e de iter x after :
  represents h l cmp ad ns -> ns !! i = Some (e, de) ->
  positioned h iter l e -> avail h = 0%nat ->
  iterator_insert iter x after h = Ok FAILURE h.
Proof.
  intros Hrep Hn Hp Hav.
  pose proof (rep_in_pos _ _ _ _ _ _ Hrep (lookup_In _ _ _ Hn)) as He.
  pose proof (rep_allocated _ _ _ _ _ _ _ Hrep Hn) as Hel. cbn [fst snd] in *.
  pose proof Hrep as [Hl (d & Hd & _) _ _ _ _ _].
  unfold iterator_insert. rewrite (positioned_not_null _ _ _ _ Hp).
  unfold bind at 1. rewrite (get_it_positioned _ _ _ _ Hp). cbn [list_ref elem].
  unfold bind at 1, get_desc. replace (l =? 0) with false by lia. rewrite Hd.
  destruct (after && (e =? last d));
    [apply (list_add_last_exhausted h l cmp ad ns x Hrep Hav)|].
  destruct (negb after && (e =? first d));
    [apply (list_add_first_exhausted h l cmp ad ns x Hrep Hav)|].
  unfold bind at 1, get_elem. replace (e =? 0) with false by lia.
  rewrite Hel. unfold bind.
  destruct after; now rewrite create_element_exhausted.
Qed.

(** X12. When [calloc] has nothing left, the creating and inserting
    functions report a failure and the list holds the same nodes in the same
    order: [list_init], [iterator_init], [list_add_first] and
    [list_add_last] leave the heap untouched, and [list_add_find] only
    moves the list's own iterator. *)
Theorem out_of_memory_keeps_list h l cmp ad ns x (fuel : nat)
    (comparator : option f_cmp) (ty : adapter_type) (start : bool) :
  represents h l cmp ad ns -> avail h = 0%nat -> (length ns < fuel)%nat ->
  list_init true comparator ty h = Ok (FAILURE, 0) h /\
  iterator_init l start h = Ok (FAILURE, 0) h /\
  list_add_first l x h = Ok FAILURE h /\
  list_add_last l x h = Ok FAILURE h /\
  exists h', list_add_find fuel l x h = Ok FAILURE h' /\
             represents h' l cmp ad ns /\ elems h' = elems h.
Proof.
  intros Hrep Hav Hfuel. pose proof Hrep as [Hl (d & Hd & Hf & Hla & _ & Hc & _) Hch _ Had _ _].
  split; [unfold list_init, bind; cbn [negb]; now rewrite calloc_exhausted|].
  split.
  { unfold iterator_init, bind. replace (l =? 0) with false by lia.
    now rewrite calloc_exhausted. }
  split; [apply (list_add_first_exhausted h l cmp ad ns x Hrep Hav)|].
  split; [apply (list_add_last_exhausted h l cmp ad ns x Hrep Hav)|].
  destruct (l_it_positioned _ _ _ _ _ Hrep) as [x0 Hx0].
  unfold list_add_find. replace (l =? 0) with false by lia.
  unfold bind at 1, get_desc. replace (l =? 0) with false by lia. rewrite Hd.
  unfold bind at 1. rewrite Hf, Hc.
  rewrite (add_find_loop_ok fuel cmp x ns 0 h Hch); [|intros k Hk; apply Had, Hk|exact Hfuel].
  pose proof (passed_reached cmp x ns) as Hsplit.
  destruct (reached cmp x ns) as [|[e' de'] l2] eqn:Hre.
  - cbn [head_addr Z.eqb]. unfold bind at 1, get_desc.
    replace (l =? 0) with false by lia. rewrite Hd.
    unfold bind at 1, set_l_it_elem.
    rewrite (set_it_elem_positioned h _ l x0 _ Hx0).
    exists (reposition h (Iter_l_it l) (last d)).
    split; [|split; [now apply represents_reposition | apply elems_reposition]].
    destruct ns as [|n0 ns'] using rev_ind.
    + (* the empty list: the iterator has no node, [last] is null too *)
      unfold iterator_insert. cbn [is_null]. replace (l =? 0) with false by lia.
      unfold bind at 1.
      rewrite (get_it_positioned _ _ l (last d))
        by (now apply (reposition_positioned h _ l x0)).
      cbn [list_ref elem].
      assert (Hd' : exists d', descs (reposition h (Iter_l_it l) (last d)) !! l
                               = Some d' /\ last d' = last d).
      { cbn [reposition]. rewrite Hd. cbn [descs]. eexists.
        split; [apply lookup_insert_eq | reflexivity]. }
      destruct Hd' as (d' & Hd' & Hla').
      unfold bind at 1, get_desc. replace (l =? 0) with false by lia.
      rewrite Hd', Hla', Z.eqb_refl. cbn [andb].
      apply (list_add_last_exhausted _ l cmp ad []).
      * now apply represents_reposition.
      * now rewrite avail_reposition.
    + clear IHns'. destruct n0 as [a da].
      apply (iterator_insert_exhausted _ l cmp ad (ns' ++ [(a, da)])
               (length ns') a da).
      * now apply represents_reposition.
      * now rewrite list_lookup_middle.
      * rewrite Hla, last_addr_app. cbn [last_addr fst].
        now apply (reposition_positioned h _ l x0).
      * now rewrite avail_reposition.
  - cbn [head_addr fst].
    assert (Hin : In (e', de') ns).
    { rewrite <- Hsplit. apply in_or_app. right. now left. }
    pose proof (Had _ Hin) as He'. cbn [fst] in He'.
    replace (e' =? 0) with false by lia.
    unfold bind at 1, set_l_it_elem.
    rewrite (set_it_elem_positioned h _ l x0 _ Hx0).
    exists (reposition h (Iter_l_it l) e').
    split; [|split; [now apply represents_reposition | apply elems_reposition]].
    apply (iterator_insert_exhausted _ l cmp ad ns
             (length (passed cmp x ns)) e' de').
    + now apply represents_reposition.
    + pose proof (list_lookup_middle (passed cmp x ns) l2 (e', de') _ eq_refl)
        as Hmid.
      now rewrite Hsplit in Hmid.
    + now apply (reposition_positioned h _ l x0).
    + now rewrite avail_reposition.
Qed.

Lemma out_of_memory_keeps_list_witness :
  list_init true None LIST_QUEUE (sample_list 0) = Ok (FAILURE, 0) (sample_list 0) /\
  iterator_init 1 true (sample_list 0) = Ok (FAILURE, 0) (sample_list 0) /\
  list_add_first 1 7 (sample_list 0) = Ok FAILURE (sample_list 0) /\
  list_add_last 1 7 (sample_list 0) = Ok FAILURE (sample_list 0) /\
  exists h', list_add_find 4 1 7 (sample_list 0) = Ok FAILURE h' /\
             represents h' 1 Z.sub (adapter_of LIST_DEFAULT 1)
               [(2, 10); (3, 20); (4, 30)] /\
             elems h' = elems (sample_list 0).
Proof.
  apply (out_of_memory_keeps_list (sample_list 0) 1 Z.sub
           (adapter_of LIST_DEFAULT 1) [(2, 10); (3, 20); (4, 30)] 7 4
           None LIST_QUEUE true).
  - sample_represents.
  - reflexivity.
  - simpl. lia.
Defined.

(** *** The life of an iterator *)

Lemma iterator_init_allocates h l d start :
  l <> 0 -> descs h !! l = Some d -> avail h <> 0%nat -> 0 < brk h ->
  iterator_init l start h =
    Ok (SUCCESS, brk h)
       (with_iterator h l d (if start then first d else last d)).
Proof.
  intros Hl Hd Hav Hbrk. destruct (avail h) as [|n] eqn:Hn; [congruence|].
  unfold iterator_init, with_iterator. replace (l =? 0) with false by lia.
  unfold bind at 1, calloc. rewrite Hn. replace (brk h =? 0) with false by lia.
  unfold bind, get_desc, write_desc, write_it. cbn [descs elems iters brk avail].
  replace (l =? 0) with false by lia. rewrite Hd. reflexivity.
Qed.

Lemma represents_with_iterator h l cmp ad ns d e :
  represents h l cmp ad ns -> descs h !! l = Some d ->
  represents (with_iterator h l d e) l cmp ad ns.
Proof.
  intros [Hl (d' & Hd' & Hrest) Hch Hnd Had Hct Hbrk] Hd.
  rewrite Hd in Hd'. injection Hd' as <-.
  constructor; cbn [with_iterator elems descs iters brk avail]; auto; [| |lia].
  - eexists. split; [apply lookup_insert_eq|]. exact Hrest.
  - intros k Hk. specialize (Had k Hk). lia.
Qed.

Lemma iterator_remove_releases h l a e d :
  a <> 0 -> l <> 0 -> iters h !! a = Some (mk_it l e) ->
  descs h !! l = Some d ->
  iterator_remove (Iter_heap a) h =
    Ok SUCCESS
       (mk_heap (elems h)
          (<[l := set_nb_iterators d (u32 (nb_iterators d - 1))]> (descs h))
          (delete a (iters h)) (brk h) (avail h)).
Proof.
  intros Ha Hl Hi Hd. unfold iterator_remove. replace (a =? 0) with false by lia.
  unfold bind at 1, get_it. replace (a =? 0) with false by lia. rewrite Hi.
  cbn [list_ref]. unfold bind at 1, get_desc.
  replace (l =? 0) with false by lia. rewrite Hd.
  unfold bind at 1, write_desc. unfold bind, free_it.
  replace (a =? 0) with false by lia. unfold bind, get_it.
  replace (a =? 0) with false by lia. cbn [iters]. rewrite Hi. reflexivity.
Qed.

Lemma iterator_read_null h iter l :
  positioned h iter l 0 -> iterator_read iter h = Ok (0, FAILURE) h.
Proof.
  intros Hp. unfold iterator_read. rewrite (positioned_not_null _ _ _ _ Hp).
  unfold bind. now rewrite (get_it_positioned _ _ _ _ Hp).
Qed.

Lemma iterator_read_head h l cmp ad ns iter :
  represents h l cmp ad ns -> positioned h iter l (head_addr ns 0) ->
  iterator_read iter h =
    Ok (match ns with
        | [] => (0, FAILURE)
        | n :: _ => (snd n, SUCCESS)
        end) h.
Proof.
  intros Hrep Hp. destruct ns as [|[e de] t].
  - now apply (iterator_read_null h iter l).
  - now apply (iterator_read_at h l cmp ad ((e, de) :: t) iter 0 e de).
Qed.

Lemma iterator_read_last h l cmp ad ns iter :
  represents h l cmp ad ns -> positioned h iter l (last_addr ns 0) ->
  iterator_read iter h =
    Ok (match rev ns with
        | [] => (0, FAILURE)
        | n :: _ => (snd n, SUCCESS)
        end) h.
Proof.
  intros Hrep Hp. destruct ns as [|[e de] t _] using rev_ind.
  - now apply (iterator_read_null h iter l).
  - rewrite rev_app_distr. cbn [rev app snd].
    rewrite last_addr_app in Hp. cbn [last_addr fst] in Hp.
    apply (iterator_read_at h l cmp ad (t ++ [(e, de)]) iter (length t) e de);
      [exact Hrep | now rewrite list_lookup_middle | exact Hp].
Qed.

(** X13. [iterator_init] creates an iterator on the first node when [start]
    is set and on the last node otherwise, without changing the list: a read
    through the new iterator returns the payload of that node, and fails on
    an empty list. *)
Theorem iterator_init_starts_at_end h l cmp ad ns (start : bool) :
  represents h l cmp ad ns -> avail h <> 0%nat ->
  exists it h',
    iterator_init l start h = Ok (SUCCESS, it) h' /\
    represents h' l cmp ad ns /\
    iterator_read (Iter_heap it) h' =
      Ok (match (if start then ns else rev ns) with
          | [] => (0, FAILURE)
          | n :: _ => (snd n, SUCCESS)
          end) h'.
Proof.
  intros Hrep Hav.
  pose proof Hrep as [Hl (d & Hd & Hf & Hla & _) _ _ _ _ Hbrk].
  set (e := if start then first d else last d).
  assert (Hrep' : represents (with_iterator h l d e) l cmp ad ns)
    by (apply represents_with_iterator; assumption).
  assert (Hp : positioned (with_iterator h l d e) (Iter_heap (brk h)) l e).
  { cbn [positioned with_iterator iters]. split; [lia|]. apply lookup_insert_eq. }
  exists (brk h), (with_iterator h l d e).
  split; [apply iterator_init_allocates; auto; lia|].
  split; [exact Hrep'|].
  subst e. destruct start.
  - apply (iterator_read_head _ l cmp ad); [exact Hrep'|].
    rewrite <- Hf. exact Hp.
  - apply (iterator_read_last _ l cmp ad); [exact Hrep'|].
    rewrite <- Hla. exact Hp.
Qed.

Lemma iterator_init_starts_at_end_witness :
  exists it h',
    iterator_init 1 false (sample_list 2) = Ok (SUCCESS, it) h' /\
    represents h' 1 Z.sub (adapter_of LIST_DEFAULT 1)
      [(2, 10); (3, 20); (4, 30)] /\
    iterator_read (Iter_heap it) h' =
      Ok (match (if false then [(2, 10); (3, 20); (4, 30)]
                 else rev [(2, 10); (3, 20); (4, 30)]) with
          | [] => (0, FAILURE)
          | n :: _ => (snd n, SUCCESS)
          end) h'.
Proof.
  apply (iterator_init_starts_at_end (sample_list 2) 1 Z.sub
           (adapter_of LIST_DEFAULT 1) [(2, 10); (3, 20); (4, 30)] false).
  - sample_represents.
  - simpl. lia.
Defined.

(** X14. While an iterator created by [iterator_init] is alive, [list_remove]
    refuses to destroy the list and changes nothing; once the iterator is
    given back with [iterator_remove], [list_remove] releases every node and
    the descriptor. The list has no other iterator and no null payload. *)
Theorem live_iterator_blocks_list_remove h l cmp ad ns d (start : bool)
    (fuel : nat) :
  represents h l cmp ad ns ->
  descs h !! l = Some d -> nb_iterators d = 0 ->
  avail h <> 0%nat ->
  (forall n, In n ns -> snd n <> 0) ->
  (length ns + 1 < fuel)%nat ->
  exists it h1 h2 h3,
    iterator_init l start h = Ok (SUCCESS, it) h1 /\
    list_remove fuel l h1 = Ok FAILURE h1 /\
    iterator_remove (Iter_heap it) h1 = Ok SUCCESS h2 /\
    iters h2 !! it = None /\
    list_remove fuel l h2 = Ok SUCCESS h3 /\
    descs h3 !! l = None /\
    forall n, In n ns -> elems h3 !! fst n = None.
Proof.
  intros Hrep Hd Hni Hav Hnz Hfuel.
  pose proof Hrep as [Hl _ _ _ _ _ Hbrk].
  set (e := if start then first d else last d).
  set (h1 := with_iterator h l d e).
  assert (Hrep1 : represents h1 l cmp ad ns)
    by (apply represents_with_iterator; assumption).
  assert (Hd1 : descs h1 !! l = Some (set_nb_iterators d (u32 (nb_iterators d + 1))))
    by apply lookup_insert_eq.
  assert (Hi1 : iters h1 !! brk h = Some (mk_it l e)) by apply lookup_insert_eq.
  pose proof (iterator_remove_releases h1 l (brk h) e _
                ltac:(lia) ltac:(lia) Hi1 Hd1) as Hrem.
  match type of Hrem with _ = Ok _ ?x => set (h2 := x) in * end.
  assert (Hd2 : descs h2 !! l =
    Some (set_nb_iterators
            (set_nb_iterators d (u32 (nb_iterators d + 1)))
            (u32 (u32 (nb_iterators d + 1) - 1))))
    by apply lookup_insert_eq.
  assert (Hrep2 : represents h2 l cmp ad ns).
  { destruct Hrep1 as [? (d' & Hd' & Hrest) Hch Hnd Had Hct Hbrk1].
    rewrite Hd1 in Hd'. injection Hd' as <-.
    constructor; auto. eexists. split; [exact Hd2|]. exact Hrest. }
  destruct (ok_elim _ _
    (list_remove_drains l cmp ad fuel ns h2 _ Hrep2 Hd2
       ltac:(cbn [set_nb_iterators nb_iterators]; rewrite Hni; reflexivity)
       Hnz Hfuel))
    as (rc & h3 & Hdrain & -> & Hgone & Hfreed).
  exists (brk h), h1, h2, h3.
  split; [apply iterator_init_allocates; auto; lia|].
  split.
  { apply (list_remove_refused h1 l _ fuel ltac:(lia) Hd1).
    cbn [set_nb_iterators nb_iterators]. rewrite Hni. discriminate. }
  split; [exact Hrem|].
  split; [apply lookup_delete_eq|].
  split; [exact Hdrain|]. split; assumption.
Qed.

Lemma live_iterator_blocks_list_remove_witness :
  exists it h1 h2 h3,
    iterator_init 1 true (sample_list 2) = Ok (SUCCESS, it) h1 /\
    list_remove 5 1 h1 = Ok FAILURE h1 /\
    iterator_remove (Iter_heap it) h1 = Ok SUCCESS h2 /\
    iters h2 !! it = None /\
    list_remove 5 1 h2 = Ok SUCCESS h3 /\
    descs h3 !! 1 = None /\
    forall n, In n [(2, 10); (3, 20); (4, 30)] -> elems h3 !! fst n = None.
Proof.
  apply (live_iterator_blocks_list_remove (sample_list 2) 1 Z.sub
           (adapter_of LIST_DEFAULT 1) [(2, 10); (3, 20); (4, 30)]
           (mk_desc 2 4 3 Z.sub 0 (mk_it 1 0) (adapter_of LIST_DEFAULT 1))
           true 5).
  - sample_represents.
  - reflexivity.
  - reflexivity.
  - simpl. lia.
  - intros n [<-|[<-|[<-|[]]]]; simpl; lia.
  - simpl. lia.
Defined.

(** X15. [iterator_move] by [n] takes an iterator on position [i] to position
    [i + n] when the list has such a position; when it has none the call
    reports a failure and nothing changes. [n] is any count but
    [INT32_MIN]. *)
Theorem iterator_move_lands h l cmp ad ns iter i n :
  represents h l cmp ad ns ->
  at_index h iter l ns i ->
  INT32_MIN < n <= INT32_MAX ->
  exists h',
    iterator_move iter n h =
      Ok (if (0 <=? Z.of_nat i + n) && (Z.of_nat i + n <? Z.of_nat (length ns))
          then SUCCESS else FAILURE) h' /\
    represents h' l cmp ad ns /\
    if (0 <=? Z.of_nat i + n) && (Z.of_nat i + n <? Z.of_nat (length ns))
    then at_index h' iter l ns (Z.to_nat (Z.of_nat i + n))
    else h' = h.
Proof.
  intros Hrep Hat Hrange.
  rewrite (iterator_move_gen h l cmp ad ns iter i n Hrep Hat Hrange).
  destruct (_ && _) eqn:Hin.
  - eexists. split; [reflexivity|].
    split; [now apply represents_reposition|].
    apply andb_prop in Hin. destruct Hin as [H0 H1].
    apply (at_index_reposition h iter l ns i); [exact Hat | lia].
  - exists h. auto.
Qed.

Lemma iterator_move_lands_witness :
  exists h',
    iterator_move (Iter_heap 5) 1 (sample_list_it 2) =
      Ok (if (0 <=? Z.of_nat 1 + 1)
             && (Z.of_nat 1 + 1 <? Z.of_nat (length [(2, 10); (3, 20); (4, 30)]))
          then SUCCESS else FAILURE) h' /\
    represents h' 1 Z.sub (adapter_of LIST_DEFAULT 1)
      [(2, 10); (3, 20); (4, 30)] /\
    if (0 <=? Z.of_nat 1 + 1)
       && (Z.of_nat 1 + 1 <? Z.of_nat (length [(2, 10); (3, 20); (4, 30)]))
    then at_index h' (Iter_heap 5) 1 [(2, 10); (3, 20); (4, 30)]
           (Z.to_nat (Z.of_nat 1 + 1))
    else h' = sample_list_it 2.
Proof.
  apply (iterator_move_lands (sample_list_it 2) 1 Z.sub
           (adapter_of LIST_DEFAULT 1) [(2, 10); (3, 20); (4, 30)]
           (Iter_heap 5) 1 1).
  - sample_represents.
  - exists (3, 20). split; [reflexivity|]. split; [lia | reflexivity].
  - unfold INT32_MIN, INT32_MAX. lia.
Defined.

(** X19. [iterator_get] unlinks and releases the iterator's node and returns
    its payload; the other nodes keep their order, and the iterator is left
    on the node that followed the removed one. When the removed node was
    the last one the iterator is left without a position, also when nodes
    remain in front of it, and a read through it fails. *)
Theorem iterator_get_moves_to_successor h l cmp ad l1 e de l2 iter :
  represents h l cmp ad (l1 ++ (e, de) :: l2) ->
  positioned h iter l e ->
  exists h',
    iterator_get iter h = Ok (de, SUCCESS) h' /\
    represents h' l cmp ad (l1 ++ l2) /\
    elems h' !! e = None /\
    positioned h' iter l (head_addr l2 0) /\
    iterator_read iter h' =
      Ok (match l2 with
          | [] => (0, FAILURE)
          | n :: _ => (snd n, SUCCESS)
          end) h'.
Proof.
  intros Hrep Hp.
  destruct (ok_elim _ _ (iterator_get_gen h l cmp ad l1 e de l2 iter Hrep Hp))
    as (r & h' & Hget & -> & Hrep' & Hp' & Hgone).
  exists h'. repeat (split; [assumption|]).
  destruct l2 as [|[nx dn] l2].
  - now apply (iterator_read_null h' iter l).
  - apply (iterator_read_at h' l cmp ad (l1 ++ (nx, dn) :: l2) iter (length l1) nx dn);
      [exact Hrep' | now rewrite list_lookup_middle | exact Hp'].
Qed.

Lemma iterator_get_moves_to_successor_witness :
  exists h',
    iterator_get (Iter_heap 5) (sample_list_it 2) = Ok (20, SUCCESS) h' /\
    represents h' 1 Z.sub (adapter_of LIST_DEFAULT 1)
      ([(2, 10)] ++ [(4, 30)]) /\
    elems h' !! 3 = None /\
    positioned h' (Iter_heap 5) 1 (head_addr [(4, 30)] 0) /\
    iterator_read (Iter_heap 5) h' =
      Ok (match [(4, 30)] with
          | [] => (0, FAILURE)
          | n :: _ => (snd n, SUCCESS)
          end) h'.
Proof.
  apply (iterator_get_moves_to_successor (sample_list_it 2) 1 Z.sub
           (adapter_of LIST_DEFAULT 1) [(2, 10)] 3 20 [(4, 30)] (Iter_heap 5)).
  - sample_represents.
  - split; [lia | reflexivity].
Defined.

(** X18. [iterator_edit] replaces the payload of the iterator's node and of
    no other: a read through the iterator returned the old payload before
    and returns the new one after, and the nodes and their order are as
    before. *)
Theorem iterator_edit_then_read h l cmp ad l1 e de l2 iter v :
  represents h l cmp ad (l1 ++ (e, de) :: l2) ->
  positioned h iter l e ->
  exists h',
    iterator_read iter h = Ok (de, SUCCESS) h /\
    iterator_edit iter v h = Ok SUCCESS h' /\
    represents h' l cmp ad (l1 ++ (e, v) :: l2) /\
    iterator_read iter h' = Ok (v, SUCCESS) h'.
Proof.
  intros Hrep Hp. exists (with_payload h e v).
  pose proof (represents_with_payload h l cmp ad l1 e de l2 v Hrep) as Hrep'.
  split.
  { apply (iterator_read_at h l cmp ad (l1 ++ (e, de) :: l2) iter
             (length l1) e de);
      [exact Hrep | now rewrite list_lookup_middle | exact Hp]. }
  split; [apply (iterator_edit_at h l cmp ad l1 e de l2 iter v Hrep Hp)|].
  split; [exact Hrep'|].
  apply (iterator_read_at _ l cmp ad (l1 ++ (e, v) :: l2) iter
           (length l1) e v);
    [exact Hrep' | now rewrite list_lookup_middle
    | now apply positioned_with_payload].
Qed.

Lemma iterator_edit_then_read_witness :
  exists h',
    iterator_read (Iter_heap 5) (sample_list_it 2)
      = Ok (20, SUCCESS) (sample_list_it 2) /\
    iterator_edit (Iter_heap 5) 25 (sample_list_it 2) = Ok SUCCESS h' /\
    represents h' 1 Z.sub (adapter_of LIST_DEFAULT 1)
      ([(2, 10)] ++ (3, 25) :: [(4, 30)]) /\
    iterator_read (Iter_heap 5) h' = Ok (25, SUCCESS) h'.
Proof.
  apply (iterator_edit_then_read (sample_list_it 2) 1 Z.sub
           (adapter_of LIST_DEFAULT 1) [(2, 10)] 3 20 [(4, 30)]
           (Iter_heap 5) 25).
  - sample_represents.
  - split; [lia | reflexivity].
Defined.

(** X17. [iterator_find] puts the iterator, wherever it was, on the first
    node from the head on that the comparator reports equal to [cmp_data];
    when there is none it reports a failure and the iterator stays where it
    was. The list is not changed. *)
Theorem iterator_find_first_match h l cmp ad ns iter x key fuel :
  represents h l cmp ad ns -> positioned h iter l x ->
  (length ns < fuel)%nat ->
  match find (fun n => 0 =? cmp (snd n) key) ns with
  | Some n =>
    exists h',
      iterator_find fuel iter key h = Ok SUCCESS h' /\
      represents h' l cmp ad ns /\
      positioned h' iter l (fst n) /\
      iterator_read iter h' = Ok (snd n, SUCCESS) h'
  | None => iterator_find fuel iter key h = Ok FAILURE h
  end.
Proof.
  intros Hrep Hp Hfuel.
  pose proof (find_split cmp key ns) as Hfind.
  destruct (find _ ns) as [[e de]|].
  - destruct Hfind as (l1 & l2 & -> & Hno & Hyes). cbn [fst snd] in *.
    exists (reposition h iter e).
    assert (Hp' : positioned (reposition h iter e) iter l e)
      by now apply (reposition_positioned h iter l x).
    assert (Hrep' : represents (reposition h iter e) l cmp ad
                      (l1 ++ (e, de) :: l2))
      by now apply represents_reposition.
    split.
    { apply (iterator_find_found h l cmp ad l1 e de l2 iter x key fuel);
        auto. rewrite length_app in Hfuel. lia. }
    split; [exact Hrep'|]. split; [exact Hp'|].
    apply (iterator_read_at _ l cmp ad (l1 ++ (e, de) :: l2) iter
             (length l1) e de);
      [exact Hrep' | now rewrite list_lookup_middle | exact Hp'].
  - now apply (iterator_find_none h l cmp ad ns iter x key fuel).
Qed.

Lemma iterator_find_first_match_witness :
  match find (fun n => 0 =? Z.sub (snd n) 30) [(2, 10); (3, 20); (4, 30)] with
  | Some n =>
    exists h',
      iterator_find 4 (Iter_heap 5) 30 (sample_list_it 2) = Ok SUCCESS h' /\
      represents h' 1 Z.sub (adapter_of LIST_DEFAULT 1)
        [(2, 10); (3, 20); (4, 30)] /\
      positioned h' (Iter_heap 5) 1 (fst n) /\
      iterator_read (Iter_heap 5) h' = Ok (snd n, SUCCESS) h'
  | None => iterator_find 4 (Iter_heap 5) 30 (sample_list_it 2)
            = Ok FAILURE (sample_list_it 2)
  end.
Proof.
  apply (iterator_find_first_match (sample_list_it 2) 1 Z.sub
           (adapter_of LIST_DEFAULT 1) [(2, 10); (3, 20); (4, 30)]
           (Iter_heap 5) 3 30 4).
  - sample_represents.
  - split; [lia | reflexivity].
  - simpl. lia.
Defined.

(** *** Lists ordered by the default comparator *)

Lemma default_comparator_neg d1 d2 :
  default_comparator d1 d2 < 0 <-> 2147483648 <= (d1 - d2) mod 4294967296.
Proof.
  unfold default_comparator, s32, u32.
  pose proof (Z.mod_pos_bound (d1 - d2) 4294967296 ltac:(lia)).
  destruct (Z.ltb_spec ((d1 - d2) mod 4294967296) 2147483648); lia.
Qed.

Lemma find_pred_ext {A : Type} (f g : A -> bool) (l : list A) :
  (forall a, f a = g a) -> find f l = find g l.
Proof.
  intros Hfg. induction l as [|a l IH]; cbn [find]; [reflexivity|].
  now rewrite Hfg, IH.
Qed.

Lemma passed_not_below cmp x ns :
  Forall (fun k => 0 <= cmp x (snd k)) (passed cmp x ns).
Proof.
  induction ns as [|k ns IH]; cbn [passed]; [constructor|].
  destruct (Z.gtb_spec 0 (cmp x (snd k))); constructor; [lia | exact IH].
Qed.

(** What the three [list_*_find] functions do when the first match is the
    node [e], and when there is no match. *)
Lemma find_family_found h l cmp ad l1 e de l2 key fuel :
  represents h l cmp ad (l1 ++ (e, de) :: l2) ->
  Forall (fun n => cmp (snd n) key <> 0) l1 -> cmp de key = 0 ->
  (length l1 < fuel)%nat ->
  (exists h', list_read_find fuel l key h = Ok (de, SUCCESS) h' /\
              represents h' l cmp ad (l1 ++ (e, de) :: l2)) /\
  (forall v, exists h', list_edit_find fuel l v key h = Ok SUCCESS h' /\
                        represents h' l cmp ad (l1 ++ (e, v) :: l2)) /\
  (exists h', list_get_find fuel l key h = Ok (de, SUCCESS) h' /\
              represents h' l cmp ad (l1 ++ l2)).
Proof.
  intros Hrep Hno Hyes Hfuel. pose proof Hrep as [Hl _ _ _ _ _ _].
  destruct (walk_to_match h l cmp ad l1 e de l2 key fuel Hrep Hno Hyes Hfuel)
    as (d & Hd & Hwalk).
  destruct (l_it_positioned _ _ _ _ _ Hrep) as [x Hx].
  assert (Hrep1 : represents (reposition h (Iter_l_it l) e) l cmp ad
                    (l1 ++ (e, de) :: l2))
    by now apply represents_reposition.
  assert (Hp1 : positioned (reposition h (Iter_l_it l) e) (Iter_l_it l) l e)
    by now apply (reposition_positioned h _ l x).
  split; [|split].
  - exists (reposition h (Iter_l_it l) e). split; [|exact Hrep1].
    unfold list_read_find. replace (l =? 0) with false by lia.
    unfold bind at 1. rewrite Hd, Hwalk. cbn [negb Z.eqb SUCCESS].
    apply (iterator_read_at _ l cmp ad (l1 ++ (e, de) :: l2) _ (length l1) e de);
      [exact Hrep1 | now rewrite list_lookup_middle | exact Hp1].
  - intros v. exists (with_payload (reposition h (Iter_l_it l) e) e v). split.
    + unfold list_edit_find. replace (l =? 0) with false by lia.
      unfold bind at 1. rewrite Hd, Hwalk. cbn [negb Z.eqb SUCCESS].
      apply (iterator_edit_at _ l cmp ad l1 e de l2); assumption.
    + now apply represents_with_payload with (de := de).
  - destruct (ok_elim _ _
      (iterator_get_gen _ l cmp ad l1 e de l2 (Iter_l_it l) Hrep1 Hp1))
      as (r & h' & Hget & -> & Hrep' & _).
    exists h'. split; [|exact Hrep'].
    unfold list_get_find. replace (l =? 0) with false by lia.
    unfold bind at 1. rewrite Hd, Hwalk. cbn [negb Z.eqb SUCCESS]. exact Hget.
Qed.

Lemma find_family_none h l cmp ad ns key fuel :
  represents h l cmp ad ns ->
  Forall (fun n => cmp (snd n) key <> 0) ns ->
  (length ns < fuel)%nat ->
  exists h',
    list_read_find fuel l key h = Ok (0, FAILURE) h' /\
    (forall v, list_edit_find fuel l v key h = Ok FAILURE h') /\
    list_get_find fuel l key h = Ok (0, FAILURE) h' /\
    represents h' l cmp ad ns.
Proof.
  intros Hrep Hno Hfuel. pose proof Hrep as [Hl _ _ _ _ _ _].
  destruct (walk_without_match h l cmp ad ns key fuel Hrep Hno Hfuel)
    as (d & Hd & Hwalk).
  exists (reposition h (Iter_l_it l) (head_addr ns 0)).
  split; [|split; [|split; [|now apply represents_reposition]]].
  - unfold list_read_find. replace (l =? 0) with false by lia.
    unfold bind at 1. now rewrite Hd, Hwalk.
  - intros v. unfold list_edit_find. replace (l =? 0) with false by lia.
    unfold bind at 1. now rewrite Hd, Hwalk.
  - unfold list_get_find. replace (l =? 0) with false by lia.
    unfold bind at 1. now rewrite Hd, Hwalk.
Qed.

(** C10. [list_init] with a null comparator succeeds (given memory for the
    descriptor) and leaves a list whose comparator is the difference of the
    two references converted to [int32_t]. On every later state of that
    list, whatever it holds, the comparator-based operations follow the
    references modulo [2^32] and nothing else: [list_add_find] links the
    new reference [key] behind the nodes it walks over, those with
    [(key - p) mod 2^32 < 2^31], and in front of the first node with
    [(key - p) mod 2^32 >= 2^31]; [iterator_find], [list_read_find],
    [list_edit_find] and [list_get_find] act on the first node from the
    head whose reference [p] has [(p - key) mod 2^32 = 0], and fail when
    there is none. So a reference that differs from a stored one by a
    non-zero multiple of [2^32] is a different reference and yet compares
    equal to it. *)
Theorem default_comparator_by_reference (h : heap) (ty : adapter_type)
    (n : nat) :
  avail h = S n -> 0 < brk h ->
  exists l h0,
    list_init true None ty h = Ok (SUCCESS, l) h0 /\
    represents h0 l default_comparator (adapter_of ty l) [] /\
    (forall d k, k <> 0 ->
       d + k * 4294967296 <> d /\
       default_comparator (d + k * 4294967296) d = 0) /\
    forall h1 ns key fuel,
      represents h1 l default_comparator (adapter_of ty l) ns ->
      (length ns < fuel)%nat ->
      (avail h1 <> 0%nat -> Z.of_nat (length ns) + 1 < 4294967296 ->
       exists l1 l2 h2,
         ns = l1 ++ l2 /\
         Forall (fun k => (key - snd k) mod 4294967296 < 2147483648) l1 /\
         match l2 with
         | [] => True
         | k :: _ => 2147483648 <= (key - snd k) mod 4294967296
         end /\
         list_add_find fuel l key h1 = Ok SUCCESS h2 /\
         represents h2 l default_comparator (adapter_of ty l)
           (l1 ++ (brk h1, key) :: l2)) /\
      match find (fun k => (snd k - key) mod 4294967296 =? 0) ns with
      | Some k =>
        exists l1 l2,
          ns = l1 ++ k :: l2 /\
          Forall (fun k' => (snd k' - key) mod 4294967296 <> 0) l1 /\
          (forall iter pos, positioned h1 iter l pos ->
             exists h2, iterator_find fuel iter key h1 = Ok SUCCESS h2 /\
                        positioned h2 iter l (fst k)) /\
          (exists h2,
             list_read_find fuel l key h1 = Ok (snd k, SUCCESS) h2 /\
             represents h2 l default_comparator (adapter_of ty l) ns) /\
          (forall v, exists h2,
             list_edit_find fuel l v key h1 = Ok SUCCESS h2 /\
             represents h2 l default_comparator (adapter_of ty l)
               (l1 ++ (fst k, v) :: l2)) /\
          (exists h2,
             list_get_find fuel l key h1 = Ok (snd k, SUCCESS) h2 /\
             represents h2 l default_comparator (adapter_of ty l) (l1 ++ l2))
      | None =>
        (forall iter pos, positioned h1 iter l pos ->
           iterator_find fuel iter key h1 = Ok FAILURE h1) /\
        exists h2,
          list_read_find fuel l key h1 = Ok (0, FAILURE) h2 /\
          (forall v, list_edit_find fuel l v key h1 = Ok FAILURE h2) /\
          list_get_find fuel l key h1 = Ok (0, FAILURE) h2 /\
          represents h2 l default_comparator (adapter_of ty l) ns
      end.
Proof.
  intros Hav Hbrk.
  destruct (ok_elim _ _ (list_init_spec h None ty n Hav Hbrk))
    as (r & h0 & Hinit & -> & Hrep0 & _).
  cbn [installed] in Hrep0.
  exists (brk h), h0. split; [exact Hinit|]. split; [exact Hrep0|]. split.
  { intros d k Hk. split; [lia|]. apply default_comparator_zero.
    replace (d + k * 4294967296 - d) with (k * 4294967296) by lia.
    apply Z.mod_mul. lia. }
  intros h1 ns key fuel Hrep Hfuel. split.
  - (* sorted insert *)
    intros Hav1 Hlen. destruct (avail h1) as [|n1] eqn:Hn1; [congruence|].
    destruct (ok_elim _ _
      (list_add_find_spec h1 (brk h) default_comparator _ ns key n1 fuel
         Hrep Hn1 Hlen Hfuel))
      as (rc & h2 & Hadd & -> & Hrep2 & _).
    exists (passed default_comparator key ns),
           (reached default_comparator key ns), h2.
    split; [symmetry; apply passed_reached|]. split.
    { eapply Forall_impl; [apply passed_not_below|].
      intros k Hk. cbn beta in Hk.
      destruct (Z.lt_ge_cases ((key - snd k) mod 4294967296) 2147483648)
        as [Hlt|Hge]; [exact Hlt|].
      apply default_comparator_neg in Hge. lia. }
    split.
    { destruct (reached default_comparator key ns) as [|k rest] eqn:Hre;
        [exact I|].
      apply default_comparator_neg.
      apply (reached_head default_comparator key ns k rest Hre). }
    split; [exact Hadd | exact Hrep2].
  - (* the searches *)
    rewrite (find_pred_ext
               (fun k => (snd k - key) mod 4294967296 =? 0)
               (fun k => 0 =? default_comparator (snd k) key)).
    2:{ intros k. destruct (Z.eqb_spec 0 (default_comparator (snd k) key))
          as [Heq|Hne].
        - apply Z.eqb_eq. now apply default_comparator_zero.
        - apply Z.eqb_neq. intros Hz. apply Hne. symmetry.
          now apply default_comparator_zero. }
    pose proof (find_split default_comparator key ns) as Hfind.
    destruct (find _ ns) as [[e de]|].
    + destruct Hfind as (l1 & l2 & -> & Hno & Hyes). cbn [fst snd] in *.
      assert (Hfuel1 : (length l1 < fuel)%nat).
      { rewrite length_app in Hfuel. lia. }
      exists l1, l2. split; [reflexivity|]. split.
      { eapply Forall_impl; [exact Hno|]. intros k Hk Hz. cbn beta in Hk.
        apply Hk. now apply default_comparator_zero. }
      split.
      { intros iter pos Hp. exists (reposition h1 iter e). split.
        - now apply (iterator_find_found h1 (brk h) default_comparator
                       (adapter_of ty (brk h)) l1 e de l2 iter pos key fuel).
        - now apply (reposition_positioned h1 iter (brk h) pos). }
      apply (find_family_found h1 (brk h) default_comparator _ l1 e de l2
               key fuel Hrep Hno Hyes Hfuel1).
    + split.
      { intros iter pos Hp.
        now apply (iterator_find_none h1 (brk h) default_comparator
                     (adapter_of ty (brk h)) ns iter pos key fuel). }
      apply (find_family_none h1 (brk h) default_comparator _ ns key fuel
               Hrep Hfind Hfuel).
Qed.

Lemma default_comparator_by_reference_witness :
  exists l h0,
    list_init true None LIST_DEFAULT (empty_heap 1) = Ok (SUCCESS, l) h0 /\
    represents h0 l default_comparator (adapter_of LIST_DEFAULT l) [] /\
    (forall d k, k <> 0 ->
       d + k * 4294967296 <> d /\
       default_comparator (d + k * 4294967296) d = 0) /\
    forall h1 ns key fuel,
      represents h1 l default_comparator (adapter_of LIST_DEFAULT l) ns ->
      (length ns < fuel)%nat ->
      (avail h1 <> 0%nat -> Z.of_nat (length ns) + 1 < 4294967296 ->
       exists l1 l2 h2,
         ns = l1 ++ l2 /\
         Forall (fun k => (key - snd k) mod 4294967296 < 2147483648) l1 /\
         match l2 with
         | [] => True
         | k :: _ => 2147483648 <= (key - snd k) mod 4294967296
         end /\
         list_add_find fuel l key h1 = Ok SUCCESS h2 /\
         represents h2 l default_comparator (adapter_of LIST_DEFAULT l)
           (l1 ++ (brk h1, key) :: l2)) /\
      match find (fun k => (snd k - key) mod 4294967296 =? 0) ns with
      | Some k =>
        exists l1 l2,
          ns = l1 ++ k :: l2 /\
          Forall (fun k' => (snd k' - key) mod 4294967296 <> 0) l1 /\
          (forall iter pos, positioned h1 iter l pos ->
             exists h2, iterator_find fuel iter key h1 = Ok SUCCESS h2 /\
                        positioned h2 iter l (fst k)) /\
          (exists h2,
             list_read_find fuel l key h1 = Ok (snd k, SUCCESS) h2 /\
             represents h2 l default_comparator (adapter_of LIST_DEFAULT l) ns) /\
          (forall v, exists h2,
             list_edit_find fuel l v key h1 = Ok SUCCESS h2 /\
             represents h2 l default_comparator (adapter_of LIST_DEFAULT l)
               (l1 ++ (fst k, v) :: l2)) /\
          (exists h2,
             list_get_find fuel l key h1 = Ok (snd k, SUCCESS) h2 /\
             represents h2 l default_comparator (adapter_of LIST_DEFAULT l)
               (l1 ++ l2))
      | None =>
        (forall iter pos, positioned h1 iter l pos ->
           iterator_find fuel iter key h1 = Ok FAILURE h1) /\
        exists h2,
          list_read_find fuel l key h1 = Ok (0, FAILURE) h2 /\
          (forall v, list_edit_find fuel l v key h1 = Ok FAILURE h2) /\
          list_get_find fuel l key h1 = Ok (0, FAILURE) h2 /\
          represents h2 l default_comparator (adapter_of LIST_DEFAULT l) ns
      end.
Proof.
  apply (default_comparator_by_reference (empty_heap 1) LIST_DEFAULT 0).
  - reflexivity.
  - simpl. lia.
Defined.

End LinkedListFacts.
